From Stdlib Require Import ZArith String List Lia.
From stdpp Require Import base gmap sets list strings relations sorting pretty.
Open Scope string_scope.
Open Scope list_scope.
Open Scope Z_scope.

(** * Python outcomes *)

(** The exceptions, by class and message.  A [KeyError] that a failed dict
    lookup raises carries the key and is written [DictKeyError]; one that a
    [raise] statement raises carries its message. *)
Inductive exn : Type :=
| ValueError (msg : string)
| KeyError (msg : string)
| DictKeyError (key : string)
| IndexError (msg : string)
| PermissionError (msg : string)
| LookupError (msg : string)
| TypeError (msg : string)
| AttributeError (msg : string)
| NameError (msg : string)
| RecursionError (msg : string)
| UnpicklingError.

Inductive result (A : Type) : Type :=
| Ok (a : A)
| Raise (e : exn).
Arguments Ok {A} a.
Arguments Raise {A} e.

(** Code that reads and writes the attributes of an object of type [S] and
    either returns or raises; what was written before a [raise] stays
    written. *)
Definition M (S A : Type) : Type := S -> S * result A.

Definition ret {S A} (a : A) : M S A := fun s => (s, Ok a).
Definition raise {S A} (e : exn) : M S A := fun s => (s, Raise e).
Definition bind {S A B} (m : M S A) (k : A -> M S B) : M S B :=
  fun s => match m s with
           | (s', Ok a) => k a s'
           | (s', Raise e) => (s', Raise e)
           end.
Definition gets {S A} (f : S -> A) : M S A := fun s => (s, Ok (f s)).
Definition modify {S} (f : S -> S) : M S unit := fun s => (f s, Ok tt).
(** [try: m  except: h] with a bare [except]. *)
Definition try_except {S A} (m : M S A) (h : M S A) : M S A :=
  fun s => match m s with
           | (s', Ok a) => (s', Ok a)
           | (s', Raise _) => h s'
           end.

#[global] Instance M_ret {S} : MRet (M S) := fun A a => ret a.
#[global] Instance M_bind {S} : MBind (M S) := fun A B k m => bind m k.

(** Python's [l[i]] and [l[:n]] for a possibly negative index. *)
Definition py_index {A} (l : list A) (i : Z) : option A :=
  if 0 <=? i then l !! Z.to_nat i
  else if 0 <=? Z.of_nat (length l) + i then l !! Z.to_nat (Z.of_nat (length l) + i)
  else None.

Definition py_take {A} (n : Z) (l : list A) : list A :=
  if 0 <=? n then take (Z.to_nat n) l
  else take (length l - Z.to_nat (- n)) l.

(** Running code written for a component on the object that owns it. *)
Definition zoom {S T A} (get : S -> T) (set : T -> S -> S) (m : M T A) : M S A :=
  fun s => let r := m (get s) in (set r.1 s, r.2).

(** [for x in xs: body(x)] *)
Fixpoint for_each {S A} (xs : list A) (body : A -> M S unit) : M S unit :=
  match xs with
  | [] => ret tt
  | x :: rest => bind (body x) (fun _ => for_each rest body)
  end.

(** A dict that remembers the order in which its keys were inserted. *)
Fixpoint dict_get {A} (d : list (string * A)) (k : string) : option A :=
  match d with
  | [] => None
  | (k', v) :: rest => if decide (k' = k) then Some v else dict_get rest k
  end.

Fixpoint dict_set {A} (d : list (string * A)) (k : string) (v : A)
    : list (string * A) :=
  match d with
  | [] => [(k, v)]
  | (k', v') :: rest =>
      if decide (k' = k) then (k, v) :: rest else (k', v') :: dict_set rest k v
  end.

(** * helpers/topological_sort.py *)

Module TopologicalSort.

Inductive Color := WHITE | GRAY | BLACK.

#[global] Instance Color_eq_dec : EqDecision Color.
Proof. solve_decision. Defined.

Record Node := mkNode { start : option Z; finish : option Z; color : Color }.

(** A graph is a Python dict from node names to the collection of their
    children: the keys in insertion order, each with its children in the
    order in which the collection is iterated. *)
Definition Graph := list (string * list string).

Definition keys (graph : Graph) : list string := graph.*1.

Fixpoint graph_get (graph : Graph) (v : string) : option (list string) :=
  match graph with
  | [] => None
  | (k, deps) :: rest => if decide (k = v) then Some deps else graph_get rest v
  end.

(** The variables shared by the nested functions ([nonlocal nodes, time]). *)
Record dfs_state := mkState { nodes : gmap string Node; time : Z }.

Definition set_start (v : string) (st : dfs_state) : dfs_state :=
  let t := time st + 1 in
  mkState (alter (fun n => mkNode (Some t) (finish n) GRAY) v (nodes st)) t.

Definition set_finish (v : string) (st : dfs_state) : dfs_state :=
  let t := time st + 1 in
  mkState (alter (fun n => mkNode (start n) (Some t) BLACK) v (nodes st)) t.

(** [for dep in graph[v]: ...], with the recursive call abstracted.  [None]
    stands for a recursion that has not finished within the fuel. *)
Fixpoint for_deps (call : string -> dfs_state -> option (result dfs_state))
    (deps : list string) (st : dfs_state) : option (result dfs_state) :=
  match deps with
  | [] => Some (Ok st)
  | dep :: rest =>
      match nodes st !! dep with
      | None => for_deps call rest st
      | Some n =>
          if decide (color n = BLACK) then for_deps call rest st
          else match call dep st with
               | Some (Ok st') => for_deps call rest st'
               | r => r
               end
      end
  end.

Fixpoint dfs (fuel : nat) (graph : Graph) (v : string) (st : dfs_state)
    : option (result dfs_state) :=
  match fuel with
  | O => None
  | S fuel' =>
      match nodes st !! v with
      | None => Some (Raise (DictKeyError v))
      | Some n =>
          if decide (color n = GRAY) then Some (Raise (ValueError "Loop found."))
          else
            let st1 := set_start v st in
            match graph_get graph v with
            | None => Some (Raise (DictKeyError v))
            | Some deps =>
                match for_deps (dfs fuel' graph) deps st1 with
                | Some (Ok st2) => Some (Ok (set_finish v st2))
                | r => r
                end
            end
      end
  end.

(** [for v in graph.keys(): if nodes[v].color == WHITE: dfs(v)] *)
Fixpoint visit_all (fuel : nat) (graph : Graph) (vs : list string)
    (st : dfs_state) : option (result dfs_state) :=
  match vs with
  | [] => Some (Ok st)
  | v :: rest =>
      match nodes st !! v with
      | None => Some (Raise (DictKeyError v))
      | Some n =>
          if decide (color n = WHITE) then
            match dfs fuel graph v st with
            | Some (Ok st') => visit_all fuel graph rest st'
            | r => r
            end
          else visit_all fuel graph rest st
      end
  end.

(** [[(k, v.finish) for k, v in nodes.items()]]: [nodes] was built from
    [graph.keys()], so its items come in that order. *)
Definition key_finishes (graph : Graph) (st : dfs_state)
    : list (string * option Z) :=
  omap (fun k => n ← nodes st !! k; Some (k, finish n)) (keys graph).

(** The sort key [-x[1]] of every item; negating [None] is a [TypeError]. *)
Fixpoint sort_keys (kf : list (string * option Z)) : result (list (Z * string)) :=
  match kf with
  | [] => Ok []
  | (k, Some f) :: rest =>
      match sort_keys rest with
      | Ok l => Ok ((- f, k) :: l)
      | Raise e => Raise e
      end
  | (k, None) :: _ => Raise (TypeError "bad operand type for unary -")
  end.

(** [list.sort(key=...)] is stable: an item goes in front of the first item
    of the sorted tail whose key is not smaller. *)
Fixpoint insert_by_key (x : Z * string) (l : list (Z * string)) : list (Z * string) :=
  match l with
  | [] => [x]
  | y :: l' => if x.1 <=? y.1 then x :: y :: l' else y :: insert_by_key x l'
  end.

Definition sort_by_key (l : list (Z * string)) : list (Z * string) :=
  foldr insert_by_key [] l.

Definition initial_state (graph : Graph) : dfs_state :=
  mkState (list_to_map ((fun v => (v, mkNode None None WHITE)) <$> keys graph)) 0.

(** The recursion of [dfs] is at most one deeper than the number of nodes. *)
Definition topological_fuel (graph : Graph) : nat := S (length graph).

Definition topological (graph : Graph) : option (result (list string)) :=
  match visit_all (topological_fuel graph) graph (keys graph) (initial_state graph) with
  | None => None
  | Some (Raise e) => Some (Raise e)
  | Some (Ok st) =>
      match sort_keys (key_finishes graph st) with
      | Raise e => Some (Raise e)
      | Ok l => Some (Ok ((sort_by_key l).*2))
      end
  end.

(** Edges of the graph restricted to targets that are nodes. *)
Definition edge (graph : Graph) (u v : string) : Prop :=
  exists deps, graph_get graph u = Some deps /\ v ∈ deps /\ v ∈ keys graph.

Definition acyclic (graph : Graph) : Prop := forall u, ~ tc (edge graph) u u.
Definition cyclic (graph : Graph) : Prop := exists u, tc (edge graph) u u.

Definition socks : Graph :=
  [("shirt", ["belt"; "tie"]); ("tie", ["jacket"]); ("jacket", []);
   ("belt", ["jacket"]); ("watch", []); ("undershorts", ["pants"; "shoes"]);
   ("pants", ["belt"; "shoes"]); ("shoes", []); ("socks", ["shoes"])].

End TopologicalSort.

(** * helpers/page_master.py *)

Module PageMaster.

Definition CELL_FILES_DIR : string := "/home/gaffney/psdata/cell_files".

(** What [pickle.load] gives back: a dict, or an object of another type. *)
Inductive PyObj (V : Type) : Type :=
| PyDict (d : gmap string V)
| PyOther.
Arguments PyDict {V} d.
Arguments PyOther {V}.

(** A file on disk: a pickled object, or bytes that cannot be read back. *)
Inductive FileContent (V : Type) : Type :=
| Pickled (o : PyObj V)
| Unreadable.
Arguments Pickled {V} o.
Arguments Unreadable {V}.

(** The two methods that depend on the type of the address: [str(addr)]
    and [_addr_to_page], which the derived classes override. *)
Class Paging (Addr : Type) := {
  addr_str : Addr -> string;
  _addr_to_page : Addr -> string
}.

(** Pages are dicts that are mutated in place while the cache refers to
    them: the cache holds references into a heap of page objects. *)
Definition loc := nat.

Record PageMaster (V : Type) := mkPageMaster {
  prefix : string;
  readonly : bool;
  cache : list (string * loc);
  cache_size : Z;
  heap : gmap loc (PyObj V);
  files : gmap string (FileContent V)
}.
Arguments mkPageMaster {V}.
Arguments prefix {V}.
Arguments readonly {V}.
Arguments cache {V}.
Arguments cache_size {V}.
Arguments heap {V}.
Arguments files {V}.

Section Methods.
Context {Addr V : Type} `{!Paging Addr}.

Definition __init__ (prefix : string) (cache_size : Z) (readonly : bool)
    (files : gmap string (FileContent V)) : PageMaster V :=
  mkPageMaster prefix readonly [] cache_size ∅ files.

Definition set_cache (c : list (string * loc)) (pm : PageMaster V) : PageMaster V :=
  mkPageMaster (prefix pm) (readonly pm) c (cache_size pm) (heap pm) (files pm).

Definition set_heap (h : gmap loc (PyObj V)) (pm : PageMaster V) : PageMaster V :=
  mkPageMaster (prefix pm) (readonly pm) (cache pm) (cache_size pm) h (files pm).

Definition set_files (f : gmap string (FileContent V)) (pm : PageMaster V)
    : PageMaster V :=
  mkPageMaster (prefix pm) (readonly pm) (cache pm) (cache_size pm) (heap pm) f.

(** The object a reference points to. *)
Definition deref (pm : PageMaster V) (l : loc) : PyObj V :=
  default PyOther (heap pm !! l).

Definition _addr_key (addr : Addr) (key : string) : string :=
  addr_str addr +:+ ": " +:+ key.

(** [os.path.join(CELL_FILES_DIR, "{}_{}".format(self.prefix, page_name))] *)
Definition full_path (pm : PageMaster V) (page_name : string) : string :=
  CELL_FILES_DIR +:+ "/" +:+ prefix pm +:+ "_" +:+ page_name.

Definition _load_file (path : string) : M (PageMaster V) (PyObj V) :=
  fun pm =>
    match files pm !! path with
    | None => (pm, Ok (PyDict ∅))
    | Some (Pickled o) => (pm, Ok o)
    | Some Unreadable => (pm, Raise UnpicklingError)
    end.

Definition _save_file (object : PyObj V) (path : string) : M (PageMaster V) unit :=
  fun pm =>
    if readonly pm then (pm, Raise (PermissionError "Cannot modify a readonly."))
    else (set_files (<[path := Pickled object]> (files pm)) pm, Ok tt).

Definition _save_single_page (cache_index : option Z) : M (PageMaster V) unit :=
  fun pm =>
    if readonly pm then (pm, Raise (PermissionError "Cannot modify a readonly."))
    else
      let cache_index :=
        match cache_index with
        | None => Z.of_nat (length (cache pm)) - 1
        | Some i => i
        end in
      match py_index (cache pm) cache_index with
      | None => (pm, Raise (IndexError "list index out of range"))
      | Some c => _save_file (deref pm c.2) (full_path pm c.1) pm
      end.

Definition _load_new_page (page_name : string) : M (PageMaster V) loc :=
  new_dict ← (fun pm => _load_file (full_path pm page_name) pm) ;
  l ← gets (fun pm => fresh (dom (heap pm))) ;
  modify (fun pm => set_heap (<[l := new_dict]> (heap pm)) pm) ;;
  modify (fun pm => set_cache ((page_name, l) :: cache pm) pm) ;;
  overflow ← gets (fun pm => bool_decide (cache_size pm < Z.of_nat (length (cache pm)))) ;
  (if overflow : bool then
     _save_single_page None ;;
     modify (fun pm => set_cache (py_take (cache_size pm) (cache pm)) pm)
   else ret tt) ;;
  ret l.

(** [for ci, c in enumerate(self.cache): if c[0] == page_name: ...] *)
Fixpoint find_cached (page_name : string) (cache : list (string * loc)) (ci : nat)
    : option (nat * (string * loc)) :=
  match cache with
  | [] => None
  | c :: rest =>
      if decide (c.1 = page_name) then Some (ci, c)
      else find_cached page_name rest (S ci)
  end.

Definition _get_page (addr : Addr) : M (PageMaster V) loc :=
  let page_name := _addr_to_page addr in
  found ← gets (fun pm => find_cached page_name (cache pm) 0) ;
  match found with
  | Some (ci, c) =>
      modify (fun pm =>
        set_cache ([c] ++ take ci (cache pm) ++ drop (S ci) (cache pm)) pm) ;;
      ret c.2
  | None => _load_new_page page_name
  end.

(** [page.get(k, None)] *)
Definition page_get (page : loc) (k : string) : M (PageMaster V) (option V) :=
  fun pm =>
    match deref pm page with
    | PyDict d => (pm, Ok (d !! k))
    | PyOther => (pm, Raise (AttributeError "object has no attribute 'get'"))
    end.

(** [page[k] = value] *)
Definition page_setitem (page : loc) (k : string) (value : V)
    : M (PageMaster V) unit :=
  fun pm =>
    match deref pm page with
    | PyDict d => (set_heap (<[page := PyDict (<[k := value]> d)]> (heap pm)) pm, Ok tt)
    | PyOther =>
        (pm, Raise (TypeError "object does not support item assignment"))
    end.

(** The result is [None] for Python's [None]. *)
Definition get_value (addr : Addr) (key : string) : M (PageMaster V) (option V) :=
  try_except
    (page ← _get_page addr ;
     page_get page (_addr_key addr key))
    (ret None).

Definition set_value (addr : Addr) (key : string) (value : V)
    : M (PageMaster V) unit :=
  is_readonly ← gets readonly ;
  if is_readonly : bool then raise (PermissionError "Cannot modify a readonly.")
  else
    page ← _get_page addr ;
    page_setitem page (_addr_key addr key) value.

Fixpoint save_pages (indices : list nat) : M (PageMaster V) unit :=
  match indices with
  | [] => ret tt
  | i :: rest => _save_single_page (Some (Z.of_nat i)) ;; save_pages rest
  end.

Definition save_all_and_empty : M (PageMaster V) unit :=
  is_readonly ← gets readonly ;
  if is_readonly : bool then raise (PermissionError "Cannot modify a readonly.")
  else
    n ← gets (fun pm => length (cache pm)) ;
    save_pages (seq 0 n) ;;
    modify (set_cache []).

Definition close : M (PageMaster V) unit :=
  is_readonly ← gets readonly ;
  if is_readonly : bool then ret tt else save_all_and_empty.

End Methods.

(** The page names currently in the cache, most recently used first. *)
Definition resident {V} (pm : PageMaster V) : list string := (cache pm).*1.

End PageMaster.

(** * cell_header.py *)

Module CellHeader.

Definition CHECK_DATE_AVAILABILITY : bool := false.
Definition SNAPSHOT_KEY : string := "SNAPSHOT".
Definition MAX_DATE : Z := 99999999.

(** [Date = int], [CellKey = Text], [ColumnName = Text] *)
Abbreviation Date := Z (only parsing).
Abbreviation CellKey := string (only parsing).
Abbreviation ColumnName := string (only parsing).

(** The values that cells hold: [None], integers and text. *)
Inductive Value : Type :=
| VNone
| VInt (z : Z)
| VStr (s : string).

#[global] Instance Value_eq_dec : EqDecision Value.
Proof. solve_decision. Defined.

#[global] Instance Value_countable : Countable Value.
Proof.
  refine (inj_countable'
    (fun v => match v with
              | VNone => inl tt
              | VInt z => inr (inl z)
              | VStr s => inr (inr s)
              end)
    (fun x => match x with
              | inl _ => VNone
              | inr (inl z) => VInt z
              | inr (inr s) => VStr s
              end) _).
  by intros [].
Defined.

(** [nonish]: [None] is; an integer is no NaN and equals itself; for a text
    [np.isnan] raises, which the bare [except] passes over, and a text equals
    itself. *)
Definition nonish (x : Value) : bool :=
  match x with
  | VNone => true
  | VInt _ | VStr _ => false
  end.

Definition default_or (x : Value) (default_value : Value) : Value :=
  if nonish x then default_value else x.

(** Truth value of an object in a condition. *)
Definition truthy (x : Value) : bool :=
  match x with
  | VNone => false
  | VInt z => negb (z =? 0)
  | VStr s => negb (String.eqb s EmptyString)
  end.

Record CellAddr := mkCellAddr { date : Date; col : ColumnName }.

#[global] Instance CellAddr_eq_dec : EqDecision CellAddr.
Proof. solve_decision. Defined.

#[global] Instance CellAddr_countable : Countable CellAddr.
Proof.
  refine (inj_countable' (fun a => (date a, col a))
            (fun p => mkCellAddr p.1 p.2) _).
  by intros [].
Defined.

(** [str(addr)] of the attrs class; the column name is shown by [repr], here
    for names without quotes or escapes. *)
Definition CellAddr_str (addr : CellAddr) : string :=
  "CellAddr(date=" +:+ pretty (date addr) +:+ ", col='" +:+ col addr +:+ "')".

(** The classes of columns in cell_header.py and derived_columns.py, by the
    methods they override; [UserColumn] is a subclass that overrides
    [available_on_date]. *)
Inductive ColumnClass : Type :=
| BaseColumn
| FlatColumn
| ProtectedColumn
| ConstColumn (const : Value)
| SimpleFormula
| Waterfall
| UserColumn (available_on_date : CellAddr -> Date).

Record Column := mkColumn {
  name : ColumnName;
  _column_dependencies : gset ColumnName;
  class : ColumnClass
}.

Definition dependencies (c : Column) : gset ColumnName := _column_dependencies c.

Definition cell_dependencies (c : Column) (cell_addr : CellAddr) : list CellAddr :=
  (fun col => mkCellAddr (date cell_addr) col) <$> elements (dependencies c).

Definition available_on_date (c : Column) (cell_addr : CellAddr) : Date :=
  match class c with
  | ProtectedColumn => date cell_addr + 1
  | UserColumn f => f cell_addr
  | _ => date cell_addr
  end.

End CellHeader.

Module CellMaster.
Import CellHeader PageMaster.

(** [CellMaster._addr_to_page]: cells of one month and column share a page. *)
#[global] Instance paging : Paging CellAddr := {|
  addr_str := CellAddr_str;
  _addr_to_page := fun cell_addr =>
    pretty (date cell_addr `div` 100) +:+ "-" +:+ col cell_addr
|}.

Definition __init__ (prefix : string) (cache_size : Z) (readonly : bool)
    (files : gmap string (FileContent Value)) : PageMaster Value :=
  PageMaster.__init__ prefix cache_size readonly files.

End CellMaster.

(** * helpers/date_set.py *)

Module DateSet.
Import CellHeader.

Record DateSet := mkDateSet {
  prefix : string;
  dates_keys : gmap Date (gset CellKey);
  dates : list Date
}.

Definition __init__ (prefix : string) : DateSet := mkDateSet prefix ∅ [].

(** The binary search between the indices [st] and [en].  Each call halves
    the width [en - st], which [width] bounds; the index [m] lies inside the
    list whenever [st < en <= len(dates)].  The two branches that return
    [st] without looking are not reached from [smallest_ind_gt_date]. *)
Fixpoint bisect (width : nat) (dates : list Date) (date : Date) (st en : nat) : nat :=
  if decide (st = en) then st
  else
    match width with
    | O => st
    | S width' =>
        let m := ((st + en) `div` 2)%nat in
        match dates !! m with
        | Some d =>
            if decide (d > date) then bisect width' dates date st m
            else bisect width' dates date (m + 1) en
        | None => st
        end
    end.

Definition smallest_ind_gt_date (ds : DateSet) (date : Date) : nat :=
  bisect (length (dates ds)) (dates ds) date 0 (length (dates ds)).

Definition slice (ds : DateSet) (st_date en_date : option Date) : list Date :=
  if decide (length (dates ds) = 0%nat) then []
  else
    let st_ind :=
      match st_date with
      | None => 0%nat
      | Some st_date =>
          let st_ind := smallest_ind_gt_date ds st_date in
          if decide ((0 < st_ind)%nat /\ dates ds !! (st_ind - 1)%nat = Some st_date)
          then (st_ind - 1)%nat else st_ind
      end in
    let en_ind :=
      match en_date with
      | None => length (dates ds)
      | Some en_date => smallest_ind_gt_date ds en_date
      end in
    drop st_ind (take en_ind (dates ds)).

(** [push_date] ends in a bare [return] or falls off its end: the caller
    gets [None] on every path. *)
Definition push_date (date : Date) (cell_key : CellKey) (ds : DateSet)
    : DateSet * Value :=
  let date_already_encountered := bool_decide (is_Some (dates_keys ds !! date)) in
  let dates_keys' :=
    <[date := {[cell_key]} ∪ default ∅ (dates_keys ds !! date)]> (dates_keys ds) in
  if date_already_encountered then
    (mkDateSet (prefix ds) dates_keys' (dates ds), VNone)
  else if decide (length (dates ds) = 0%nat) then
    (mkDateSet (prefix ds) dates_keys' [date], VNone)
  else
    let ind := smallest_ind_gt_date ds date in
    (mkDateSet (prefix ds) dates_keys'
       (take ind (dates ds) ++ [date] ++ drop ind (dates ds)), VNone).

End DateSet.

(** * helpers/column_manager.py *)

Module ColumnManager.
Import CellHeader.

Record ColumnManager := mkColumnManager {
  prefix : string;
  _columns : list (ColumnName * Column);
  dependency_graph : TopologicalSort.Graph;
  save_needed : gset ColumnName;
  refresh_order : list ColumnName
}.

Definition __init__ (prefix : string) : ColumnManager :=
  mkColumnManager prefix [] [] ∅ [].

Definition __contains__ (cm : ColumnManager) (col : ColumnName) : bool :=
  bool_decide (is_Some (dict_get (_columns cm) col)).

Definition mark_save_needed (key : ColumnName) (cm : ColumnManager) : ColumnManager :=
  mkColumnManager (prefix cm) (_columns cm) (dependency_graph cm)
    ({[key]} ∪ save_needed cm) (refresh_order cm).

Definition get_column (key : ColumnName) : M ColumnManager Column :=
  modify (mark_save_needed key) ;;
  found ← gets (fun cm => dict_get (_columns cm) key) ;
  match found with
  | Some column => mret column
  | None => raise (DictKeyError key)
  end.

(** [topological] as the manager calls it; a search deeper than the graph
    has nodes would end in Python's recursion limit. *)
Definition topological (graph : TopologicalSort.Graph) : result (list ColumnName) :=
  match TopologicalSort.topological graph with
  | Some r => r
  | None => Raise (RecursionError "maximum recursion depth exceeded")
  end.

(** The graph holds the dependency sets of the columns themselves; it is
    only read here, right after every entry has been assigned again. *)
Definition _update_column_dependencies : M ColumnManager unit :=
  modify (fun cm =>
    mkColumnManager (prefix cm) (_columns cm)
      (foldl (fun g kv => dict_set g kv.1 (elements (dependencies kv.2)))
         (dependency_graph cm) (_columns cm))
      (save_needed cm) (refresh_order cm)) ;;
  order ← (fun cm => (cm, topological (dependency_graph cm))) ;
  modify (fun cm =>
    mkColumnManager (prefix cm) (_columns cm) (dependency_graph cm)
      (save_needed cm) order).

Definition add_column (column : Column) : M ColumnManager ColumnName :=
  present ← gets (fun cm => __contains__ cm (name column)) ;
  if present : bool then mret (name column)
  else
    modify (fun cm =>
      mkColumnManager (prefix cm) (dict_set (_columns cm) (name column) column)
        (dependency_graph cm) (save_needed cm) (refresh_order cm)) ;;
    _update_column_dependencies ;;
    modify (mark_save_needed (name column)) ;;
    mret (name column).

(** [get_column(col)._column_dependencies.add(name)], as the constructors
    of the derived columns do for each required column. *)
Definition add_dependency (col name : ColumnName) : M ColumnManager unit :=
  column ← get_column col ;
  modify (fun cm =>
    mkColumnManager (prefix cm)
      (dict_set (_columns cm) col
         (mkColumn (CellHeader.name column)
            ({[name]} ∪ _column_dependencies column) (class column)))
      (dependency_graph cm) (save_needed cm) (refresh_order cm)).

End ColumnManager.

(** * table.py *)

Module Table.
Import CellHeader.

Record Table := mkTable {
  prefix : string;
  readonly : bool;
  cells : PageMaster.PageMaster Value;
  cm : ColumnManager.ColumnManager;
  ds : DateSet.DateSet;
  need_refresh : gmap ColumnName (gset CellAddr);
  (** not an attribute of the class: the calls of [key_init] so far, the
      latest first, kept to state how often the hook runs *)
  key_init_calls : list (ColumnName * CellAddr * CellKey)
}.

(** [__init__] passes [readonly=] to [ColumnManager], whose [__init__] takes
    the prefix only: the call raises once the cell store has been made, and
    no table comes of it. *)
Definition __init__ (prefix : string) (readonly : bool) : result Table :=
  Raise (TypeError "__init__() got an unexpected keyword argument 'readonly'").

(** A table object with the attributes that [__init__] names: the cell
    store, the column manager and the date index under the prefix of the
    table, and no cell marked.  What is stated of the methods below is stated
    of any table object; this one is where the examples start. *)
Definition blank (prefix : string) (readonly : bool)
    (files : gmap string (PageMaster.FileContent Value)) : Table :=
  mkTable prefix readonly (CellMaster.__init__ prefix 80 readonly files)
    (ColumnManager.__init__ prefix) (DateSet.__init__ prefix) ∅ [].

Definition set_cells (c : PageMaster.PageMaster Value) (t : Table) : Table :=
  mkTable (prefix t) (readonly t) c (cm t) (ds t) (need_refresh t) (key_init_calls t).
Definition set_cm (c : ColumnManager.ColumnManager) (t : Table) : Table :=
  mkTable (prefix t) (readonly t) (cells t) c (ds t) (need_refresh t) (key_init_calls t).
Definition set_ds (d : DateSet.DateSet) (t : Table) : Table :=
  mkTable (prefix t) (readonly t) (cells t) (cm t) d (need_refresh t) (key_init_calls t).
Definition set_need_refresh (n : gmap ColumnName (gset CellAddr)) (t : Table) : Table :=
  mkTable (prefix t) (readonly t) (cells t) (cm t) (ds t) n (key_init_calls t).
Definition log_key_init (c : ColumnName * CellAddr * CellKey) (t : Table) : Table :=
  mkTable (prefix t) (readonly t) (cells t) (cm t) (ds t) (need_refresh t)
    (c :: key_init_calls t).

Definition on_cells {A} : M (PageMaster.PageMaster Value) A -> M Table A :=
  zoom cells set_cells.
Definition on_cm {A} : M ColumnManager.ColumnManager A -> M Table A :=
  zoom cm set_cm.

(** [self.need_refresh[addr.col].add(addr)] on the [defaultdict(set)] *)
Definition mark_refresh (addr : CellAddr) (t : Table) : Table :=
  set_need_refresh
    (<[col addr := {[addr]} ∪ default ∅ (need_refresh t !! col addr)]> (need_refresh t)) t.

Definition dirty (t : Table) (c : ColumnName) : gset CellAddr :=
  default ∅ (need_refresh t !! c).

(** [self.need_refresh[name]]: a name that is not there yet gets an empty
    set. *)
Definition need_refresh_get (name : ColumnName) : M Table (gset CellAddr) :=
  modify (fun t =>
    match need_refresh t !! name with
    | Some _ => t
    | None => set_need_refresh (<[name := ∅]> (need_refresh t)) t
    end) ;;
  gets (fun t => dirty t name).

Definition add_column (column : Column) : M Table unit :=
  is_readonly ← gets readonly ;
  if is_readonly : bool then raise (PermissionError "Cannot modify a readonly.")
  else
    on_cm (ColumnManager.add_column column) ;;
    seen ← gets (fun t => (map_to_list (DateSet.dates_keys (ds t))).*1) ;
    for_each seen (fun date => modify (mark_refresh (mkCellAddr date (name column)))).

Definition set_cell_value (cell_addr : CellAddr) (key : CellKey) (value : Value)
    : M Table unit :=
  is_readonly ← gets readonly ;
  if is_readonly : bool then raise (PermissionError "Cannot modify a readonly.")
  else
    registered ← gets (fun t => ColumnManager.__contains__ (cm t) (col cell_addr)) ;
    if negb registered then raise (KeyError "Column not found.")
    else
      new_key_encountered ←
        (fun t => let r := DateSet.push_date (date cell_addr) key (ds t) in
                  (set_ds r.1 t, Ok r.2)) ;
      (if truthy new_key_encountered then
         (* [for col, column in self.cm:] and the class has neither
            [__iter__] nor [__getitem__] *)
         raise (TypeError "'ColumnManager' object is not iterable")
       else mret tt) ;;
      on_cells (PageMaster.set_value cell_addr key value) ;;
      column ← on_cm (ColumnManager.get_column (col cell_addr)) ;
      for_each (cell_dependencies column cell_addr)
        (fun dep => modify (mark_refresh dep)).

(** [column.key_init(cell_addr, key)], by the class of the column. *)
Definition key_init (column : Column) (cell_addr : CellAddr) (key : CellKey)
    : M Table Value :=
  modify (log_key_init (name column, cell_addr, key)) ;;
  match class column with
  | ConstColumn const => set_cell_value cell_addr key const ;; mret VNone
  | _ => mret VNone
  end.

(** [get_cell_value].  Where the store has no value for the cell, the hook
    of the column runs, and its result, [None] for every class of column, is
    to be replaced by [NoneClass()]: a name that neither table.py nor a
    module it imports binds, so that this path ends in the [NameError] and
    stores nothing. *)
Definition get_cell_value (cell_addr : CellAddr) (key : CellKey)
    (assert_available_on : Date) (check_date_availability : bool)
    : M Table Value :=
  unavailable ←
    (if check_date_availability then
       column ← on_cm (ColumnManager.get_column (col cell_addr)) ;
       mret (bool_decide (assert_available_on < available_on_date column cell_addr))
     else mret false) ;
  if unavailable : bool then raise (KeyError "Not available on date.")
  else
    result ← on_cells (PageMaster.get_value cell_addr key) ;
    let result := default VNone result in
    if decide (result = VNone) then
      column ← on_cm (ColumnManager.get_column (col cell_addr)) ;
      result ← key_init column cell_addr key ;
      result ←
        (if decide (result = VNone) then
           (* [result = NoneClass()]: no module binds the name *)
           raise (NameError "name 'NoneClass' is not defined")
         else mret result) ;
      on_cells (PageMaster.set_value cell_addr key result) ;;
      mret result
    else mret result.

(** The call with both optional arguments left out. *)
Definition get_cell_value_default (cell_addr : CellAddr) (key : CellKey)
    : M Table Value :=
  get_cell_value cell_addr key MAX_DATE CHECK_DATE_AVAILABILITY.

(** [self.ds.dates_keys[cell_addr.date]] on the [defaultdict(set)]: a date
    that is not there yet gets an empty set. *)
Definition all_keys_for_address (cell_addr : CellAddr) : M Table (gset CellKey) :=
  modify (fun t =>
    match DateSet.dates_keys (ds t) !! date cell_addr with
    | Some _ => t
    | None =>
        set_ds (DateSet.mkDateSet (DateSet.prefix (ds t))
                  (<[date cell_addr := ∅]> (DateSet.dates_keys (ds t)))
                  (DateSet.dates (ds t))) t
    end) ;;
  gets (fun t => default ∅ (DateSet.dates_keys (ds t) !! date cell_addr)).

End Table.

(** * derived_columns.py *)

Module SnapshotMaster.
Import CellHeader PageMaster.

(** A snapshot: the running total of every label ([defaultdict(int)]). *)
Definition Snapshot := gmap Value Z.

#[global] Instance paging : Paging Date := {|
  addr_str := fun date => pretty date;
  _addr_to_page := fun addr => pretty addr
|}.

Definition __init__ (column_name : ColumnName) (readonly : bool)
    (files : gmap string (FileContent Snapshot)) : PageMaster Snapshot :=
  PageMaster.__init__ ("SNAPSHOT-" +:+ column_name) 5 readonly files.

Definition get_date_value (date : Date) : M (PageMaster Snapshot) (option Snapshot) :=
  get_value date SNAPSHOT_KEY.

Definition set_date_value (date : Date) (value : Snapshot)
    : M (PageMaster Snapshot) unit :=
  page ← _get_page date ;
  page_setitem page (_addr_key date SNAPSHOT_KEY) value.

End SnapshotMaster.

Module Waterfall.
Import CellHeader SnapshotMaster.

Record WaterfallMap := mkWaterfallMap {
  key_column : ColumnName;
  value_column : ColumnName
}.

(** The column object.  [readonly] is read by [refresh] and set by no code
    at hand; [_date_to_snapshot_date] is a method, which a subclass can
    override. *)
Record Waterfall := mkWaterfall {
  name : ColumnName;
  required_columns : list ColumnName;
  input_maps : list WaterfallMap;
  output_key : ColumnName;
  tail_length : Z;
  readonly : bool;
  snapshot_master : PageMaster.PageMaster Snapshot;
  snapshot_dates : DateSet.DateSet;
  date_to_snapshot_date : Date -> Date
}.

Definition _date_to_snapshot_date (date : Date) : Date :=
  let year_month := date `div` 100 in
  let year := year_month `div` 100 in
  let month := year_month `mod` 100 in
  let quarter := (month - 1) `div` 3 in
  let st_date := year * 10000 + (quarter * 3 + 1) * 100 + 1 in
  st_date.

(** The table and the column, which [refresh] both changes. *)
Record Env := mkEnv { table : Table.Table; self : Waterfall }.

Definition on_table {A} : M Table.Table A -> M Env A :=
  zoom table (fun t e => mkEnv t (self e)).

Definition set_snapshot_master (pm : PageMaster.PageMaster Snapshot) (e : Env) : Env :=
  let w := self e in
  mkEnv (table e)
    (mkWaterfall (name w) (required_columns w) (input_maps w) (output_key w)
       (tail_length w) (readonly w) pm (snapshot_dates w) (date_to_snapshot_date w)).

Definition set_snapshot_dates (d : DateSet.DateSet) (e : Env) : Env :=
  let w := self e in
  mkEnv (table e)
    (mkWaterfall (name w) (required_columns w) (input_maps w) (output_key w)
       (tail_length w) (readonly w) (snapshot_master w) d (date_to_snapshot_date w)).

Definition on_snapshot_master {A} : M (PageMaster.PageMaster Snapshot) A -> M Env A :=
  zoom (fun e => snapshot_master (self e)) set_snapshot_master.

(** [snapshot[k]] on the [defaultdict(int)]. *)
Definition total (snapshot : Snapshot) (k : Value) : Z := default 0 (snapshot !! k).

(** [for k, v in increment.items(): snapshot[k] += v] and the same with [-=] *)
Definition snapshot_add (snapshot increment : Snapshot) : Snapshot :=
  foldr (fun kv s => <[kv.1 := total s kv.1 + kv.2]> s) snapshot (map_to_list increment).

Definition snapshot_sub (snapshot increment : Snapshot) : Snapshot :=
  foldr (fun kv s => <[kv.1 := total s kv.1 - kv.2]> s) snapshot (map_to_list increment).

(** One pass of the inner loop of [_get_snapshot_increment]. *)
Definition add_row (date : Date) (key : CellKey) (in_map : WaterfallMap)
    (result : Snapshot) : M Env Snapshot :=
  key_in_result ←
    on_table (Table.get_cell_value_default (mkCellAddr date (key_column in_map)) key) ;
  if decide (key_in_result = VNone) then mret result
  else
    let before := total result key_in_result in
    value ←
      on_table (Table.get_cell_value_default (mkCellAddr date (value_column in_map)) key) ;
    match default_or value (VInt 0) with
    | VInt z => mret (<[key_in_result := before + z]> result)
    | _ => raise (TypeError "unsupported operand type(s) for +=")
    end.

Fixpoint add_rows (date : Date) (rows : list (CellKey * WaterfallMap))
    (result : Snapshot) : M Env Snapshot :=
  match rows with
  | [] => mret result
  | (key, in_map) :: rest =>
      result' ← add_row date key in_map result ;
      add_rows date rest result'
  end.

Definition _get_snapshot_increment (date : Date) : M Env Snapshot :=
  w ← gets self ;
  keys ← on_table (Table.all_keys_for_address (mkCellAddr date (name w))) ;
  add_rows date
    (key ← elements keys; in_map ← input_maps w; [(key, in_map)]) ∅.

Definition _save_snapshot (date : Date) (snapshot : Snapshot) : M Env unit :=
  modify (fun e =>
    set_snapshot_dates (DateSet.push_date date SNAPSHOT_KEY (snapshot_dates (self e))).1 e) ;;
  on_snapshot_master (set_date_value date snapshot).

(** [_expire_less_than(d)], on the variables [window_dates] and
    [working_snapshot] of [refresh]. *)
Fixpoint _expire_less_than (d : Date) (window_dates : list Date)
    (working_snapshot : Snapshot) : M Env (list Date * Snapshot) :=
  match window_dates with
  | [] => mret ([], working_snapshot)
  | w :: rest =>
      if decide (w < d) then
        increment ← _get_snapshot_increment w ;
        _expire_less_than d rest (snapshot_sub working_snapshot increment)
      else mret (window_dates, working_snapshot)
  end.

(** Lines 387 to 402: where the pass starts and with which totals. *)
Definition refresh_start : M Env (Date * Snapshot) :=
  w ← gets self ;
  marked ← on_table (Table.need_refresh_get (name w)) ;
  let marked := elements marked in
  match date <$> marked with
  | [] => raise (ValueError "min() arg is an empty sequence")
  | d :: ds =>
      let min_date := foldr Z.min d ds in
      let first_snapshot_ind :=
        Z.of_nat (DateSet.smallest_ind_gt_date (snapshot_dates w) min_date) - 1 in
      if decide (first_snapshot_ind = -1) then
        mret (date_to_snapshot_date w min_date, ∅)
      else
        match py_index (DateSet.dates (snapshot_dates w)) first_snapshot_ind with
        | None => raise (IndexError "list index out of range")
        | Some first_snapshot_date =>
            working_snapshot ← on_snapshot_master (get_date_value first_snapshot_date) ;
            match working_snapshot with
            | None =>
                raise (LookupError "Couldn't load snapshot that is expected to exist.")
            | Some working_snapshot => mret (first_snapshot_date, working_snapshot)
            end
        end
  end.

(** [sorted(list(set(...)))] *)
Fixpoint insert_date (d : Date) (l : list Date) : list Date :=
  match l with
  | [] => [d]
  | x :: l' =>
      if decide (d < x) then d :: x :: l'
      else if decide (d = x) then x :: l'
      else x :: insert_date d l'
  end.

Definition sorted_set (l : list Date) : list Date := foldr insert_date [] l.

(** The loop that saves the snapshots that are due before a cell date. *)
Fixpoint save_snapshots (next_cell_date : Date) (snapshot_dates_to_update : list Date)
    (window_dates : list Date) (working_snapshot : Snapshot)
    : M Env (list Date * list Date * Snapshot) :=
  match snapshot_dates_to_update with
  | [] => mret ([], window_dates, working_snapshot)
  | next_snapshot_date :: rest =>
      if decide (next_snapshot_date <= next_cell_date) then
        w ← gets self ;
        '(window_dates', working_snapshot') ←
          _expire_less_than (next_snapshot_date - tail_length w)
            window_dates working_snapshot ;
        _save_snapshot next_snapshot_date working_snapshot' ;;
        save_snapshots next_cell_date rest window_dates' working_snapshot'
      else mret (snapshot_dates_to_update, window_dates, working_snapshot)
  end.

(** "Update this column." for one date. *)
Fixpoint write_cells (next_cell_addr : CellAddr) (keys : list CellKey)
    (working_snapshot : Snapshot) : M Env Snapshot :=
  match keys with
  | [] => mret working_snapshot
  | k :: rest =>
      w ← gets self ;
      key_in_snapshot ←
        on_table (Table.get_cell_value_default
                    (mkCellAddr (date next_cell_addr) (output_key w)) k) ;
      let value := total working_snapshot key_in_snapshot in
      let working_snapshot' := <[key_in_snapshot := value]> working_snapshot in
      on_table (Table.set_cell_value next_cell_addr k (VInt value)) ;;
      write_cells next_cell_addr rest working_snapshot'
  end.

(** [while cell_dates_to_update: ...] *)
Fixpoint update_cells (cell_dates_to_update snapshot_dates_to_update : list Date)
    (window_dates : list Date) (working_snapshot : Snapshot) : M Env unit :=
  match cell_dates_to_update with
  | [] => mret tt
  | next_cell_date :: rest =>
      w ← gets self ;
      '(snapshot_dates_to_update', window_dates', working_snapshot') ←
        save_snapshots next_cell_date snapshot_dates_to_update
          window_dates working_snapshot ;
      '(window_dates'', working_snapshot'') ←
        _expire_less_than (next_cell_date - tail_length w)
          (window_dates' ++ [next_cell_date]) working_snapshot' ;
      let next_cell_addr := mkCellAddr next_cell_date (name w) in
      keys ← on_table (Table.all_keys_for_address next_cell_addr) ;
      working_snapshot3 ← write_cells next_cell_addr (elements keys) working_snapshot'' ;
      increment ← _get_snapshot_increment next_cell_date ;
      update_cells rest snapshot_dates_to_update' window_dates''
        (snapshot_add working_snapshot3 increment)
  end.

(** [refresh].  A pass that starts from a checkpoint works on the very
    dict the store holds for that date; here the pass has its own value, and
    the store changes through [_save_snapshot] only.  What is stated below
    of such a pass is where it starts, which is decided before any change. *)
Definition refresh : M Env unit :=
  w ← gets self ;
  if readonly w then mret tt
  else
    '(first_snapshot_date, working_snapshot) ← refresh_start ;
    let window_st := first_snapshot_date - tail_length w in
    let window_en := first_snapshot_date in
    window_dates ←
      gets (fun e => DateSet.slice (Table.ds (table e)) (Some window_st) (Some (window_en - 1))) ;
    cell_dates_to_update ←
      gets (fun e => DateSet.slice (Table.ds (table e)) (Some first_snapshot_date) None) ;
    let snapshot_dates_to_update :=
      sorted_set (date_to_snapshot_date w <$> cell_dates_to_update) in
    update_cells cell_dates_to_update snapshot_dates_to_update
      window_dates working_snapshot.

(** The constructor.  The column is made a dependent of the columns it
    requires; then [Column.__init__] calls [self.open(table)], which is
    [Waterfall.open] and passes [readonly=] on to [Column.open], a method
    with no such parameter: the call raises before the column is added to
    the table, and no column object comes of it. *)
Definition __init__ (name : ColumnName) (required_columns : list ColumnName)
    (input_maps : list WaterfallMap) (output_key : ColumnName)
    (tail_length_years : Z) : M Table.Table Waterfall :=
  for_each required_columns
    (fun col => Table.on_cm (ColumnManager.add_dependency col name)) ;;
  raise (TypeError "open() got an unexpected keyword argument 'readonly'").

End Waterfall.

(** * derived_columns.py: the helper of [SimpleFormula] *)

Module SimpleFormula.
Import CellHeader.




End SimpleFormula.

(** * The reference scenarios of tests/test_derived_columns.py *)

Module Scenarios.
Import CellHeader.

(** [MockWaterfall._date_to_snapshot_date] of the tests: "Round down to
    100000, so that this won't affect most tests." *)
Definition MockWaterfall_date_to_snapshot_date (date : Date) : Date :=
  date `div` 100000 * 100000.

(** The columns [Player1] (the label) and [Points1] (the metric), one row
    per date under the key [row], and the column [player1_wf] over them. *)
Definition two_columns : M Table.Table unit :=
  Table.add_column (mkColumn "Player1" ∅ FlatColumn) ;;
  Table.add_column (mkColumn "Points1" ∅ FlatColumn).

Definition write_row (row : CellKey) (date : Date) (label : string)
    (points : option Z) : M Table.Table unit :=
  Table.set_cell_value (mkCellAddr date "Player1") row (VStr label) ;;
  match points with
  | Some z => Table.set_cell_value (mkCellAddr date "Points1") row (VInt z)
  | None => mret tt
  end.

(** The column object of a scenario and its table, attribute by attribute
    as the constructor names them: the column is a dependent of the columns
    it requires and is added to the table, its window is the years times
    10000, it is not read-only, and its snapshots and their dates start
    empty. *)
Definition waterfall_column (name : ColumnName) (required_columns : list ColumnName)
    (input_maps : list Waterfall.WaterfallMap) (output_key : ColumnName)
    (tail_length_years : Z) (to_snapshot_date : Date -> Date)
    (files : gmap string (PageMaster.FileContent SnapshotMaster.Snapshot))
    : M Table.Table Waterfall.Waterfall :=
  for_each required_columns
    (fun col => Table.on_cm (ColumnManager.add_dependency col name)) ;;
  Table.add_column (mkColumn name ∅ CellHeader.Waterfall) ;;
  prefix ← gets Table.prefix ;
  let store := "SNAPSHOT_" +:+ prefix +:+ ":" +:+ name in
  mret (Waterfall.mkWaterfall name required_columns input_maps output_key
          (tail_length_years * 10000) false
          (SnapshotMaster.__init__ store false files)
          (DateSet.__init__ store) to_snapshot_date).

Definition player1_wf (tail_length_years : Z) (to_snapshot_date : Date -> Date)
    : M Table.Table Waterfall.Waterfall :=
  waterfall_column "player1_wf" ["Player1"; "Points1"]
    [Waterfall.mkWaterfallMap "Player1" "Points1"] "Player1"
    tail_length_years to_snapshot_date ∅.

(** [test_expiry]: a window of three years. *)
Definition expiry_setup (row : CellKey) (to_snapshot_date : Date -> Date)
    : M Table.Table Waterfall.Waterfall :=
  two_columns ;;
  write_row row 10000 "X" (Some 1) ;;
  write_row row 20000 "X" (Some 20) ;;
  write_row row 30000 "X" (Some 300) ;;
  write_row row 40000 "X" (Some 4000) ;;
  write_row row 50000 "X" (Some 50000) ;;
  write_row row 60000 "X" None ;;
  player1_wf 3 to_snapshot_date.

(** [test_snapshot_saving]: a window of a hundred years. *)
Definition snapshot_setup (row : CellKey) (to_snapshot_date : Date -> Date)
    : M Table.Table Waterfall.Waterfall :=
  two_columns ;;
  write_row row 50000 "X" (Some 1) ;;
  write_row row 150000 "X" (Some 20) ;;
  write_row row 180000 "X" (Some 300) ;;
  write_row row 220000 "X" (Some 4000) ;;
  write_row row 250000 "X" (Some 50000) ;;
  write_row row 300000 "X" (Some 600000) ;;
  player1_wf 100 to_snapshot_date.

Definition empty_table : Table.Table := Table.blank "test_prefix" false ∅.

(** Setting up a table and refreshing the column once. *)
Definition refreshed (setup : M Table.Table Waterfall.Waterfall)
    : option Waterfall.Env :=
  match setup empty_table with
  | (t, Ok w) =>
      match Waterfall.refresh (Waterfall.mkEnv t w) with
      | (e, Ok _) => Some e
      | (_, Raise _) => None
      end
  | (_, Raise _) => None
  end.

(** The same, with the table and the column as [refresh] leaves them and
    with what it returns or raises. *)
Definition refresh_outcome (setup : M Table.Table Waterfall.Waterfall)
    : option (Waterfall.Env * result unit) :=
  match setup empty_table with
  | (t, Ok w) => Some (Waterfall.refresh (Waterfall.mkEnv t w))
  | (_, Raise _) => None
  end.

(** The value of the column at a date, as the tests read it. *)
Definition wf_cell (row : CellKey) (e : Waterfall.Env) (date : Date) : result Value :=
  (Table.get_cell_value_default (mkCellAddr date "player1_wf") row
     (Waterfall.table e)).2.

Definition checkpoint_dates (e : Waterfall.Env) : list Date :=
  DateSet.dates (Waterfall.snapshot_dates (Waterfall.self e)).

Definition checkpoint (e : Waterfall.Env) (date : Date)
    : result (option SnapshotMaster.Snapshot) :=
  (SnapshotMaster.get_date_value date
     (Waterfall.snapshot_master (Waterfall.self e))).2.

(** A column that was refreshed before: it has checkpoints at the quarter
    starts 20110101 and 20110401, and its cell of 20110401 is marked for
    refresh again. *)
Definition marked_at_checkpoint : Waterfall.Env :=
  ((w ← Waterfall.on_table
          (two_columns ;; player1_wf 1 Waterfall._date_to_snapshot_date) ;
    modify (fun e => Waterfall.mkEnv (Waterfall.table e) w) ;;
    Waterfall._save_snapshot 20110101 {[VStr "X" := 2]} ;;
    Waterfall._save_snapshot 20110401 {[VStr "X" := 5]} ;;
    Waterfall.on_table
      (modify (Table.mark_refresh (mkCellAddr 20110401 "player1_wf"))))
     (Waterfall.mkEnv empty_table
        (Waterfall.mkWaterfall EmptyString [] [] EmptyString 0 false
           (SnapshotMaster.__init__ EmptyString false ∅)
           (DateSet.__init__ EmptyString) id))).1.

(** The cells of the column marked for refresh, the snapshot stored for a
    date and the date and snapshot a refresh starts from, with sets and
    snapshots as the lists of their items. *)
Definition marked_cells (e : Waterfall.Env) : list CellAddr :=
  elements (Table.dirty (Waterfall.table e) (Waterfall.name (Waterfall.self e))).

Definition checkpoint_items (e : Waterfall.Env) (date : Date)
    : result (option (list (Value * Z))) :=
  match checkpoint e date with
  | Ok s => Ok (map_to_list <$> s)
  | Raise x => Raise x
  end.

Definition refresh_start_items (e : Waterfall.Env)
    : result (Date * list (Value * Z)) :=
  match (Waterfall.refresh_start e).2 with
  | Ok (start, working_snapshot) => Ok (start, map_to_list working_snapshot)
  | Raise x => Raise x
  end.

(** The checkpoint dates after [refresh], and the snapshot stored at each of
    the given dates, as the list of its items. *)
Definition checkpoints_after_refresh (setup : M Table.Table Waterfall.Waterfall)
    (dates : list Date)
    : option (list Date * list (Date * result (option (list (Value * Z))))) :=
  e ← refreshed setup ;
  Some (checkpoint_dates e,
        (fun d => (d, checkpoint_items e d)) <$> dates).

End Scenarios.

Import CellHeader.


(** A writable table with the flat columns "A" and "B", neither a
    dependent of the other, and the same table read-only. *)
Definition two_flat_columns (readonly : bool) : Table.Table :=
  (Table.on_cm (ColumnManager.add_column (mkColumn "A" ∅ FlatColumn) ;;
                ColumnManager.add_column (mkColumn "B" ∅ FlatColumn))
     (Table.blank "test_prefix" readonly ∅)).1.


Module TopologicalSortProofs.
Import TopologicalSort.

(** ** Counting with filters *)

Lemma filter_length_le {A} (P Q : A -> Prop) `{!forall x, Decision (P x)}
    `{!forall x, Decision (Q x)} (l : list A) :
  (forall x, x ∈ l -> P x -> Q x) ->
  (length (filter P l) <= length (filter Q l))%nat.
Proof.
  induction l as [|a l IH]; intros HPQ; [done|].
  rewrite !filter_cons.
  assert (length (filter P l) <= length (filter Q l))%nat as Hle.
  { apply IH. intros x Hx. apply HPQ. by right. }
  destruct (decide (P a)) as [HP|HP].
  - rewrite decide_True by (apply HPQ; [by left|done]). simpl. lia.
  - destruct (decide (Q a)); simpl; lia.
Qed.

Lemma filter_length_lt {A} (P Q : A -> Prop) `{!forall x, Decision (P x)}
    `{!forall x, Decision (Q x)} (l : list A) (a : A) :
  (forall x, x ∈ l -> P x -> Q x) -> a ∈ l -> Q a -> ~ P a ->
  (length (filter P l) < length (filter Q l))%nat.
Proof.
  induction l as [|b l IH]; intros HPQ Ha HQ HnP; [by apply elem_of_nil in Ha|].
  rewrite !filter_cons.
  assert (forall x, x ∈ l -> P x -> Q x) as HPQ'.
  { intros x Hx. apply HPQ. by right. }
  apply elem_of_cons in Ha as [->|Ha].
  - rewrite decide_False by done. rewrite decide_True by done. simpl.
    pose proof (filter_length_le P Q l HPQ'). lia.
  - specialize (IH HPQ' Ha HQ HnP).
    destruct (decide (P b)) as [HP|HP].
    + rewrite decide_True by (apply HPQ; [by left|done]). simpl. lia.
    + destruct (decide (Q b)); simpl; lia.
Qed.

(** ** The stable sort *)

Definition key_le (x y : Z * string) : Prop := x.1 <= y.1.

Lemma insert_by_key_perm x l : insert_by_key x l ≡ₚ x :: l.
Proof.
  induction l as [|y l IH]; simpl; [done|].
  destruct (x.1 <=? y.1); [done|].
  rewrite IH. apply Permutation_swap.
Qed.

Lemma sort_by_key_perm l : sort_by_key l ≡ₚ l.
Proof.
  induction l as [|x l IH]; simpl; [done|].
  rewrite insert_by_key_perm. by rewrite IH.
Qed.

Lemma insert_by_key_sorted x l :
  StronglySorted key_le l -> StronglySorted key_le (insert_by_key x l).
Proof.
  induction 1 as [|y l Hs IH Hall]; simpl.
  - repeat constructor.
  - destruct (Z.leb_spec x.1 y.1) as [Hle|Hgt].
    + constructor; [by constructor|].
      constructor; [done|].
      eapply Forall_impl; [exact Hall|]. unfold key_le. intros; lia.
    + constructor; [done|].
      rewrite insert_by_key_perm. constructor; [unfold key_le; lia|done].
Qed.

Lemma sort_by_key_sorted l : StronglySorted key_le (sort_by_key l).
Proof.
  induction l as [|x l IH]; simpl; [constructor|].
  by apply insert_by_key_sorted.
Qed.

Lemma sorted_before (l : list (Z * string)) x y :
  StronglySorted key_le l -> x ∈ l -> y ∈ l -> x.1 < y.1 ->
  exists i j, l !! i = Some x /\ l !! j = Some y /\ (i < j)%nat.
Proof.
  induction 1 as [|a l Hs IH Hall]; intros Hx Hy Hlt.
  - by apply elem_of_nil in Hx.
  - apply elem_of_cons in Hy as [->|Hy].
    + apply elem_of_cons in Hx as [->|Hx]; [lia|].
      rewrite Forall_forall in Hall. specialize (Hall _ Hx).
      unfold key_le in Hall. lia.
    + apply elem_of_cons in Hx as [->|Hx].
      * apply list_elem_of_lookup in Hy as [j Hj].
        exists 0%nat, (S j). split_and!; [done|done|lia].
      * destruct (IH Hx Hy Hlt) as (i & j & Hi & Hj & Hij).
        exists (S i), (S j). split_and!; [done|done|lia].
Qed.


(** ** Invariants of the depth-first search *)

Section Dfs.
Variable graph : Graph.
Hypothesis Hdict : NoDup (keys graph).

Lemma graph_get_is_Some v : v ∈ keys graph -> is_Some (graph_get graph v).
Proof.
  clear Hdict. unfold keys. induction graph as [|[k deps] g IH]; simpl.
  - intros H. by apply elem_of_nil in H.
  - intros H. destruct (decide (k = v)); [by eexists|].
    apply IH. apply elem_of_cons in H as [H|H]; [by subst|done].
Qed.

Definition colour (st : dfs_state) (v : string) : option Color :=
  color <$> nodes st !! v.

Definition white_count (st : dfs_state) : nat :=
  length (filter (fun v => colour st v = Some WHITE) (keys graph)).

Definition is_black (st : dfs_state) (v : string) : Prop :=
  exists n, nodes st !! v = Some n /\ color n = BLACK.

Definition not_black (st : dfs_state) (v : string) : Prop :=
  forall n, nodes st !! v = Some n -> color n <> BLACK.

Definition no_gray (st : dfs_state) : Prop :=
  forall u n, nodes st !! u = Some n -> color n <> GRAY.

(** Every node on the recursion stack reaches [v] along edges. *)
Definition gray_reach (st : dfs_state) (v : string) : Prop :=
  forall u n, nodes st !! u = Some n -> color n = GRAY -> tc (edge graph) u v.

Record inv (st : dfs_state) : Prop := {
  inv_dom : forall v, is_Some (nodes st !! v) <-> v ∈ keys graph;
  inv_black : forall u nu, nodes st !! u = Some nu -> color nu = BLACK ->
    exists fu, finish nu = Some fu /\ fu <= time st /\
      forall v, edge graph u v ->
        exists nv fv, nodes st !! v = Some nv /\ color nv = BLACK /\
                      finish nv = Some fv /\ fv < fu
}.

Record frame (st st' : dfs_state) : Prop := {
  frame_keep : forall u nu, nodes st !! u = Some nu -> color nu <> WHITE ->
    nodes st' !! u = Some nu;
  frame_gray : forall u nu, nodes st' !! u = Some nu -> color nu = GRAY ->
    nodes st !! u = Some nu;
  frame_time : time st <= time st'
}.

Lemma frame_refl st : frame st st.
Proof. split; auto with lia. Qed.

Lemma frame_trans st1 st2 st3 : frame st1 st2 -> frame st2 st3 -> frame st1 st3.
Proof.
  intros [K1 G1 T1] [K2 G2 T2]. split.
  - intros u nu H Hc. apply K2; [|done]. by apply K1.
  - intros u nu H Hc. apply G1; [|done]. by apply G2.
  - lia.
Qed.

Lemma white_count_frame st st' :
  inv st -> frame st st' -> (white_count st' <= white_count st)%nat.
Proof.
  intros Hinv Hfr. apply filter_length_le. intros v Hv Hw.
  apply (inv_dom _ Hinv) in Hv as [n Hn].
  unfold colour in *. rewrite Hn. simpl. f_equal.
  destruct (decide (color n = WHITE)) as [|Hne]; [done|].
  rewrite (frame_keep _ _ Hfr _ _ Hn Hne) in Hw. simpl in Hw. congruence.
Qed.

Lemma set_start_time v st : time (set_start v st) = time st + 1.
Proof. done. Qed.

Lemma set_finish_time v st : time (set_finish v st) = time st + 1.
Proof. done. Qed.

Lemma set_start_lookup v st u :
  nodes (set_start v st) !! u =
  if decide (v = u)
  then (fun n => mkNode (Some (time st + 1)) (finish n) GRAY) <$> nodes st !! v
  else nodes st !! u.
Proof. unfold set_start. simpl. apply lookup_alter. Qed.

Lemma set_finish_lookup v st u :
  nodes (set_finish v st) !! u =
  if decide (v = u)
  then (fun n => mkNode (start n) (Some (time st + 1)) BLACK) <$> nodes st !! v
  else nodes st !! u.
Proof. unfold set_finish. simpl. apply lookup_alter. Qed.

#[local] Opaque set_start set_finish.

Lemma set_start_inv v st n :
  inv st -> nodes st !! v = Some n -> color n = WHITE -> inv (set_start v st).
Proof.
  intros [Hdom Hblk] Hn Hw. split.
  - intros u. rewrite set_start_lookup. case_decide; [subst|by apply Hdom].
    rewrite Hn. simpl. rewrite <- Hdom, Hn. split; intros _; by eexists.
  - intros u nu. rewrite set_start_lookup. case_decide as Huv.
    { subst. rewrite Hn. simpl. intros [= <-]. done. }
    intros Hu Hb. destruct (Hblk _ _ Hu Hb) as (fu & Hfu & Hle & Hch).
    exists fu. split_and!; [done|rewrite set_start_time; lia|].
    intros w Hw'. destruct (Hch _ Hw') as (nw & fw & Hnw & Hcw & Hfw & Hlt).
    exists nw, fw. split_and!; try done.
    rewrite set_start_lookup. case_decide; [|done].
    subst. rewrite Hn in Hnw. injection Hnw as <-. congruence.
Qed.

Lemma set_start_white_count v st n :
  inv st -> nodes st !! v = Some n -> color n = WHITE ->
  (white_count (set_start v st) < white_count st)%nat.
Proof.
  intros Hinv Hn Hw. apply (filter_length_lt _ _ _ v).
  - intros u _. unfold colour. rewrite set_start_lookup.
    case_decide; [|done]. subst. rewrite Hn. done.
  - apply (inv_dom _ Hinv). by eexists.
  - unfold colour. rewrite Hn. simpl. by f_equal.
  - unfold colour. rewrite set_start_lookup, decide_True by done.
    rewrite Hn. done.
Qed.

Lemma set_start_frame_gray v st st2 n :
  nodes st !! v = Some n -> color n = WHITE ->
  frame (set_start v st) st2 ->
  (forall u nu, nodes st !! u = Some nu -> color nu <> WHITE ->
     nodes st2 !! u = Some nu) /\
  (forall u nu, nodes st2 !! u = Some nu -> color nu = GRAY -> u <> v ->
     nodes st !! u = Some nu) /\
  nodes st2 !! v = Some (mkNode (Some (time st + 1)) (finish n) GRAY).
Proof.
  intros Hn Hw [K G T]. split_and!.
  - intros u nu Hu Hc. apply K; [|done].
    rewrite set_start_lookup. case_decide; [|done]. subst. congruence.
  - intros u nu Hu Hc Hne. specialize (G _ _ Hu Hc).
    rewrite set_start_lookup in G. by rewrite decide_False in G by done.
  - apply K; [|done]. rewrite set_start_lookup, decide_True by done.
    by rewrite Hn.
Qed.


(** What a call [dfs(v)] may do from a state satisfying the invariant. *)
Definition call_spec (st : dfs_state) (v : string)
    (r : option (result dfs_state)) : Prop :=
  match r with
  | None => False
  | Some (Raise e) =>
      e = ValueError "Loop found." /\ (gray_reach st v -> cyclic graph)
  | Some (Ok st') => inv st' /\ frame st st' /\ is_black st' v
  end.

Definition loop_spec (st : dfs_state) (deps : list string)
    (r : option (result dfs_state)) : Prop :=
  match r with
  | None => False
  | Some (Raise e) =>
      e = ValueError "Loop found." /\
      ((forall dep, dep ∈ deps -> dep ∈ keys graph -> gray_reach st dep) ->
       cyclic graph)
  | Some (Ok st') =>
      inv st' /\ frame st st' /\
      forall dep, dep ∈ deps -> dep ∈ keys graph -> is_black st' dep
  end.

Definition call_ok (call : string -> dfs_state -> option (result dfs_state))
    (k : nat) : Prop :=
  forall v st, inv st -> v ∈ keys graph -> not_black st v ->
    (white_count st < k)%nat -> call_spec st v (call v st).

Lemma is_black_frame st st' v : frame st st' -> is_black st v -> is_black st' v.
Proof.
  intros Hfr (n & Hn & Hc). exists n. split; [|done].
  apply (frame_keep _ _ Hfr); [done|congruence].
Qed.

Lemma gray_reach_frame st st' v : frame st st' -> gray_reach st v -> gray_reach st' v.
Proof.
  intros Hfr Hg u n Hn Hc. eapply Hg; [|done]. by apply (frame_gray _ _ Hfr).
Qed.

Lemma for_deps_ok call k :
  call_ok call k ->
  forall deps st, inv st -> (white_count st < k)%nat ->
    loop_spec st deps (for_deps call deps st).
Proof.
  intros Hcall. induction deps as [|dep rest IH]; intros st Hinv Hk; simpl.
  - split_and!; [done|apply frame_refl|].
    intros dep H. by apply elem_of_nil in H.
  - destruct (nodes st !! dep) as [n|] eqn:Hdep.
    2:{ specialize (IH st Hinv Hk). unfold loop_spec in *.
        destruct (for_deps call rest st) as [[st'|e]|]; [| |done].
        - destruct IH as (Hi & Hf & Hb). split_and!; [done|done|].
          intros d Hd Hkd. apply elem_of_cons in Hd as [->|Hd]; [|by apply Hb].
          apply (inv_dom _ Hinv) in Hkd as [? ?]. congruence.
        - destruct IH as (He & Hc). split; [done|].
          intros Hg. apply Hc. intros d Hd. apply Hg. by right. }
    destruct (decide (color n = BLACK)) as [Hb|Hnb].
    { specialize (IH st Hinv Hk). unfold loop_spec in *.
      destruct (for_deps call rest st) as [[st'|e]|]; [| |done].
      - destruct IH as (Hi & Hf & Hbl). split_and!; [done|done|].
        intros d Hd Hkd. apply elem_of_cons in Hd as [->|Hd]; [|by apply Hbl].
        eapply is_black_frame; [done|]. by exists n.
      - destruct IH as (He & Hc). split; [done|].
        intros Hg. apply Hc. intros d Hd. apply Hg. by right. }
    assert (dep ∈ keys graph) as Hkey by (apply (inv_dom _ Hinv); by eexists).
    assert (not_black st dep) as Hnbl by (intros n'; rewrite Hdep; congruence).
    pose proof (Hcall dep st Hinv Hkey Hnbl Hk) as Hc. unfold call_spec in Hc.
    destruct (call dep st) as [[st1|e]|]; [| |done].
    + destruct Hc as (Hi1 & Hf1 & Hb1).
      assert (white_count st1 < k)%nat as Hk1.
      { pose proof (white_count_frame _ _ Hinv Hf1). lia. }
      specialize (IH st1 Hi1 Hk1). unfold loop_spec in *.
      destruct (for_deps call rest st1) as [[st'|e]|]; [| |done].
      * destruct IH as (Hi & Hf & Hbl). split_and!; [done|by eapply frame_trans|].
        intros d Hd Hkd. apply elem_of_cons in Hd as [->|Hd]; [|by apply Hbl].
        by eapply is_black_frame.
      * destruct IH as (He & Hcy). split; [done|].
        intros Hg. apply Hcy. intros d Hd Hkd.
        eapply gray_reach_frame; [done|]. apply Hg; [by right|done].
    + destruct Hc as (He & Hcy). split; [done|].
      intros Hg. apply Hcy. apply Hg; [by left|done].
Qed.

Lemma dfs_ok fuel : call_ok (dfs fuel graph) fuel.
Proof.
  induction fuel as [|fuel IH]; intros v st Hinv Hkey Hnb Hk; [lia|].
  simpl. destruct (proj2 (inv_dom _ Hinv v) Hkey) as [n Hn]. rewrite Hn.
  destruct (decide (color n = GRAY)) as [Hg|Hng].
  { split; [done|]. intros Hgr. exists v. by eapply Hgr. }
  assert (color n = WHITE) as Hw.
  { specialize (Hnb _ Hn). by destruct (color n). }
  destruct (graph_get_is_Some v Hkey) as [deps Hdeps]. rewrite Hdeps.
  pose proof (set_start_inv v st n Hinv Hn Hw) as Hinv1.
  pose proof (set_start_white_count v st n Hinv Hn Hw) as Hwc.
  assert (white_count (set_start v st) < fuel)%nat as Hk1 by lia.
  pose proof (for_deps_ok _ _ IH deps _ Hinv1 Hk1) as Hloop.
  unfold loop_spec in Hloop.
  destruct (for_deps (dfs fuel graph) deps (set_start v st)) as [[st2|e]|];
    [| |done].
  - destruct Hloop as (Hinv2 & Hfr2 & Hbl2).
    destruct (set_start_frame_gray v st st2 n Hn Hw Hfr2) as (Hkeep & Hgray & Hv2).
    pose proof (frame_time _ _ Hfr2) as Ht2. rewrite set_start_time in Ht2.
    unfold call_spec. split_and!.
    + split.
      * intros u. rewrite set_finish_lookup. case_decide; [subst|by apply Hinv2].
        rewrite Hv2. simpl. split; [done|]. intros _. by eexists.
      * intros u nu. rewrite set_finish_lookup. case_decide as Huv.
        -- subst u. rewrite Hv2. simpl. intros [= <-] _. simpl.
           eexists. split_and!; [done|rewrite set_finish_time; lia|].
           intros w Hew. destruct Hew as (deps' & Hd' & Hin & Hkw).
           rewrite Hdeps in Hd'. injection Hd' as <-.
           destruct (Hbl2 _ Hin Hkw) as (nw & Hnw & Hcw).
           destruct (inv_black _ Hinv2 _ _ Hnw Hcw) as (fw & Hfw & Hle & _).
           exists nw, fw. split_and!; [|done|done|lia].
           rewrite set_finish_lookup. case_decide; [|done].
           subst. rewrite Hv2 in Hnw. injection Hnw as <-. done.
        -- intros Hu Hb.
           destruct (inv_black _ Hinv2 _ _ Hu Hb) as (fu & Hfu & Hle & Hch).
           exists fu. split_and!; [done|rewrite set_finish_time; lia|].
           intros w Hew. destruct (Hch _ Hew) as (nw & fw & Hnw & Hcw & Hfw & Hlt).
           exists nw, fw. split_and!; try done.
           rewrite set_finish_lookup. case_decide; [|done].
           subst. rewrite Hv2 in Hnw. injection Hnw as <-. done.
    + split.
      * intros u nu Hu Hc. rewrite set_finish_lookup. case_decide.
        -- subst. congruence.
        -- by apply Hkeep.
      * intros u nu. rewrite set_finish_lookup. case_decide.
        -- subst. rewrite Hv2. simpl. intros [= <-]. done.
        -- intros Hu Hc. by apply Hgray.
      * rewrite set_finish_time. lia.
    + eexists. rewrite set_finish_lookup, decide_True by done.
      rewrite Hv2. simpl. done.
  - destruct Hloop as (He & Hcy). split; [done|].
    intros Hgr. apply Hcy. intros dep Hdep Hkd u nu.
    rewrite set_start_lookup. case_decide.
    + subst u. intros _ _. apply tc_once. by exists deps.
    + intros Hu Hc. eapply tc_r; [by eapply Hgr|]. by exists deps.
Qed.


Lemma visit_all_ok fuel vs st :
  inv st -> no_gray st -> (forall v, v ∈ vs -> v ∈ keys graph) ->
  (white_count st < fuel)%nat ->
  match visit_all fuel graph vs st with
  | None => False
  | Some (Raise e) => e = ValueError "Loop found." /\ cyclic graph
  | Some (Ok st') =>
      inv st' /\ frame st st' /\ no_gray st' /\
      forall v, v ∈ vs -> is_black st' v
  end.
Proof.
  revert st. induction vs as [|v vs IH]; intros st Hinv Hng Hvs Hk; simpl.
  - split_and!; [done|apply frame_refl|done|].
    intros v H. by apply elem_of_nil in H.
  - assert (v ∈ keys graph) as Hkey by (apply Hvs; by left).
    assert (forall u, u ∈ vs -> u ∈ keys graph) as Hvs'
      by (intros u Hu; apply Hvs; by right).
    destruct (proj2 (inv_dom _ Hinv v) Hkey) as [n Hn]. rewrite Hn.
    destruct (decide (color n = WHITE)) as [Hw|Hnw].
    + assert (not_black st v) as Hnb by (intros n'; rewrite Hn; congruence).
      pose proof (dfs_ok fuel v st Hinv Hkey Hnb Hk) as Hc. unfold call_spec in Hc.
      destruct (dfs fuel graph v st) as [[st1|e]|]; [| |done].
      * destruct Hc as (Hi1 & Hf1 & Hb1).
        assert (no_gray st1) as Hng1.
        { intros u nu Hu Hc. eapply Hng; [|exact Hc]. by eapply frame_gray. }
        assert (white_count st1 < fuel)%nat as Hk1.
        { pose proof (white_count_frame _ _ Hinv Hf1). lia. }
        specialize (IH st1 Hi1 Hng1 Hvs' Hk1).
        destruct (visit_all fuel graph vs st1) as [[st'|e]|]; [|done|done].
        destruct IH as (Hi & Hf & Hng' & Hb).
        split_and!; [done|by eapply frame_trans|done|].
        intros u Hu. apply elem_of_cons in Hu as [->|Hu]; [|by apply Hb].
        by eapply is_black_frame.
      * destruct Hc as (He & Hcy). split; [done|]. apply Hcy.
        intros u nu Hu Hc. by destruct (Hng _ _ Hu).
    + specialize (IH st Hinv Hng Hvs' Hk).
      destruct (visit_all fuel graph vs st) as [[st'|e]|]; [|done|done].
      destruct IH as (Hi & Hf & Hng' & Hb). split_and!; [done|done|done|].
      intros u Hu. apply elem_of_cons in Hu as [->|Hu]; [|by apply Hb].
      eapply is_black_frame; [done|]. exists n. split; [done|].
      specialize (Hng _ _ Hn). by destruct (color n).
Qed.

Lemma initial_state_lookup v :
  nodes (initial_state graph) !! v =
  if decide (v ∈ keys graph) then Some (mkNode None None WHITE) else None.
Proof.
  unfold initial_state. simpl.
  set (l := (fun v => (v, mkNode None None WHITE)) <$> keys graph).
  assert (l.*1 = keys graph) as Hfst.
  { unfold l. rewrite <- list_fmap_compose. apply list_fmap_id. }
  case_decide as Hv.
  - apply elem_of_list_to_map; [by rewrite Hfst|].
    apply list_elem_of_fmap. by exists v.
  - apply not_elem_of_list_to_map. by rewrite Hfst.
Qed.

Lemma initial_state_inv : inv (initial_state graph).
Proof.
  split.
  - intros v. rewrite initial_state_lookup. case_decide; split; done.
  - intros u nu. rewrite initial_state_lookup. case_decide; [|done].
    intros [= <-]. done.
Qed.

Lemma initial_state_no_gray : no_gray (initial_state graph).
Proof.
  intros u nu. rewrite initial_state_lookup. case_decide; [|done].
  intros [= <-]. done.
Qed.

Lemma initial_white_count :
  (white_count (initial_state graph) < topological_fuel graph)%nat.
Proof.
  unfold white_count, topological_fuel.
  pose proof (length_filter (fun v => colour (initial_state graph) v = Some WHITE)
                (keys graph)) as H.
  unfold keys in *. rewrite length_fmap in H. lia.
Qed.

(** The finish stamp of a node, once the search is over. *)
Definition fin (st : dfs_state) (k : string) : Z :=
  default 0 (nodes st !! k ≫= finish).

Lemma key_finishes_black st (l : list string) :
  inv st -> (forall v, v ∈ l -> is_black st v) ->
  omap (fun k => n ← nodes st !! k; Some (k, finish n)) l =
  (fun k => (k, Some (fin st k))) <$> l.
Proof.
  intros Hinv. induction l as [|k l IH]; intros Hb; [done|].
  destruct (Hb k) as (n & Hn & Hc); [by left|].
  destruct (inv_black _ Hinv _ _ Hn Hc) as (f & Hf & _).
  csimpl. rewrite Hn. csimpl. rewrite IH by (intros v Hv; apply Hb; by right).
  unfold fin. rewrite Hn. csimpl. by rewrite Hf.
Qed.

Lemma sort_keys_Some (f : string -> Z) (l : list string) :
  sort_keys ((fun k => (k, Some (f k))) <$> l) = Ok ((fun k => (- f k, k)) <$> l).
Proof. induction l as [|k l IH]; [done|]. csimpl. by rewrite IH. Qed.

Lemma fin_edge st u v :
  inv st -> (forall k, k ∈ keys graph -> is_black st k) ->
  u ∈ keys graph -> edge graph u v -> fin st v < fin st u.
Proof.
  intros Hinv Hall Hu Hedge.
  destruct (Hall u Hu) as (nu & Hnu & Hcu).
  destruct (inv_black _ Hinv _ _ Hnu Hcu) as (fu & Hfu & _ & Hch).
  destruct (Hch _ Hedge) as (nv & fv & Hnv & _ & Hfv & Hlt).
  unfold fin. rewrite Hnu, Hnv. simpl. rewrite Hfu, Hfv. done.
Qed.

Lemma edge_source_key u v : edge graph u v -> u ∈ keys graph.
Proof.
  clear Hdict. intros (deps & Hget & _). unfold keys.
  induction graph as [|[k d] g IH]; simpl in *; [done|].
  destruct (decide (k = u)); [subst; by left|]. right. by apply IH.
Qed.

Lemma edge_target_key u v : edge graph u v -> v ∈ keys graph.
Proof. by intros (deps & _ & _ & H). Qed.

Lemma fin_tc st u v :
  inv st -> (forall k, k ∈ keys graph -> is_black st k) ->
  tc (edge graph) u v -> fin st v < fin st u.
Proof.
  intros Hinv Hall. induction 1 as [u v He|u w v He Htc IH].
  - eapply fin_edge; eauto using edge_source_key.
  - pose proof (fin_edge st u w Hinv Hall (edge_source_key _ _ He) He). lia.
Qed.

End Dfs.


(** ** Children that are not nodes are skipped *)

Definition restrict (graph : Graph) : Graph :=
  (fun kv => (kv.1, filter (fun d => d ∈ keys graph) kv.2)) <$> graph.

Section Restrict.
Variable graph : Graph.

Definition dom_sub (st : dfs_state) : Prop :=
  forall u, is_Some (nodes st !! u) -> u ∈ keys graph.

Lemma keys_restrict : keys (restrict graph) = keys graph.
Proof.
  unfold keys, restrict. rewrite <- list_fmap_compose. by apply list_fmap_ext.
Qed.

Lemma graph_get_restrict v :
  graph_get (restrict graph) v =
  filter (fun d => d ∈ keys graph) <$> graph_get graph v.
Proof.
  unfold restrict. generalize (keys graph) as ks. intros ks.
  induction graph as [|[k deps] g IH]; [done|].
  csimpl. destruct (decide (k = v)); [done|]. apply IH.
Qed.

Lemma dom_sub_alter f v st t :
  dom_sub st -> dom_sub (mkState (alter f v (nodes st)) t).
Proof.
  intros H u. simpl. rewrite lookup_alter. case_decide; [subst|apply H].
  rewrite fmap_is_Some. apply H.
Qed.

Lemma for_deps_dom_sub call :
  (forall v st st', dom_sub st -> call v st = Some (Ok st') -> dom_sub st') ->
  forall deps st st', dom_sub st -> for_deps call deps st = Some (Ok st') ->
    dom_sub st'.
Proof.
  intros Hcall. induction deps as [|dep rest IH]; intros st st' Hd; simpl.
  - by intros [= <-].
  - destruct (nodes st !! dep) as [n|]; [|by apply IH].
    destruct (decide (color n = BLACK)); [by apply IH|].
    destruct (call dep st) as [[st1|ex]|] eqn:Hc; [|done|done].
    apply IH. by eapply Hcall.
Qed.

Lemma dfs_dom_sub g' fuel v st st' :
  dom_sub st -> dfs fuel g' v st = Some (Ok st') -> dom_sub st'.
Proof.
  revert v st st'. induction fuel as [|fuel IH]; intros v st st' Hd; [done|].
  simpl. destruct (nodes st !! v) as [n|]; [|done].
  destruct (decide (color n = GRAY)); [done|].
  destruct (graph_get g' v) as [deps|]; [|done].
  destruct (for_deps (dfs fuel g') deps (set_start v st)) as [[st2|ex]|] eqn:Hl;
    [|done|done].
  intros [= <-]. apply dom_sub_alter.
  eapply for_deps_dom_sub; [exact IH| |exact Hl]. by apply dom_sub_alter.
Qed.

Lemma for_deps_restrict call call' :
  (forall v st, dom_sub st -> call v st = call' v st) ->
  (forall v st st', dom_sub st -> call v st = Some (Ok st') -> dom_sub st') ->
  forall deps st, dom_sub st ->
    for_deps call deps st =
    for_deps call' (filter (fun d => d ∈ keys graph) deps) st.
Proof.
  intros Heq Hdom. induction deps as [|dep rest IH]; intros st Hd; [done|].
  rewrite filter_cons. destruct (decide (dep ∈ keys graph)) as [Hk|Hk]; simpl.
  - destruct (nodes st !! dep) as [n|]; [|by apply IH].
    destruct (decide (color n = BLACK)); [by apply IH|].
    rewrite <- Heq by done.
    destruct (call dep st) as [[st1|ex]|] eqn:Hc; [|done|done].
    apply IH. by eapply Hdom.
  - destruct (nodes st !! dep) as [n|] eqn:Hn; [|by apply IH].
    destruct Hk. apply Hd. by eexists.
Qed.

Lemma dfs_restrict fuel v st :
  dom_sub st -> dfs fuel graph v st = dfs fuel (restrict graph) v st.
Proof.
  revert v st. induction fuel as [|fuel IH]; intros v st Hd; [done|].
  simpl. destruct (nodes st !! v) as [n|]; [|done].
  destruct (decide (color n = GRAY)); [done|].
  rewrite graph_get_restrict. destruct (graph_get graph v) as [deps|]; [|done].
  csimpl. erewrite for_deps_restrict; [done|exact IH| |by apply dom_sub_alter].
  intros. by eapply dfs_dom_sub.
Qed.

Lemma visit_all_restrict fuel vs st :
  dom_sub st ->
  visit_all fuel graph vs st = visit_all fuel (restrict graph) vs st.
Proof.
  revert st. induction vs as [|v vs IH]; intros st Hd; [done|].
  simpl. destruct (nodes st !! v) as [n|]; [|done].
  destruct (decide (color n = WHITE)); [|by apply IH].
  rewrite <- dfs_restrict by done.
  destruct (dfs fuel graph v st) as [[st1|ex]|] eqn:Hc; [|done|done].
  apply IH. by eapply dfs_dom_sub.
Qed.

Lemma initial_state_dom_sub : dom_sub (initial_state graph).
Proof.
  intros u [n Hn]. unfold initial_state in Hn. simpl in Hn.
  destruct (decide (u ∈ keys graph)) as [|Hu]; [done|].
  rewrite (not_elem_of_list_to_map_1 _ u) in Hn; [done|].
  rewrite <- list_fmap_compose. by rewrite list_fmap_id.
Qed.

Lemma topological_restrict : topological graph = topological (restrict graph).
Proof.
  unfold topological, topological_fuel, key_finishes, initial_state.
  rewrite keys_restrict. unfold restrict at 1. rewrite length_fmap.
  rewrite <- visit_all_restrict; [done|]. apply initial_state_dom_sub.
Qed.

End Restrict.


Lemma topological_outcome (graph : Graph) :
  NoDup (keys graph) ->
  match topological graph with
  | None => False
  | Some (Raise e) => e = ValueError "Loop found." /\ cyclic graph
  | Some (Ok order) =>
      order ≡ₚ keys graph /\
      (forall u v, edge graph u v ->
         exists i j, order !! i = Some u /\ order !! j = Some v /\ (i < j)%nat) /\
      ~ cyclic graph
  end.
Proof.
  intros Hdict. unfold topological.
  pose proof (visit_all_ok graph (topological_fuel graph) (keys graph)
                (initial_state graph) (initial_state_inv graph Hdict)
                (initial_state_no_gray graph Hdict) (fun v H => H)
                (initial_white_count graph)) as Hv.
  destruct (visit_all (topological_fuel graph) graph (keys graph)
              (initial_state graph)) as [[st|e]|]; [|done|done].
  destruct Hv as (Hinv & _ & _ & Hall).
  unfold key_finishes. rewrite (key_finishes_black graph st) by done.
  rewrite sort_keys_Some.
  set (l := (fun k => (- fin st k, k)) <$> keys graph).
  assert ((sort_by_key l).*2 ≡ₚ keys graph) as Hperm.
  { rewrite sort_by_key_perm. unfold l. rewrite <- list_fmap_compose.
    by rewrite list_fmap_id. }
  split_and!; [done| |].
  - intros u v He.
    pose proof (fin_edge graph st u v Hinv Hall (edge_source_key graph _ _ He) He)
      as Hlt.
    destruct (sorted_before (sort_by_key l) (- fin st u, u) (- fin st v, v))
      as (i & j & Hi & Hj & Hij).
    + apply sort_by_key_sorted.
    + rewrite sort_by_key_perm. unfold l. apply list_elem_of_fmap.
      exists u. split; [done|]. by eapply edge_source_key.
    + rewrite sort_by_key_perm. unfold l. apply list_elem_of_fmap.
      exists v. split; [done|]. by eapply edge_target_key.
    + simpl. lia.
    + exists i, j. rewrite !list_lookup_fmap, Hi, Hj. done.
  - intros [u Hu]. pose proof (fin_tc graph st u u Hinv Hall Hu). lia.
Qed.

#[global] Transparent set_start set_finish.

End TopologicalSortProofs.

(** C2: on a dict whose restriction to edges between nodes is acyclic,
    [topological] returns a list with every node exactly once in which every
    node comes strictly before each of its children that are nodes; children
    that are not keys are ignored (the result is that of the graph without
    them); on a dict whose restriction has a cycle it raises the
    [ValueError] and returns no order. *)
Theorem topological_order_or_cycle_error (graph : TopologicalSort.Graph) :
  NoDup (TopologicalSort.keys graph) ->
  (TopologicalSort.acyclic graph ->
   exists order,
     TopologicalSort.topological graph = Some (Ok order) /\
     order ≡ₚ TopologicalSort.keys graph /\ NoDup order /\
     forall u v, TopologicalSort.edge graph u v ->
       exists i j, order !! i = Some u /\ order !! j = Some v /\ (i < j)%nat) /\
  (TopologicalSort.cyclic graph ->
   TopologicalSort.topological graph = Some (Raise (ValueError "Loop found."))) /\
  TopologicalSort.topological graph =
  TopologicalSort.topological (TopologicalSortProofs.restrict graph).
Proof.
  intros Hdict.
  pose proof (TopologicalSortProofs.topological_outcome graph Hdict) as Hout.
  split_and!.
  - intros Hacyc.
    destruct (TopologicalSort.topological graph) as [[order|e]|]; [| |done].
    + destruct Hout as (Hperm & Hord & _). exists order.
      split_and!; [done|done| |done]. by rewrite Hperm.
    + destruct Hout as (_ & [u Hu]). by destruct (Hacyc u).
  - intros Hcyc.
    destruct (TopologicalSort.topological graph) as [[order|e]|]; [| |done].
    + destruct Hout as (_ & _ & Hn). done.
    + destruct Hout as (-> & _). done.
  - apply TopologicalSortProofs.topological_restrict.
Qed.

(** A dict with three nodes to which the theorem applies. *)
Lemma topological_order_or_cycle_error_witness :
  NoDup (TopologicalSort.keys [("Z", ["X"; "Y"]); ("X", ["Y"; "W"]); ("Y", [])]) /\
  TopologicalSort.topological [("Z", ["X"; "Y"]); ("X", ["Y"; "W"]); ("Y", [])] =
  TopologicalSort.topological
    (TopologicalSortProofs.restrict [("Z", ["X"; "Y"]); ("X", ["Y"; "W"]); ("Y", [])]).
Proof.
  assert (NoDup (TopologicalSort.keys
            [("Z", ["X"; "Y"]); ("X", ["Y"; "W"]); ("Y", [])])) as H.
  { apply NoDup_ListNoDup. vm_compute. repeat constructor; simpl; intuition discriminate. }
  split; [exact H|].
  exact (proj2 (proj2 (topological_order_or_cycle_error _ H))).
Defined.

Module PageMasterFacts.
Import PageMaster.

(** ** Lists ordered by recency *)

(** The distinct entries of an access log (latest access first), each at
    the place of its latest access. *)
Fixpoint mru_order (log : list string) : list string :=
  match log with
  | [] => []
  | p :: log' => p :: filter (fun q => q <> p) (mru_order log')
  end.

Lemma filter_ne_id (p : string) (l : list string) :
  p ∉ l -> filter (fun q => q <> p) l = l.
Proof.
  induction l as [|x l IH]; intros Hp; [done|].
  rewrite filter_cons. apply not_elem_of_cons in Hp as [Hne Hp].
  rewrite decide_True by done. by rewrite IH.
Qed.

Lemma NoDup_mru_order log : NoDup (mru_order log).
Proof.
  induction log as [|p log IH]; simpl; [constructor|].
  constructor.
  - rewrite list_elem_of_filter. intros [Hq _]. by apply Hq.
  - by apply NoDup_filter.
Qed.

Lemma take_filter_take (p : string) (l : list string) (n : nat) :
  NoDup l ->
  take n (filter (fun q => q <> p) (take (S n) l)) =
  take n (filter (fun q => q <> p) l).
Proof.
  intros Hnd. revert n. induction Hnd as [|x l Hx Hnd IH]; intros n; [done|].
  simpl. rewrite !filter_cons. destruct (decide (x <> p)) as [Hne|Heq].
  - destruct n as [|n]; [done|]. simpl. f_equal. apply IH.
  - destruct (decide (x = p)) as [->|Hne]; [|done].
    rewrite (filter_ne_id p l) by done.
    rewrite filter_ne_id; [by rewrite take_idemp|].
    intros H. apply Hx. by eapply subseteq_take.
Qed.

(** ** The scan of the cache *)

Lemma find_cached_None (p : string) (c : list (string * loc)) (k : nat) :
  find_cached p c k = None -> p ∉ c.*1.
Proof.
  revert k. induction c as [|x c IH]; intros k; simpl.
  - intros _. apply not_elem_of_nil.
  - destruct (decide (x.1 = p)); [done|]. intros H.
    apply not_elem_of_cons. split; [done|]. by eapply IH.
Qed.

Lemma find_cached_Some (p : string) (c : list (string * loc)) (k ci : nat) x :
  find_cached p c k = Some (ci, x) ->
  exists i, ci = (k + i)%nat /\ c !! i = Some x /\ x.1 = p /\
            p ∉ (take i c).*1.
Proof.
  revert k. induction c as [|y c IH]; intros k; simpl; [done|].
  destruct (decide (y.1 = p)) as [Hy|Hy].
  - intros [= <- <-]. exists 0%nat. split_and!; [lia|done|done|].
    simpl. apply not_elem_of_nil.
  - intros H. destruct (IH _ H) as (i & -> & Hi & Hx & Hp).
    exists (S i). split_and!; [lia|done|done|].
    simpl. apply not_elem_of_cons. split; [done|exact Hp].
Qed.

Lemma promote_names (p : string) (c : list (string * loc)) (i : nat) x :
  NoDup c.*1 -> c !! i = Some x -> x.1 = p ->
  (take i c ++ drop (S i) c).*1 = filter (fun q => q <> p) c.*1.
Proof.
  revert i. induction c as [|y c IH]; intros i Hnd Hi Hx; [done|].
  apply NoDup_cons in Hnd as [Hy Hnd]. destruct i as [|i]; simpl in *.
  - injection Hi as ->. rewrite filter_cons, Hx.
    rewrite decide_False by (intros Hq; by apply Hq).
    rewrite drop_0. symmetry. apply filter_ne_id. by rewrite <- Hx.
  - rewrite filter_cons. rewrite decide_True.
    + f_equal. by apply IH.
    + intros Heq. apply Hy. rewrite Heq, <- Hx.
      apply list_elem_of_fmap. exists x. split; [done|].
      by eapply list_elem_of_lookup_2.
Qed.


Lemma py_index_last {A} (l : list A) :
  l <> [] -> py_index l (Z.of_nat (length l) - 1) = last l.
Proof.
  intros Hl. unfold py_index.
  assert (0 < length l)%nat by (destruct l; [done|simpl; lia]).
  rewrite (proj2 (Z.leb_le _ _)) by lia.
  replace (Z.to_nat (Z.of_nat (length l) - 1)) with (pred (length l)) by lia.
  by rewrite last_lookup.
Qed.

Ltac unfold_py :=
  unfold mbind, M_bind, bind, mret, M_ret, ret, raise, gets, modify, try_except.

(** ** Operations on the store *)

Section Store.
Context {Addr V : Type} `{!Paging Addr}.

Inductive Op : Type :=
| OpGet (addr : Addr) (key : string)
| OpSet (addr : Addr) (key : string) (value : V).

Definition op_addr (op : Op) : Addr :=
  match op with OpGet a _ => a | OpSet a _ _ => a end.

Definition op_page (op : Op) : string := _addr_to_page (op_addr op).

Definition run_op (op : Op) : M (PageMaster V) (option V) :=
  match op with
  | OpGet a k => get_value a k
  | OpSet a k v => set_value a k v ;; mret None
  end.

Definition step (op : Op) (pm : PageMaster V) : PageMaster V := (run_op op pm).1.

(** Whether the operation gets hold of its page (from the cache or from
    its file): such an operation is a use of the page. *)
Definition loads (op : Op) (pm : PageMaster V) : bool :=
  match (_get_page (op_addr op) pm).2 with
  | Ok _ => true
  | Raise _ => false
  end.

(** The store after a sequence of operations, with the log of the pages
    used, latest first. *)
Fixpoint run_log (ops : list Op) (pm : PageMaster V) (log : list string)
    : PageMaster V * list string :=
  match ops with
  | [] => (pm, log)
  | op :: rest =>
      run_log rest (step op pm) (if loads op pm then op_page op :: log else log)
  end.

(** Every page in the cache refers to an allocated object. *)
Definition wf (pm : PageMaster V) : Prop :=
  forall c, c ∈ cache pm -> c.2 ∈ dom (heap pm).

(** The state right after [_load_new_page] has put the page in front. *)
Definition loaded (pm : PageMaster V) (p : string) (obj : PyObj V) : PageMaster V :=
  set_cache ((p, fresh (dom (heap pm))) :: cache pm)
    (set_heap (<[fresh (dom (heap pm)) := obj]> (heap pm)) pm).

Definition file_object (pm : PageMaster V) (p : string) : option (PyObj V) :=
  match files pm !! full_path pm p with
  | None => Some (PyDict ∅)
  | Some (Pickled o) => Some o
  | Some Unreadable => None
  end.

Lemma _get_page_hit (pm : PageMaster V) addr ci c :
  find_cached (_addr_to_page addr) (cache pm) 0 = Some (ci, c) ->
  _get_page addr pm =
  (set_cache (c :: take ci (cache pm) ++ drop (S ci) (cache pm)) pm, Ok c.2).
Proof. intros H. unfold _get_page. unfold_py. by rewrite H. Qed.

Lemma _get_page_unreadable (pm : PageMaster V) addr :
  find_cached (_addr_to_page addr) (cache pm) 0 = None ->
  file_object pm (_addr_to_page addr) = None ->
  _get_page addr pm = (pm, Raise UnpicklingError).
Proof.
  intros H Hf. unfold _get_page, _load_new_page, _load_file. unfold_py.
  rewrite H. unfold file_object in Hf.
  destruct (files pm !! full_path pm (_addr_to_page addr)) as [[o|]|]; done.
Qed.

Lemma _get_page_room (pm : PageMaster V) addr obj :
  find_cached (_addr_to_page addr) (cache pm) 0 = None ->
  file_object pm (_addr_to_page addr) = Some obj ->
  ~ cache_size pm < Z.of_nat (S (length (cache pm))) ->
  _get_page addr pm = (loaded pm (_addr_to_page addr) obj, Ok (fresh (dom (heap pm)))).
Proof.
  intros H Hf Hroom. unfold _get_page, _load_new_page, _load_file. unfold_py.
  rewrite H. unfold file_object in Hf.
  destruct (files pm !! full_path pm (_addr_to_page addr)) as [[o|]|];
    simplify_eq; simpl; rewrite bool_decide_eq_false_2 by done; done.
Qed.

Lemma _get_page_overflow (pm : PageMaster V) addr obj :
  find_cached (_addr_to_page addr) (cache pm) 0 = None ->
  file_object pm (_addr_to_page addr) = Some obj ->
  cache_size pm < Z.of_nat (S (length (cache pm))) ->
  let pm1 := loaded pm (_addr_to_page addr) obj in
  _get_page addr pm =
  if readonly pm then (pm1, Raise (PermissionError "Cannot modify a readonly."))
  else
    match last (cache pm1) with
    | Some c =>
        (set_cache (py_take (cache_size pm) (cache pm1))
           (set_files (<[full_path pm c.1 := Pickled (deref pm1 c.2)]> (files pm)) pm1),
         Ok (fresh (dom (heap pm))))
    | None => (pm1, Raise (IndexError "list index out of range"))
    end.
Proof.
  intros H Hf Hover pm1. unfold _get_page, _load_new_page, _load_file. unfold_py.
  rewrite H. unfold file_object in Hf.
  destruct (files pm !! full_path pm (_addr_to_page addr)) as [[o|]|];
    simplify_eq; simpl; rewrite bool_decide_eq_true_2 by done;
    unfold _save_single_page; simpl;
    (destruct (readonly pm) eqn:Hro; [done|]);
    change (Z.of_nat (S (length (cache pm)))) with
      (Z.of_nat (length ((_addr_to_page addr, fresh (dom (heap pm))) :: cache pm)));
    rewrite py_index_last by done;
    (destruct (last _) as [c|]; [|done]);
    unfold _save_file; simpl; rewrite Hro; done.
Qed.


Definition capacity (pm : PageMaster V) : nat := Z.to_nat (cache_size pm).

Lemma find_cached_elem (p : string) (c : list (string * loc)) :
  p ∈ c.*1 -> is_Some (find_cached p c 0).
Proof.
  intros Hp. destruct (find_cached p c 0) eqn:Hf; [by eexists|].
  by apply find_cached_None in Hf.
Qed.

(** The ways in which [_get_page] ends. *)
Lemma _get_page_all_cases (pm : PageMaster V) addr :
  let p := _addr_to_page addr in
  let l := fresh (dom (heap pm)) in
  (exists ci c, find_cached p (cache pm) 0 = Some (ci, c) /\
     _get_page addr pm =
     (set_cache (c :: take ci (cache pm) ++ drop (S ci) (cache pm)) pm, Ok c.2)) \/
  ((p ∉ resident pm) /\ file_object pm p = None /\
     _get_page addr pm = (pm, Raise UnpicklingError)) \/
  (exists obj, (p ∉ resident pm) /\ file_object pm p = Some obj /\
     (Z.of_nat (S (length (cache pm))) <= cache_size pm) /\
     _get_page addr pm = (loaded pm p obj, Ok l)) \/
  (exists obj, (p ∉ resident pm) /\ file_object pm p = Some obj /\
     (cache_size pm < Z.of_nat (S (length (cache pm)))) /\
     readonly pm = true /\
     _get_page addr pm =
     (loaded pm p obj, Raise (PermissionError "Cannot modify a readonly."))) \/
  (exists obj c, (p ∉ resident pm) /\ file_object pm p = Some obj /\
     (cache_size pm < Z.of_nat (S (length (cache pm)))) /\
     readonly pm = false /\
     last ((p, l) :: cache pm) = Some c /\
     _get_page addr pm =
     (set_cache (py_take (cache_size pm) ((p, l) :: cache pm))
        (set_files (<[full_path pm c.1 := Pickled (deref (loaded pm p obj) c.2)]>
                      (files pm)) (loaded pm p obj)),
      Ok l)).
Proof.
  intros p l.
  destruct (find_cached p (cache pm) 0) as [[ci c]|] eqn:Hf.
  { left. exists ci, c. split; [done|]. by apply _get_page_hit. }
  right. pose proof (find_cached_None _ _ _ Hf) as Hp.
  destruct (file_object pm p) as [obj|] eqn:Hobj.
  2:{ left. split_and!; [done|done|]. by apply _get_page_unreadable. }
  right. destruct (decide (cache_size pm < Z.of_nat (S (length (cache pm)))))
    as [Hover|Hroom].
  - right. pose proof (_get_page_overflow pm addr obj Hf Hobj Hover) as Hg.
    simpl in Hg. fold p l in Hg. destruct (readonly pm) eqn:Hro.
    { left. exists obj. by split_and!. }
    right. destruct (last ((p, l) :: cache pm)) as [c|] eqn:Hl.
    2:{ rewrite last_cons in Hl. by destruct (last (cache pm)). }
    exists obj, c. split_and!; [done|done|done|done|done|exact Hg].
  - left. exists obj. split_and!; [done|done|lia|].
    by apply _get_page_room.
Qed.

(** The ways in which [_get_page] ends on a store that is not read-only. *)
Lemma _get_page_cases (pm : PageMaster V) addr :
  readonly pm = false ->
  let p := _addr_to_page addr in
  let l := fresh (dom (heap pm)) in
  (exists ci c, find_cached p (cache pm) 0 = Some (ci, c) /\
     _get_page addr pm =
     (set_cache (c :: take ci (cache pm) ++ drop (S ci) (cache pm)) pm, Ok c.2)) \/
  ((p ∉ resident pm) /\ file_object pm p = None /\
     _get_page addr pm = (pm, Raise UnpicklingError)) \/
  (exists obj, (p ∉ resident pm) /\ file_object pm p = Some obj /\
     (S (length (cache pm)) <= capacity pm)%nat /\
     _get_page addr pm = (loaded pm p obj, Ok l)) \/
  (exists obj c, (p ∉ resident pm) /\ file_object pm p = Some obj /\
     (capacity pm < S (length (cache pm)))%nat /\
     last ((p, l) :: cache pm) = Some c /\
     _get_page addr pm =
     (set_cache (py_take (cache_size pm) ((p, l) :: cache pm))
        (set_files (<[full_path pm c.1 := Pickled (deref (loaded pm p obj) c.2)]>
                      (files pm)) (loaded pm p obj)),
      Ok l)).
Proof.
  intros Hro p l.
  destruct (_get_page_all_cases pm addr)
    as [H|[H|[(obj & Hp & Hobj & Hroom & Hg)|[(obj & _ & _ & _ & Hro' & _)|
        (obj & c & Hp & Hobj & Hover & _ & Hlast & Hg)]]]].
  - by left.
  - right. by left.
  - right. right. left. exists obj. split_and!; [done|done|unfold capacity; lia|done].
  - congruence.
  - right. right. right. exists obj, c.
    split_and!; [done|done|unfold capacity; lia|done|done].
Qed.

Lemma deref_set_heap_ne (pm : PageMaster V) l l' o :
  l <> l' -> deref (set_heap (<[l := o]> (heap pm)) pm) l' = deref pm l'.
Proof. intros H. unfold deref. simpl. by rewrite lookup_insert_ne. Qed.

(** What an operation does after it has its page changes the heap only. *)
Lemma step_after_page (op : Op) (pm : PageMaster V) pm1 l :
  readonly pm = false ->
  _get_page (op_addr op) pm = (pm1, Ok l) ->
  step op pm = pm1 \/
  exists o, step op pm = set_heap (<[l := o]> (heap pm1)) pm1.
Proof.
  intros Hro Hg. unfold step. destruct op as [a k|a k v]; simpl in *.
  - left. unfold get_value. unfold_py. rewrite Hg. unfold page_get.
    by destruct (deref pm1 l).
  - unfold set_value. unfold_py. rewrite Hro, Hg. unfold page_setitem.
    destruct (deref pm1 l); simpl; [right; by eexists|by left].
Qed.

Lemma step_no_page (op : Op) (pm : PageMaster V) e :
  readonly pm = false ->
  _get_page (op_addr op) pm = (pm, Raise e) ->
  step op pm = pm.
Proof.
  intros Hro Hg. unfold step. destruct op as [a k|a k v]; simpl in *.
  - unfold get_value. unfold_py. by rewrite Hg.
  - unfold set_value. unfold_py. by rewrite Hro, Hg.
Qed.

Lemma py_take_capacity {A} (pm : PageMaster V) (l : list A) :
  1 <= cache_size pm -> py_take (cache_size pm) l = take (capacity pm) l.
Proof. intros H. unfold py_take, capacity. by rewrite (proj2 (Z.leb_le _ _)) by lia. Qed.

(** The outcome of one operation, case by case. *)
Record step_facts (op : Op) (pm pm' : PageMaster V) : Prop := {
  sf_readonly : readonly pm' = false;
  sf_size : cache_size pm' = cache_size pm;
  sf_prefix : prefix pm' = prefix pm;
  sf_wf : wf pm -> wf pm';
  sf_idle : loads op pm = false -> pm' = pm;
  sf_order : loads op pm = true ->
    resident pm' =
    take (capacity pm) (op_page op :: filter (fun q => q <> op_page op) (resident pm));
  sf_evict : wf pm -> loads op pm = true -> op_page op ∉ resident pm ->
    length (cache pm) = capacity pm ->
    exists q lq, last (cache pm) = Some (q, lq) /\
      cache pm' = (op_page op, fresh (dom (heap pm))) :: removelast (cache pm) /\
      files pm' = <[full_path pm q := Pickled (deref pm' lq)]> (files pm) /\
      deref pm' lq = deref pm lq;
  sf_keep : loads op pm = true ->
    (op_page op ∈ resident pm \/ (length (cache pm) < capacity pm)%nat) ->
    files pm' = files pm /\ forall q, q ∈ resident pm -> q ∈ resident pm'
}.

Lemma wf_set_heap (pm : PageMaster V) l o : wf pm -> wf (set_heap (<[l := o]> (heap pm)) pm).
Proof.
  intros H c Hc. simpl. rewrite dom_insert_L. apply elem_of_union_r. by apply H.
Qed.


Lemma loads_Ok (op : Op) (pm pm1 : PageMaster V) l :
  _get_page (op_addr op) pm = (pm1, Ok l) -> loads op pm = true.
Proof. intros H. unfold loads. by rewrite H. Qed.

Lemma loads_Raise (op : Op) (pm pm1 : PageMaster V) e :
  _get_page (op_addr op) pm = (pm1, Raise e) -> loads op pm = false.
Proof. intros H. unfold loads. by rewrite H. Qed.

Lemma fresh_not_cached (pm : PageMaster V) c :
  wf pm -> c ∈ cache pm -> c.2 <> fresh (dom (heap pm)).
Proof. intros Hwf Hc Heq. apply (is_fresh (dom (heap pm))). rewrite <- Heq. by apply Hwf. Qed.

Lemma step_facts_hit (op : Op) (pm pm' : PageMaster V) ci c :
  NoDup (resident pm) -> (length (cache pm) <= capacity pm)%nat ->
  find_cached (op_page op) (cache pm) 0 = Some (ci, c) ->
  loads op pm = true ->
  readonly pm' = false -> cache_size pm' = cache_size pm -> prefix pm' = prefix pm ->
  cache pm' = c :: take ci (cache pm) ++ drop (S ci) (cache pm) ->
  files pm' = files pm -> dom (heap pm) ⊆ dom (heap pm') ->
  step_facts op pm pm'.
Proof.
  intros Hnd Hlen Hf Hloads Hro Hsz Hpre Hcache Hfiles Hdom.
  destruct (find_cached_Some _ _ _ _ _ Hf) as (i & -> & Hi & Hc & _). simpl in *.
  assert (resident pm' = op_page op :: filter (fun q => q <> op_page op) (resident pm))
    as Hres.
  { unfold resident. rewrite Hcache. rewrite fmap_cons, Hc. f_equal.
    by eapply promote_names. }
  split; try done.
  - intros Hwf x Hx. apply Hdom. apply Hwf. rewrite Hcache in Hx.
    apply elem_of_cons in Hx as [->|Hx]; [by eapply list_elem_of_lookup_2|].
    apply elem_of_app in Hx as [Hx|Hx].
    + by eapply subseteq_take.
    + by eapply subseteq_drop.
  - by rewrite Hloads.
  - intros _. rewrite <- Hres. symmetry. apply take_ge.
    unfold resident. rewrite Hcache, length_fmap. simpl.
    rewrite length_app, length_take, length_drop.
    apply lookup_lt_Some in Hi. lia.
  - intros _ _ Hp. destruct Hp. rewrite <- Hc. unfold resident.
    apply list_elem_of_fmap. exists c. split; [done|].
    by eapply list_elem_of_lookup_2.
  - intros _ _. split; [done|]. intros q Hq. rewrite Hres.
    destruct (decide (q = op_page op)) as [->|Hne]; [by left|].
    right. by apply list_elem_of_filter.
Qed.

Lemma step_facts_room (op : Op) (pm pm' : PageMaster V) :
  (S (length (cache pm)) <= capacity pm)%nat ->
  op_page op ∉ resident pm ->
  loads op pm = true ->
  readonly pm' = false -> cache_size pm' = cache_size pm -> prefix pm' = prefix pm ->
  cache pm' = (op_page op, fresh (dom (heap pm))) :: cache pm ->
  files pm' = files pm ->
  {[fresh (dom (heap pm))]} ∪ dom (heap pm) ⊆ dom (heap pm') ->
  step_facts op pm pm'.
Proof.
  intros Hlen Hp Hloads Hro Hsz Hpre Hcache Hfiles Hdom.
  split; try done.
  - intros Hwf x Hx. apply Hdom. rewrite Hcache in Hx.
    apply elem_of_cons in Hx as [->|Hx]; [set_solver|].
    apply elem_of_union_r. by apply Hwf.
  - by rewrite Hloads.
  - intros _. unfold resident. rewrite Hcache, fmap_cons. simpl.
    rewrite filter_ne_id by done. symmetry. apply take_ge.
    simpl. rewrite length_fmap. lia.
  - intros _ _ _ Heq. lia.
  - intros _ _. split; [done|]. intros q Hq. unfold resident.
    rewrite Hcache, fmap_cons. by right.
Qed.

Lemma step_facts_overflow (op : Op) (pm pm' : PageMaster V) obj c :
  1 <= cache_size pm ->
  (capacity pm < S (length (cache pm)))%nat ->
  (length (cache pm) <= capacity pm)%nat ->
  op_page op ∉ resident pm ->
  loads op pm = true ->
  last ((op_page op, fresh (dom (heap pm))) :: cache pm) = Some c ->
  readonly pm' = false -> cache_size pm' = cache_size pm -> prefix pm' = prefix pm ->
  cache pm' = take (capacity pm) ((op_page op, fresh (dom (heap pm))) :: cache pm) ->
  files pm' =
    <[full_path pm c.1 := Pickled (deref (loaded pm (op_page op) obj) c.2)]> (files pm) ->
  {[fresh (dom (heap pm))]} ∪ dom (heap pm) ⊆ dom (heap pm') ->
  (forall l', l' <> fresh (dom (heap pm)) -> deref pm' l' = deref pm l') ->
  step_facts op pm pm'.
Proof.
  intros HC Hover Hlen Hp Hloads Hlast Hro Hsz Hpre Hcache Hfiles Hdom Hderef.
  assert (0 < capacity pm)%nat as Hpos by (unfold capacity; lia).
  split; try done.
  - intros Hwf x Hx. apply Hdom. rewrite Hcache in Hx.
    apply subseteq_take in Hx.
    apply elem_of_cons in Hx as [->|Hx]; [set_solver|].
    apply elem_of_union_r. by apply Hwf.
  - by rewrite Hloads.
  - intros _. unfold resident. rewrite Hcache, fmap_take, fmap_cons. simpl.
    by rewrite filter_ne_id by done.
  - intros Hwf _ _ Heq.
    assert (cache pm <> []) as Hne by (intros H0; rewrite H0 in Heq; simpl in Heq; lia).
    assert (last (cache pm) = Some c) as Hl.
    { rewrite last_cons in Hlast. destruct (last (cache pm)) eqn:E; [done|].
      apply last_None in E. done. }
    assert (c ∈ cache pm) as Hin.
    { rewrite last_lookup in Hl. by eapply list_elem_of_lookup_2. }
    pose proof (fresh_not_cached pm c Hwf Hin) as Hfresh.
    destruct c as [q lq]. exists q, lq. simpl in *. split_and!; [done| | |].
    + rewrite Hcache. destruct (capacity pm) as [|n] eqn:E; [lia|]. simpl.
      f_equal. rewrite removelast_firstn_len. f_equal. lia.
    + rewrite Hfiles. do 2 f_equal. rewrite (Hderef _ Hfresh).
      unfold loaded. unfold deref. simpl. by rewrite lookup_insert_ne.
    + by apply Hderef.
  - intros _ [Hin|Hlt]; [done|lia].
Qed.


Lemma step_facts_holds (op : Op) (pm : PageMaster V) :
  readonly pm = false -> 1 <= cache_size pm ->
  NoDup (resident pm) -> (length (cache pm) <= capacity pm)%nat ->
  step_facts op pm (step op pm).
Proof.
  intros Hro HC Hnd Hlen.
  destruct (_get_page_cases pm (op_addr op) Hro)
    as [(ci & c & Hf & Hg)|[(Hp & Hobj & Hg)|[(obj & Hp & Hobj & Hroom & Hg)|
        (obj & c & Hp & Hobj & Hover & Hlast & Hg)]]].
  - pose proof (loads_Ok _ _ _ _ Hg) as Hloads.
    destruct (step_after_page op pm _ _ Hro Hg) as [->|[o ->]];
      eapply step_facts_hit; eauto; simpl; try done.
    rewrite dom_insert_L. apply union_subseteq_r.
  - pose proof (loads_Raise _ _ _ _ Hg) as Hloads.
    rewrite (step_no_page op pm _ Hro Hg).
    split; try done; rewrite Hloads; done.
  - pose proof (loads_Ok _ _ _ _ Hg) as Hloads.
    destruct (step_after_page op pm _ _ Hro Hg) as [->|[o ->]];
      eapply step_facts_room; eauto; simpl; try done.
    + by rewrite dom_insert_L.
    + rewrite !dom_insert_L. apply union_subseteq_r.
  - pose proof (loads_Ok _ _ _ _ Hg) as Hloads.
    destruct (step_after_page op pm _ _ Hro Hg) as [->|[o ->]];
      eapply step_facts_overflow; eauto; simpl; try done.
    + by apply py_take_capacity.
    + by rewrite dom_insert_L.
    + intros l' Hl'. unfold deref. simpl. by rewrite lookup_insert_ne.
    + by apply py_take_capacity.
    + rewrite !dom_insert_L. apply union_subseteq_r.
    + intros l' Hl'. unfold deref. simpl. by rewrite !lookup_insert_ne.
Qed.

(** The state reached by a sequence of operations from an empty cache. *)
Record lru_state (pm0 pm : PageMaster V) (log : list string) : Prop := {
  ls_readonly : readonly pm = false;
  ls_size : cache_size pm = cache_size pm0;
  ls_prefix : prefix pm = prefix pm0;
  ls_wf : wf pm;
  ls_order : resident pm = take (capacity pm0) (mru_order log)
}.

Lemma lru_state_bounds pm0 pm log :
  lru_state pm0 pm log ->
  NoDup (resident pm) /\ (length (cache pm) <= capacity pm)%nat.
Proof.
  intros [_ Hsz _ _ Hord]. split.
  - rewrite Hord. eapply sublist_NoDup; [apply NoDup_mru_order|apply sublist_take].
  - unfold capacity. rewrite Hsz. fold (capacity pm0).
    rewrite <- (length_fmap fst). fold (resident pm). rewrite Hord.
    rewrite length_take. lia.
Qed.

Lemma lru_state_step pm0 pm log op :
  1 <= cache_size pm0 ->
  lru_state pm0 pm log ->
  lru_state pm0 (step op pm) (if loads op pm then op_page op :: log else log).
Proof.
  intros HC Hst. destruct (lru_state_bounds _ _ _ Hst) as [Hnd Hlen].
  destruct Hst as [Hro Hsz Hpre Hwf Hord].
  assert (1 <= cache_size pm) as HC' by lia.
  pose proof (step_facts_holds op pm Hro HC' Hnd Hlen) as Hsf.
  destruct (loads op pm) eqn:Hloads.
  - split.
    + by apply (sf_readonly _ _ _ Hsf).
    + by rewrite (sf_size _ _ _ Hsf).
    + by rewrite (sf_prefix _ _ _ Hsf).
    + by apply (sf_wf _ _ _ Hsf).
    + rewrite (sf_order _ _ _ Hsf Hloads). unfold capacity. rewrite Hsz.
      fold (capacity pm0). rewrite Hord. simpl.
      destruct (capacity pm0) as [|n] eqn:E; [unfold capacity in E; lia|].
      simpl. f_equal. apply take_filter_take, NoDup_mru_order.
  - rewrite (sf_idle _ _ _ Hsf Hloads). by split.
Qed.

Lemma lru_state_run pm0 ops pm log :
  1 <= cache_size pm0 ->
  lru_state pm0 pm log ->
  lru_state pm0 (run_log ops pm log).1 (run_log ops pm log).2.
Proof.
  intros HC. revert pm log. induction ops as [|op ops IH]; intros pm log Hst; [done|].
  simpl. apply IH. by apply lru_state_step.
Qed.

Lemma lru_state_init (pm0 : PageMaster V) :
  readonly pm0 = false -> cache pm0 = [] -> lru_state pm0 pm0 [].
Proof.
  intros Hro Hc. split; try done.
  - intros c. rewrite Hc. by intros ?%elem_of_nil.
  - unfold resident. rewrite Hc. simpl. by rewrite take_nil.
Qed.

End Store.

Arguments Op : clear implicits.


(** ** Reading back what the store holds *)

Section ReadBack.
Context {Addr V : Type} `{!Paging Addr}.

Lemma set_cache_id (pm : PageMaster V) : set_cache (cache pm) pm = pm.
Proof. by destruct pm. Qed.

Lemma _get_page_keeps (pm : PageMaster V) (addr : Addr) :
  readonly (_get_page addr pm).1 = readonly pm /\
  cache_size (_get_page addr pm).1 = cache_size pm /\
  prefix (_get_page addr pm).1 = prefix pm.
Proof.
  destruct (_get_page_all_cases pm addr)
    as [(ci & c & _ & ->)|[(_ & _ & ->)|[(obj & _ & _ & _ & ->)|
        [(obj & _ & _ & _ & _ & ->)|(obj & c & _ & _ & _ & _ & _ & ->)]]]]; done.
Qed.

Definition pm_error (e : exn) : Prop :=
  e = UnpicklingError \/ e = PermissionError "Cannot modify a readonly." \/
  e = TypeError "object does not support item assignment".

Lemma _get_page_raises (pm pm1 : PageMaster V) (addr : Addr) e :
  _get_page addr pm = (pm1, Raise e) -> pm_error e.
Proof.
  unfold pm_error.
  destruct (_get_page_all_cases pm addr)
    as [(ci & c & _ & ->)|[(_ & _ & ->)|[(obj & _ & _ & _ & ->)|
        [(obj & _ & _ & _ & _ & ->)|(obj & c & _ & _ & _ & _ & _ & ->)]]]];
    intros [= <- <-]; auto.
Qed.

Lemma _get_page_front (pm pm1 : PageMaster V) (addr : Addr) l :
  1 <= cache_size pm -> _get_page addr pm = (pm1, Ok l) ->
  exists rest, cache pm1 = (_addr_to_page addr, l) :: rest.
Proof.
  intros HC.
  destruct (_get_page_all_cases pm addr)
    as [(ci & c & Hf & ->)|[(_ & _ & ->)|[(obj & _ & _ & _ & ->)|
        [(obj & _ & _ & _ & _ & ->)|(obj & c & _ & _ & _ & _ & _ & ->)]]]];
    intros [= <- <-]; simpl.
  - destruct (find_cached_Some _ _ _ _ _ Hf) as (i & _ & _ & Hc & _).
    destruct c as [p' l']. simpl in *. subst. by eexists.
  - by eexists.
  - unfold py_take. rewrite (proj2 (Z.leb_le _ _)) by lia.
    destruct (Z.to_nat (cache_size pm)) as [|n] eqn:E; [lia|]. simpl. by eexists.
Qed.

Lemma _get_page_at_front (pm : PageMaster V) (addr : Addr) l rest :
  cache pm = (_addr_to_page addr, l) :: rest -> _get_page addr pm = (pm, Ok l).
Proof.
  intros Hc. rewrite (_get_page_hit pm addr 0%nat (_addr_to_page addr, l)).
  - simpl. rewrite Hc. simpl. rewrite drop_0. rewrite <- Hc. by rewrite set_cache_id.
  - rewrite Hc. simpl. by rewrite decide_True.
Qed.

Lemma get_value_Ok (pm : PageMaster V) (addr : Addr) key :
  exists r, (get_value addr key pm).2 = Ok r.
Proof.
  unfold get_value. unfold_py.
  destruct (_get_page addr pm) as [pm1 [l|e]]; [|by eexists].
  unfold page_get. destruct (deref pm1 l); by eexists.
Qed.

Lemma get_value_state (pm : PageMaster V) (addr : Addr) key :
  (get_value addr key pm).1 = (_get_page addr pm).1.
Proof.
  unfold get_value. unfold_py.
  destruct (_get_page addr pm) as [pm1 [l|e]]; [|done].
  unfold page_get. by destruct (deref pm1 l).
Qed.

Lemma get_value_Some_inv (pm pm1 : PageMaster V) (addr : Addr) key v :
  get_value addr key pm = (pm1, Ok (Some v)) ->
  exists l d, _get_page addr pm = (pm1, Ok l) /\ deref pm1 l = PyDict d /\
              d !! _addr_key addr key = Some v.
Proof.
  unfold get_value. unfold_py.
  destruct (_get_page addr pm) as [pm' [l|e]]; [|done].
  unfold page_get. destruct (deref pm' l) as [d|] eqn:Hd; [|done].
  intros [= <- Hv]. by exists l, d.
Qed.

Lemma get_value_at_front (pm : PageMaster V) (addr : Addr) key l rest d :
  cache pm = (_addr_to_page addr, l) :: rest -> deref pm l = PyDict d ->
  get_value addr key pm = (pm, Ok (d !! _addr_key addr key)).
Proof.
  intros Hc Hd. unfold get_value. unfold_py.
  rewrite (_get_page_at_front pm addr l rest Hc). unfold page_get. by rewrite Hd.
Qed.

(** A value that was read is read again, and the second read leaves the
    store as it is. *)
Lemma get_value_again (pm pm1 : PageMaster V) (addr : Addr) key v :
  1 <= cache_size pm -> get_value addr key pm = (pm1, Ok (Some v)) ->
  get_value addr key pm1 = (pm1, Ok (Some v)).
Proof.
  intros HC Hg. destruct (get_value_Some_inv _ _ _ _ _ Hg) as (l & d & Hp & Hd & Hv).
  destruct (_get_page_front _ _ _ _ HC Hp) as [rest Hc].
  rewrite (get_value_at_front pm1 addr key l rest d Hc Hd). by rewrite Hv.
Qed.

Lemma set_value_Ok_inv (pm pm1 : PageMaster V) (addr : Addr) key v :
  set_value addr key v pm = (pm1, Ok tt) ->
  readonly pm = false /\
  exists pm' l d, _get_page addr pm = (pm', Ok l) /\ deref pm' l = PyDict d /\
    pm1 = set_heap (<[l := PyDict (<[_addr_key addr key := v]> d)]> (heap pm')) pm'.
Proof.
  unfold set_value. unfold_py. destruct (readonly pm); [done|].
  destruct (_get_page addr pm) as [pm' [l|e]]; [|done].
  unfold page_setitem. destruct (deref pm' l) as [d|] eqn:Hd; [|done].
  intros [= <-]. split; [done|]. by exists pm', l, d.
Qed.

(** A value that was written is read back. *)
Lemma get_after_set (pm pm1 : PageMaster V) (addr : Addr) key v :
  1 <= cache_size pm -> set_value addr key v pm = (pm1, Ok tt) ->
  get_value addr key pm1 = (pm1, Ok (Some v)).
Proof.
  intros HC Hs.
  destruct (set_value_Ok_inv _ _ _ _ _ Hs) as (_ & pm' & l & d & Hp & Hd & ->).
  destruct (_get_page_front _ _ _ _ HC Hp) as [rest Hc].
  erewrite get_value_at_front.
  - by rewrite lookup_insert_eq.
  - exact Hc.
  - unfold deref. simpl. by rewrite lookup_insert_eq.
Qed.

Lemma get_value_keeps (pm : PageMaster V) (addr : Addr) key :
  readonly (get_value addr key pm).1 = readonly pm /\
  cache_size (get_value addr key pm).1 = cache_size pm.
Proof.
  rewrite get_value_state. destruct (_get_page_keeps pm addr) as (? & ? & _). done.
Qed.

Lemma set_value_keeps (pm : PageMaster V) (addr : Addr) key v :
  readonly (set_value addr key v pm).1 = readonly pm /\
  cache_size (set_value addr key v pm).1 = cache_size pm.
Proof.
  unfold set_value. unfold_py. destruct (readonly pm) eqn:Hro; [done|].
  pose proof (_get_page_keeps pm addr) as (Hr & Hs & _).
  destruct (_get_page addr pm) as [pm' [l|e]]; simpl in *; [|by rewrite Hr].
  unfold page_setitem. destruct (deref pm' l); simpl; by rewrite Hr.
Qed.

Lemma set_value_raises (pm pm1 : PageMaster V) (addr : Addr) key v e :
  set_value addr key v pm = (pm1, Raise e) -> pm_error e.
Proof.
  unfold set_value. unfold_py. destruct (readonly pm).
  { intros [= <- <-]. right. by left. }
  destruct (_get_page addr pm) as [pm' [l|e']] eqn:Hp.
  - unfold page_setitem. destruct (deref pm' l); [done|].
    intros [= <- <-]. right. by right.
  - intros [= <- <-]. by eapply _get_page_raises.
Qed.

Lemma set_value_readonly (pm : PageMaster V) (addr : Addr) key v :
  readonly pm = true ->
  set_value addr key v pm = (pm, Raise (PermissionError "Cannot modify a readonly.")).
Proof. intros H. unfold set_value. unfold_py. by rewrite H. Qed.

End ReadBack.

End PageMasterFacts.

Module TableFacts.
Import CellHeader PageMasterFacts.

Ltac unfold_tbl :=
  unfold Table.on_cells, Table.on_cm, zoom;
  unfold mbind, M_bind, bind, mret, M_ret, ret, raise, gets, modify, try_except.

Lemma push_date_None date key ds : (DateSet.push_date date key ds).2 = VNone.
Proof.
  unfold DateSet.push_date.
  destruct (bool_decide _); [done|]. by destruct (decide _).
Qed.

Lemma for_each_cons {S A} (x : A) (xs : list A) (body : A -> M S unit) (s : S) :
  for_each (x :: xs) body s =
  match body x s with
  | (s', Ok _) => for_each xs body s'
  | (s', Raise e) => (s', Raise e)
  end.
Proof. done. Qed.

(** What stays as it is while a table marks cells for refresh. *)
Record same_but_refresh (t t' : Table.Table) : Prop := {
  sbr_prefix : Table.prefix t' = Table.prefix t;
  sbr_readonly : Table.readonly t' = Table.readonly t;
  sbr_cells : Table.cells t' = Table.cells t;
  sbr_cm : Table.cm t' = Table.cm t;
  sbr_ds : Table.ds t' = Table.ds t;
  sbr_calls : Table.key_init_calls t' = Table.key_init_calls t
}.

Lemma mark_all_spec (deps : list CellAddr) (t : Table.Table) :
  exists t', for_each deps (fun dep => modify (Table.mark_refresh dep)) t = (t', Ok tt) /\
    same_but_refresh t t' /\
    forall c, Table.dirty t' c =
              Table.dirty t c ∪ list_to_set (filter (fun a => col a = c) deps).
Proof.
  revert t. induction deps as [|dep deps IH]; intros t.
  - exists t. split_and!; [done|by split|].
    intros c. simpl. by rewrite union_empty_r_L.
  - rewrite for_each_cons.
    change (modify (Table.mark_refresh dep) t) with (Table.mark_refresh dep t, Ok tt).
    cbv iota beta. destruct (IH (Table.mark_refresh dep t))
      as (t' & -> & [H1 H2 H3 H4 H5 H6] & Hd).
    exists t'. split_and!; [done|by split|].
    intros c. rewrite Hd. rewrite filter_cons. unfold Table.dirty at 1. simpl.
    destruct (decide (col dep = c)) as [<-|Hne].
    + rewrite lookup_insert_eq. simpl. unfold Table.dirty.
      by rewrite (union_comm_L {[dep]}), <- union_assoc_L.
    + rewrite lookup_insert_ne by done. done.
Qed.

Definition mark_all (deps : list CellAddr) (t : Table.Table) : Table.Table :=
  foldl (fun t dep => Table.mark_refresh dep t) t deps.

Lemma for_each_mark (deps : list CellAddr) (t : Table.Table) :
  for_each deps (fun dep => modify (Table.mark_refresh dep)) t = (mark_all deps t, Ok tt).
Proof.
  revert t. induction deps as [|dep deps IH]; intros t; [done|].
  rewrite for_each_cons.
  change (modify (Table.mark_refresh dep) t) with (Table.mark_refresh dep t, Ok tt).
  cbv iota beta. by rewrite IH.
Qed.

Lemma mark_all_same (deps : list CellAddr) (t : Table.Table) :
  same_but_refresh t (mark_all deps t).
Proof.
  destruct (mark_all_spec deps t) as (t' & Ht & Hs & _).
  rewrite for_each_mark in Ht. by injection Ht as <-.
Qed.

Lemma mark_all_dirty (deps : list CellAddr) (t : Table.Table) c :
  Table.dirty (mark_all deps t) c =
  Table.dirty t c ∪ list_to_set (filter (fun a => col a = c) deps).
Proof.
  destruct (mark_all_spec deps t) as (t' & Ht & _ & Hd).
  rewrite for_each_mark in Ht. injection Ht as <-. apply Hd.
Qed.

(** [set_cell_value] in one expression. *)
Definition set_cell_value_outcome (a : CellAddr) (k : CellKey) (v : Value)
    (t : Table.Table) : Table.Table * result unit :=
  if Table.readonly t then (t, Raise (PermissionError "Cannot modify a readonly."))
  else
    match dict_get (ColumnManager._columns (Table.cm t)) (col a) with
    | None => (t, Raise (KeyError "Column not found."))
    | Some column =>
        let r := PageMaster.set_value a k v (Table.cells t) in
        let t2 := Table.set_cells r.1
                    (Table.set_ds (DateSet.push_date (date a) k (Table.ds t)).1 t) in
        match r.2 with
        | Raise e => (t2, Raise e)
        | Ok _ =>
            (mark_all (cell_dependencies column a)
               (Table.set_cm (ColumnManager.mark_save_needed (col a) (Table.cm t)) t2),
             Ok tt)
        end
    end.

Lemma set_cell_value_eq a k v t :
  Table.set_cell_value a k v t = set_cell_value_outcome a k v t.
Proof.
  unfold Table.set_cell_value, set_cell_value_outcome. unfold_tbl.
  destruct (Table.readonly t); [done|].
  unfold ColumnManager.__contains__.
  destruct (dict_get (ColumnManager._columns (Table.cm t)) (col a)) as [column|] eqn:Hc.
  2:{ rewrite bool_decide_eq_false_2; [done|]. by intros [? ?]. }
  rewrite bool_decide_eq_true_2 by (by eexists). simpl.
  rewrite push_date_None. simpl.
  destruct (PageMaster.set_value a k v (Table.cells t)) as [pm1 [[]|e]]; [|done].
  simpl. unfold ColumnManager.get_column. unfold_tbl. simpl. rewrite Hc. simpl.
  by rewrite for_each_mark.
Qed.

(** ** Properties of code in [M] that pass through sequencing *)

Section Passing.
Context {S : Type}.

(** [m] keeps the relation [R] between the state before and after. *)
Definition keeps {A} (R : relation S) (m : M S A) : Prop :=
  forall s, R s (m s).1.

(** [m] raises only exceptions in [P]. *)
Definition raises_only {A} (P : exn -> Prop) (m : M S A) : Prop :=
  forall s e, (m s).2 = Raise e -> P e.

(** [m] does the same on states that [E] relates. *)
Definition respects {A} (E : relation S) (m : M S A) : Prop :=
  forall s s', E s s' -> E (m s).1 (m s').1 /\ (m s).2 = (m s').2.

Lemma keeps_bind {A B} (R : relation S) `{!PreOrder R} (m : M S A) (k : A -> M S B) :
  keeps R m -> (forall a, keeps R (k a)) -> keeps R (m ≫= k).
Proof.
  intros Hm Hk s. unfold mbind, M_bind, bind. specialize (Hm s).
  destruct (m s) as [s1 [a|e]]; simpl in *; [|done].
  etrans; [exact Hm|apply Hk].
Qed.

Lemma keeps_ret {A} (R : relation S) `{!PreOrder R} (a : A) : keeps R (mret a).
Proof. intros s. simpl. reflexivity. Qed.

Lemma keeps_raise {A} (R : relation S) `{!PreOrder R} e : keeps R (raise e : M S A).
Proof. intros s. simpl. reflexivity. Qed.

Lemma keeps_gets {A} (R : relation S) `{!PreOrder R} (f : S -> A) : keeps R (gets f).
Proof. intros s. simpl. reflexivity. Qed.

Lemma keeps_modify (R : relation S) (f : S -> S) :
  (forall s, R s (f s)) -> keeps R (modify f).
Proof. intros H s. apply H. Qed.

Lemma keeps_for_each {A} (R : relation S) `{!PreOrder R} (xs : list A)
    (body : A -> M S unit) :
  (forall x, keeps R (body x)) -> keeps R (for_each xs body).
Proof.
  intros Hb. induction xs as [|x xs IH]; intros s; [simpl; reflexivity|].
  rewrite for_each_cons. specialize (Hb x s).
  destruct (body x s) as [s1 [[]|e]]; simpl in *; [|done].
  etrans; [exact Hb|apply IH].
Qed.

Lemma raises_only_bind {A B} (P : exn -> Prop) (m : M S A) (k : A -> M S B) :
  raises_only P m -> (forall a, raises_only P (k a)) -> raises_only P (m ≫= k).
Proof.
  intros Hm Hk s e. unfold mbind, M_bind, bind. specialize (Hm s).
  destruct (m s) as [s1 [a|e1]]; simpl in *; [apply Hk|].
  intros [= <-]. by apply Hm.
Qed.

Lemma raises_only_ret {A} (P : exn -> Prop) (a : A) : raises_only P (mret a : M S A).
Proof. by intros s e. Qed.

Lemma raises_only_gets {A} (P : exn -> Prop) (f : S -> A) : raises_only P (gets f).
Proof. by intros s e. Qed.

Lemma raises_only_modify (P : exn -> Prop) (f : S -> S) : raises_only P (modify f).
Proof. by intros s e. Qed.

Lemma raises_only_raise {A} (P : exn -> Prop) e : P e -> raises_only P (raise e : M S A).
Proof. intros H s e'. simpl. by intros [= <-]. Qed.

Lemma raises_only_for_each {A} (P : exn -> Prop) (xs : list A) (body : A -> M S unit) :
  (forall x, raises_only P (body x)) -> raises_only P (for_each xs body).
Proof.
  intros Hb. induction xs as [|x xs IH]; intros s e; [done|].
  rewrite for_each_cons. specialize (Hb x s).
  destruct (body x s) as [s1 [[]|e1]]; simpl in *; [apply IH|].
  intros [= <-]. by apply Hb.
Qed.

Lemma respects_bind {A B} (E : relation S) (m : M S A) (k : A -> M S B) :
  respects E m -> (forall a, respects E (k a)) -> respects E (m ≫= k).
Proof.
  intros Hm Hk s s' Hs. unfold mbind, M_bind, bind.
  destruct (Hm s s' Hs) as [H1 H2].
  destruct (m s) as [s1 [a|e]], (m s') as [s1' [a'|e']]; simpl in *; simplify_eq.
  - by apply Hk.
  - done.
Qed.

Lemma respects_ret {A} (E : relation S) (a : A) : respects E (mret a).
Proof. by intros s s' Hs. Qed.

Lemma respects_raise {A} (E : relation S) e : respects E (raise e : M S A).
Proof. by intros s s' Hs. Qed.

Lemma respects_gets {A} (E : relation S) (f : S -> A) :
  (forall s s', E s s' -> f s = f s') -> respects E (gets f).
Proof. intros H s s' Hs. simpl. split; [done|]. f_equal. by apply H. Qed.

Lemma respects_modify (E : relation S) (f : S -> S) :
  (forall s s', E s s' -> E (f s) (f s')) -> respects E (modify f).
Proof. intros H s s' Hs. simpl. split; [by apply H|done]. Qed.

Lemma respects_for_each {A} (E : relation S) (xs : list A) (body : A -> M S unit) :
  (forall x, respects E (body x)) -> respects E (for_each xs body).
Proof.
  intros Hb. induction xs as [|x xs IH]; intros s s' Hs; [done|].
  rewrite !for_each_cons. destruct (Hb x s s' Hs) as [H1 H2].
  destruct (body x s) as [s1 [[]|e]], (body x s') as [s1' [[]|e']];
    simpl in *; simplify_eq; [by apply IH|done].
Qed.

End Passing.


(** ** The two halves of [get_cell_value] *)

Definition NOT_AVAILABLE : exn := KeyError "Not available on date.".

Definition gate (a : CellAddr) (assert_available_on : Date)
    (check_date_availability : bool) : M Table.Table bool :=
  if check_date_availability then
    column ← Table.on_cm (ColumnManager.get_column (col a)) ;
    mret (bool_decide (assert_available_on < available_on_date column a))
  else mret false.

Definition NOT_DEFINED : exn := NameError "name 'NoneClass' is not defined".

Definition read_or_init (a : CellAddr) (k : CellKey) : M Table.Table Value :=
  result ← Table.on_cells (PageMaster.get_value a k) ;
  let result := default VNone result in
  if decide (result = VNone) then
    column ← Table.on_cm (ColumnManager.get_column (col a)) ;
    result ← Table.key_init column a k ;
    result ← (if decide (result = VNone) then raise NOT_DEFINED else mret result) ;
    Table.on_cells (PageMaster.set_value a k result) ;;
    mret result
  else mret result.

Lemma get_cell_value_split (a : CellAddr) (k : CellKey) aao chk :
  Table.get_cell_value a k aao chk =
  (unavailable ← gate a aao chk ;
   if unavailable : bool then raise NOT_AVAILABLE else read_or_init a k).
Proof. done. Qed.

(** ** Tables that differ in the columns marked for saving only *)

Record eqv (t t' : Table.Table) : Prop := {
  e_prefix : Table.prefix t = Table.prefix t';
  e_readonly : Table.readonly t = Table.readonly t';
  e_cells : Table.cells t = Table.cells t';
  e_ds : Table.ds t = Table.ds t';
  e_need : Table.need_refresh t = Table.need_refresh t';
  e_calls : Table.key_init_calls t = Table.key_init_calls t';
  e_cm_prefix : ColumnManager.prefix (Table.cm t) = ColumnManager.prefix (Table.cm t');
  e_columns : ColumnManager._columns (Table.cm t) = ColumnManager._columns (Table.cm t');
  e_graph : ColumnManager.dependency_graph (Table.cm t) =
            ColumnManager.dependency_graph (Table.cm t');
  e_order : ColumnManager.refresh_order (Table.cm t) =
            ColumnManager.refresh_order (Table.cm t')
}.

Lemma eqv_refl t : eqv t t.
Proof. by split. Qed.

Lemma eqv_mark k t :
  eqv t (Table.set_cm (ColumnManager.mark_save_needed k (Table.cm t)) t).
Proof. by split. Qed.

Ltac eqv_fields H :=
  destruct H as [?E1 ?E2 ?E3 ?E4 ?E5 ?E6 ?E7 ?E8 ?E9 ?E10].

Lemma respects_on_cells {A} (m : M (PageMaster.PageMaster Value) A) :
  respects eqv (Table.on_cells m).
Proof.
  intros t t' H. eqv_fields H. unfold Table.on_cells, zoom. simpl.
  rewrite <- E3. split; [by split|done].
Qed.

Lemma respects_get_column k : respects eqv (Table.on_cm (ColumnManager.get_column k)).
Proof.
  intros t t' H. eqv_fields H. unfold Table.on_cm, zoom, ColumnManager.get_column.
  unfold_tbl. simpl. rewrite <- E8.
  destruct (dict_get (ColumnManager._columns (Table.cm t)) k); simpl;
    (split; [by split|done]).
Qed.

Lemma respects_mark_refresh dep : respects eqv (modify (Table.mark_refresh dep)).
Proof.
  apply respects_modify. intros t t' H. eqv_fields H.
  split; simpl; try done. unfold Table.mark_refresh. simpl. by rewrite E5.
Qed.

Lemma respects_set_cell_value (a : CellAddr) (k : CellKey) (v : Value) : respects eqv (Table.set_cell_value a k v).
Proof.
  unfold Table.set_cell_value.
  apply respects_bind; [apply respects_gets; by intros ?? []|].
  intros [|]; [apply respects_raise|].
  apply respects_bind.
  { apply respects_gets. intros t t' H. eqv_fields H.
    unfold ColumnManager.__contains__. by rewrite E8. }
  intros [|]; simpl; [|apply respects_raise].
  apply respects_bind.
  { intros t t' H. eqv_fields H. simpl. rewrite <- E4. split; [by split|done]. }
  intros nk. apply respects_bind.
  { destruct (truthy nk); [apply respects_raise|apply respects_ret]. }
  intros _. apply respects_bind; [apply respects_on_cells|].
  intros _. apply respects_bind; [apply respects_get_column|].
  intros column. apply respects_for_each. intros dep. apply respects_mark_refresh.
Qed.

Lemma respects_key_init column (a : CellAddr) (k : CellKey) : respects eqv (Table.key_init column a k).
Proof.
  unfold Table.key_init. apply respects_bind.
  { apply respects_modify. intros t t' H. eqv_fields H.
    split; simpl; try done. by rewrite E6. }
  intros _. destruct (class column); try apply respects_ret.
  apply respects_bind; [apply respects_set_cell_value|].
  intros _. apply respects_ret.
Qed.

Lemma respects_read_or_init (a : CellAddr) (k : CellKey) : respects eqv (read_or_init a k).
Proof.
  unfold read_or_init. apply respects_bind; [apply respects_on_cells|].
  intros r. destruct (decide (default VNone r = VNone)); [|apply respects_ret].
  apply respects_bind; [apply respects_get_column|].
  intros column. apply respects_bind; [apply respects_key_init|].
  intros r'. apply respects_bind.
  { destruct (decide (r' = VNone)); [apply respects_raise|apply respects_ret]. }
  intros r''. apply respects_bind; [apply respects_on_cells|].
  intros _. apply respects_ret.
Qed.

(** ** What reading and writing cells leave as it is *)

Definition stable (t t' : Table.Table) : Prop :=
  Table.readonly t' = Table.readonly t /\
  ColumnManager._columns (Table.cm t') = ColumnManager._columns (Table.cm t) /\
  PageMaster.cache_size (Table.cells t') = PageMaster.cache_size (Table.cells t) /\
  PageMaster.readonly (Table.cells t') = PageMaster.readonly (Table.cells t).

#[local] Instance stable_preorder : PreOrder stable.
Proof.
  split.
  - by intros t.
  - intros t1 t2 t3 (A1 & A2 & A3 & A4) (B1 & B2 & B3 & B4).
    unfold stable. by rewrite B1, B2, B3, B4.
Qed.

Lemma keeps_get_column k : keeps stable (Table.on_cm (ColumnManager.get_column k)).
Proof.
  intros t. unfold Table.on_cm, zoom, ColumnManager.get_column. unfold_tbl. simpl.
  by destruct (dict_get (ColumnManager._columns (Table.cm t)) k).
Qed.

Lemma keeps_cells_get_value (a : CellAddr) (k : CellKey) :
  keeps stable (Table.on_cells (PageMaster.get_value a k)).
Proof.
  intros t. unfold Table.on_cells, zoom. simpl.
  destruct (get_value_keeps (Table.cells t) a k) as [H1 H2]. by split_and!.
Qed.

Lemma keeps_cells_set_value (a : CellAddr) (k : CellKey) (v : Value) :
  keeps stable (Table.on_cells (PageMaster.set_value a k v)).
Proof.
  intros t. unfold Table.on_cells, zoom. simpl.
  destruct (set_value_keeps (Table.cells t) a k v) as [H1 H2]. by split_and!.
Qed.

Lemma keeps_set_cell_value (a : CellAddr) (k : CellKey) (v : Value) : keeps stable (Table.set_cell_value a k v).
Proof.
  unfold Table.set_cell_value.
  apply keeps_bind; [apply _|apply keeps_gets, _|].
  intros [|]; [apply keeps_raise, _|].
  apply keeps_bind; [apply _|apply keeps_gets, _|].
  intros [|]; simpl; [|apply keeps_raise, _].
  apply keeps_bind; [apply _|by intros t|].
  intros nk. apply keeps_bind; [apply _| |].
  { destruct (truthy nk); [apply keeps_raise, _|apply keeps_ret, _]. }
  intros _. apply keeps_bind; [apply _|apply keeps_cells_set_value|].
  intros _. apply keeps_bind; [apply _|apply keeps_get_column|].
  intros column. apply keeps_for_each; [apply _|].
  intros dep. by apply keeps_modify.
Qed.

Lemma keeps_key_init column (a : CellAddr) (k : CellKey) : keeps stable (Table.key_init column a k).
Proof.
  unfold Table.key_init. apply keeps_bind; [apply _|by apply keeps_modify|].
  intros _. destruct (class column); try apply keeps_ret, _.
  apply keeps_bind; [apply _|apply keeps_set_cell_value|].
  intros _. apply keeps_ret, _.
Qed.

Lemma keeps_gate (a : CellAddr) aao chk : keeps stable (gate a aao chk).
Proof.
  unfold gate. destruct chk; [|apply keeps_ret, _].
  apply keeps_bind; [apply _|apply keeps_get_column|].
  intros column. apply keeps_ret, _.
Qed.

(** ** The availability error comes from the gate only *)

Definition other_error (e : exn) : Prop := e <> NOT_AVAILABLE.

Lemma pm_error_other e : pm_error e -> other_error e.
Proof. intros [-> | [-> | ->]]; done. Qed.

Lemma raises_only_cells_set_value (a : CellAddr) (k : CellKey) (v : Value) :
  raises_only other_error (Table.on_cells (PageMaster.set_value a k v)).
Proof.
  intros t e. unfold Table.on_cells, zoom. simpl. intros H.
  apply pm_error_other.
  destruct (PageMaster.set_value a k v (Table.cells t)) as [pm1 r] eqn:Hs.
  simpl in H. subst r. exact (set_value_raises _ _ a k v e Hs).
Qed.

Lemma raises_only_cells_get_value (a : CellAddr) (k : CellKey) :
  raises_only other_error (Table.on_cells (PageMaster.get_value a k)).
Proof.
  intros t e. unfold Table.on_cells, zoom. simpl.
  destruct (get_value_Ok (Table.cells t) a k) as [r ->]. done.
Qed.

Lemma raises_only_get_column k :
  raises_only other_error (Table.on_cm (ColumnManager.get_column k)).
Proof.
  intros t e. unfold Table.on_cm, zoom, ColumnManager.get_column. unfold_tbl. simpl.
  destruct (dict_get (ColumnManager._columns (Table.cm t)) k); simpl; [done|].
  by intros [= <-].
Qed.

Lemma raises_only_set_cell_value (a : CellAddr) (k : CellKey) (v : Value) :
  raises_only other_error (Table.set_cell_value a k v).
Proof.
  unfold Table.set_cell_value.
  apply raises_only_bind; [apply raises_only_gets|].
  intros [|]; [by apply raises_only_raise|].
  apply raises_only_bind; [apply raises_only_gets|].
  intros [|]; simpl; [|by apply raises_only_raise].
  apply raises_only_bind; [by intros t e|].
  intros nk. apply raises_only_bind.
  { destruct (truthy nk); [by apply raises_only_raise|apply raises_only_ret]. }
  intros _. apply raises_only_bind; [apply raises_only_cells_set_value|].
  intros _. apply raises_only_bind; [apply raises_only_get_column|].
  intros column. apply raises_only_for_each. intros dep. apply raises_only_modify.
Qed.

Lemma raises_only_key_init column (a : CellAddr) (k : CellKey) :
  raises_only other_error (Table.key_init column a k).
Proof.
  unfold Table.key_init. apply raises_only_bind; [apply raises_only_modify|].
  intros _. destruct (class column); try apply raises_only_ret.
  apply raises_only_bind; [apply raises_only_set_cell_value|].
  intros _. apply raises_only_ret.
Qed.

Lemma raises_only_read_or_init (a : CellAddr) (k : CellKey) : raises_only other_error (read_or_init a k).
Proof.
  unfold read_or_init. apply raises_only_bind; [apply raises_only_cells_get_value|].
  intros r. destruct (decide (default VNone r = VNone)); [|apply raises_only_ret].
  apply raises_only_bind; [apply raises_only_get_column|].
  intros column. apply raises_only_bind; [apply raises_only_key_init|].
  intros r'. apply raises_only_bind.
  { destruct (decide (r' = VNone)); [by apply raises_only_raise|apply raises_only_ret]. }
  intros r''. apply raises_only_bind; [apply raises_only_cells_set_value|].
  intros _. apply raises_only_ret.
Qed.


(** ** Reading a cell twice *)

Lemma bind_Ok_inv {S A B} (m : M S A) (k : A -> M S B) s s2 b :
  (m ≫= k) s = (s2, Ok b) ->
  exists s1 a, m s = (s1, Ok a) /\ k a s1 = (s2, Ok b).
Proof.
  unfold mbind, M_bind, bind. destruct (m s) as [s1 [a|e]]; [|done].
  intros H. by exists s1, a.
Qed.

Lemma bind_Ok {S A B} (m : M S A) (k : A -> M S B) s s1 a :
  m s = (s1, Ok a) -> (m ≫= k) s = k a s1.
Proof. intros H. unfold mbind, M_bind, bind. by rewrite H. Qed.

Lemma bind_Raise {S A B} (m : M S A) (k : A -> M S B) s s1 e :
  m s = (s1, Raise e) -> (m ≫= k) s = (s1, Raise e).
Proof. intros H. unfold mbind, M_bind, bind. by rewrite H. Qed.

Lemma on_cells_eq {A} (m : M (PageMaster.PageMaster Value) A) t :
  Table.on_cells m t = (Table.set_cells (m (Table.cells t)).1 t, (m (Table.cells t)).2).
Proof. done. Qed.

Lemma set_cell_value_calls (a : CellAddr) (k : CellKey) (v : Value) t :
  Table.key_init_calls (Table.set_cell_value a k v t).1 = Table.key_init_calls t.
Proof.
  rewrite set_cell_value_eq. unfold set_cell_value_outcome.
  destruct (Table.readonly t); [done|].
  destruct (dict_get _ _) as [column|]; [|done].
  destruct (PageMaster.set_value a k v (Table.cells t)) as [pm1 [[]|e]]; simpl; [|done].
  by rewrite (sbr_calls _ _ (mark_all_same _ _)).
Qed.

Lemma key_init_Ok column (a : CellAddr) (k : CellKey) t t' r :
  Table.key_init column a k t = (t', Ok r) ->
  r = VNone /\ Table.key_init_calls t' = (name column, a, k) :: Table.key_init_calls t.
Proof.
  unfold Table.key_init. intros H.
  apply bind_Ok_inv in H as (t1 & [] & H1 & H). injection H1 as <-.
  destruct (class column); try (injection H as <- <-; done).
  apply bind_Ok_inv in H as (t2 & [] & H2 & H). injection H as <- <-.
  split; [done|].
  pose proof (set_cell_value_calls a k const
                (Table.log_key_init (name column, a, k) t)) as Hc.
  by rewrite H2 in Hc.
Qed.

Lemma key_init_calls_any column (a : CellAddr) (k : CellKey) t :
  Table.key_init_calls (Table.key_init column a k t).1 =
  (name column, a, k) :: Table.key_init_calls t.
Proof.
  unfold Table.key_init. unfold mbind, M_bind, bind, modify. simpl.
  destruct (class column); try done.
  pose proof (set_cell_value_calls a k const
                (Table.log_key_init (name column, a, k) t)) as Hc.
  destruct (Table.set_cell_value a k const _) as [t2 [[]|e]]; done.
Qed.

Lemma read_again (a : CellAddr) (k : CellKey) t v :
  1 <= PageMaster.cache_size (Table.cells t) ->
  v <> VNone ->
  (exists pm, PageMaster.get_value a k pm = (Table.cells t, Ok (Some v)) /\
              1 <= PageMaster.cache_size pm) \/
  (exists pm, PageMaster.set_value a k v pm = (Table.cells t, Ok tt) /\
              1 <= PageMaster.cache_size pm) ->
  read_or_init a k t = (t, Ok v).
Proof.
  intros HC Hv Hfrom.
  assert (PageMaster.get_value a k (Table.cells t) = (Table.cells t, Ok (Some v))) as Hg.
  { destruct Hfrom as [(pm & Hg & Hpm)|(pm & Hs & Hpm)].
    - by eapply get_value_again.
    - by eapply get_after_set. }
  unfold read_or_init. erewrite bind_Ok; [|by rewrite on_cells_eq, Hg].
  simpl. rewrite decide_False by done. simpl. by destruct t.
Qed.

(** A read that returns has found the value in the store: the path for a
    cell without a value never returns. *)
Lemma read_or_init_Ok (a : CellAddr) (k : CellKey) t t1 v :
  read_or_init a k t = (t1, Ok v) ->
  v <> VNone /\
  PageMaster.get_value a k (Table.cells t) = (Table.cells t1, Ok (Some v)) /\
  t1 = Table.set_cells (Table.cells t1) t.
Proof.
  intros H. unfold read_or_init in H.
  apply bind_Ok_inv in H as (tb & o & Hget & H).
  rewrite on_cells_eq in Hget. injection Hget as <- Ho.
  destruct (decide (default VNone o = VNone)) as [Hnone|Hsome].
  - exfalso. apply bind_Ok_inv in H as (tc & column & Hcol & H).
    apply bind_Ok_inv in H as (td & r & Hki & H).
    destruct (key_init_Ok _ _ _ _ _ _ Hki) as [-> _].
    apply bind_Ok_inv in H as (te & r2 & Hr & _).
    by rewrite decide_True in Hr by done.
  - injection H as <- <-. destruct o as [v|]; [|done]. simpl in *.
    split_and!; [done| |done].
    destruct (PageMaster.get_value a k (Table.cells t)) as [pm r]. simpl in *.
    by subst r.
Qed.

(** Two reads of a cell in a row: when the first one returns, it has called
    no [key_init], and the second one returns the same value and leaves the
    table as it is. *)
Lemma read_twice (a : CellAddr) (k : CellKey) t t1 v :
  1 <= PageMaster.cache_size (Table.cells t) ->
  read_or_init a k t = (t1, Ok v) ->
  read_or_init a k t1 = (t1, Ok v) /\
  Table.key_init_calls t1 = Table.key_init_calls t.
Proof.
  intros HC H. destruct (read_or_init_Ok _ _ _ _ _ H) as (Hv & Hg & Ht1).
  split; [|by rewrite Ht1].
  apply read_again; [|done|].
  - destruct (get_value_keeps (Table.cells t) a k) as [_ Hs].
    rewrite Hg in Hs. simpl in Hs. lia.
  - left. exists (Table.cells t). by split.
Qed.

(** A read of a cell that holds a value returns it and only moves pages. *)
Lemma read_or_init_hit (a : CellAddr) (k : CellKey) t v :
  (PageMaster.get_value a k (Table.cells t)).2 = Ok (Some v) -> v <> VNone ->
  read_or_init a k t =
  (Table.set_cells (PageMaster.get_value a k (Table.cells t)).1 t, Ok v).
Proof.
  intros Hg Hv. unfold read_or_init.
  erewrite bind_Ok; [|by rewrite on_cells_eq, Hg].
  simpl. by rewrite decide_False by done.
Qed.

(** A read of a cell for which the store has no value: the hook of the
    column runs, and the read raises the [NameError] with nothing stored. *)
Lemma read_or_init_miss (a : CellAddr) (k : CellKey) t column :
  dict_get (ColumnManager._columns (Table.cm t)) (col a) = Some column ->
  (forall const, class column <> ConstColumn const) ->
  (forall v, (PageMaster.get_value a k (Table.cells t)).2 = Ok (Some v) -> v = VNone) ->
  read_or_init a k t =
  (Table.log_key_init (name column, a, k)
     (Table.set_cm (ColumnManager.mark_save_needed (col a) (Table.cm t))
        (Table.set_cells (PageMaster.get_value a k (Table.cells t)).1 t)),
   Raise NOT_DEFINED).
Proof.
  intros Hreg Hclass Hnone. unfold read_or_init.
  destruct (get_value_Ok (Table.cells t) a k) as [o Ho].
  erewrite bind_Ok; [|by rewrite on_cells_eq, Ho].
  rewrite decide_True.
  2:{ destruct o as [v|]; [|done]. simpl. by apply Hnone. }
  unfold Table.on_cm, zoom, ColumnManager.get_column, Table.key_init. unfold_tbl.
  simpl. rewrite Hreg. simpl.
  destruct (class column) eqn:Hc; try done. by destruct (Hclass const).
Qed.


Lemma keeps_read_or_init (a : CellAddr) (k : CellKey) : keeps stable (read_or_init a k).
Proof.
  unfold read_or_init. apply keeps_bind; [apply _|apply keeps_cells_get_value|].
  intros r. destruct (decide (default VNone r = VNone)); [|apply keeps_ret, _].
  apply keeps_bind; [apply _|apply keeps_get_column|].
  intros column. apply keeps_bind; [apply _|apply keeps_key_init|].
  intros r'. apply keeps_bind; [apply _| |].
  { destruct (decide (r' = VNone)); [apply keeps_raise, _|apply keeps_ret, _]. }
  intros r''. apply keeps_bind; [apply _|apply keeps_cells_set_value|].
  intros _. apply keeps_ret, _.
Qed.

Definition gate_result (a : CellAddr) (aao : Date) (chk : bool) (t : Table.Table)
    : result bool :=
  if chk then
    match dict_get (ColumnManager._columns (Table.cm t)) (col a) with
    | Some column => Ok (bool_decide (aao < available_on_date column a))
    | None => Raise (DictKeyError (col a))
    end
  else Ok false.

Lemma gate_eq (a : CellAddr) aao chk t :
  gate a aao chk t =
  (if chk then Table.set_cm (ColumnManager.mark_save_needed (col a) (Table.cm t)) t
   else t, gate_result a aao chk t).
Proof.
  unfold gate, gate_result. destruct chk; [|done].
  unfold Table.on_cm, zoom, ColumnManager.get_column. unfold_tbl. simpl.
  by destruct (dict_get _ _).
Qed.

Lemma gate_eqv (a : CellAddr) aao chk t : eqv t (gate a aao chk t).1.
Proof. rewrite gate_eq. destruct chk; [apply eqv_mark|apply eqv_refl]. Qed.

(** The gate lets a read pass when the check is off, or the column is
    registered and the cell is available. *)
Lemma gate_passes (a : CellAddr) aao chk t column :
  dict_get (ColumnManager._columns (Table.cm t)) (col a) = Some column ->
  (chk = true -> available_on_date column a <= aao) ->
  gate_result a aao chk t = Ok false.
Proof.
  intros Hreg Hle. unfold gate_result. destruct chk; [|done].
  rewrite Hreg. by rewrite bool_decide_eq_false_2 by (specialize (Hle eq_refl); lia).
Qed.

(** A read that returns has found the value in the store and called no
    [key_init]; the same read right after it returns the same value and
    calls none either. *)
Lemma get_cell_value_again (a : CellAddr) (k : CellKey) aao chk t t1 v :
  1 <= PageMaster.cache_size (Table.cells t) ->
  Table.get_cell_value a k aao chk t = (t1, Ok v) ->
  v <> VNone /\
  (PageMaster.get_value a k (Table.cells t)).2 = Ok (Some v) /\
  Table.key_init_calls t1 = Table.key_init_calls t /\
  exists t2, Table.get_cell_value a k aao chk t1 = (t2, Ok v) /\
             Table.key_init_calls t2 = Table.key_init_calls t1.
Proof.
  intros HC H. rewrite get_cell_value_split in H.
  apply bind_Ok_inv in H as (ta & b & Hgate & H).
  destruct b; [done|].
  pose proof (keeps_gate a aao chk t) as Hst. rewrite Hgate in Hst. simpl in Hst.
  pose proof (gate_eqv a aao chk t) as Heq. rewrite Hgate in Heq. simpl in Heq.
  pose proof (keeps_read_or_init a k ta) as Hst'. rewrite H in Hst'. simpl in Hst'.
  assert (1 <= PageMaster.cache_size (Table.cells ta)) as HCa.
  { destruct Hst as (_ & _ & -> & _). done. }
  destruct (read_twice a k ta t1 v HCa H) as [Hagain Hcalls].
  destruct (read_or_init_Ok a k ta t1 v H) as (Hv & Hg & _).
  split_and!; [done| | |].
  - rewrite (e_cells _ _ Heq). by rewrite Hg.
  - by rewrite Hcalls, <- (e_calls _ _ Heq).
  - rewrite get_cell_value_split.
    assert (gate_result a aao chk t1 = Ok false) as Hres.
    { rewrite gate_eq in Hgate. injection Hgate as _ Hr. rewrite <- Hr.
      unfold gate_result. destruct Hst as (_ & Hc & _), Hst' as (_ & Hc' & _).
      by rewrite Hc', Hc. }
    erewrite bind_Ok; [|by rewrite gate_eq, Hres].
    pose proof (gate_eqv a aao chk t1) as Heq1. rewrite gate_eq in Heq1.
    simpl in Heq1.
    set (t1a := if chk
                then Table.set_cm
                       (ColumnManager.mark_save_needed (col a) (Table.cm t1)) t1
                else t1) in *.
    destruct (respects_read_or_init a k t1 t1a Heq1) as [He Hr].
    rewrite Hagain in He, Hr. simpl in He, Hr.
    destruct (read_or_init a k t1a) as [t2 r] eqn:Hread. simpl in *.
    rewrite <- Hr. exists t2. split; [done|]. symmetry. apply (e_calls _ _ He).
Qed.

(** A read that passes the gate and finds a value in the store returns it,
    calls no [key_init] and writes nothing. *)
Lemma get_cell_value_hit (a : CellAddr) (k : CellKey) aao chk t v :
  gate_result a aao chk t = Ok false ->
  (PageMaster.get_value a k (Table.cells t)).2 = Ok (Some v) -> v <> VNone ->
  let r := Table.get_cell_value a k aao chk t in
  r.2 = Ok v /\
  Table.key_init_calls r.1 = Table.key_init_calls t /\
  Table.cells r.1 = (PageMaster.get_value a k (Table.cells t)).1 /\
  Table.ds r.1 = Table.ds t /\ Table.need_refresh r.1 = Table.need_refresh t.
Proof.
  intros Hgate Hg Hv r. unfold r. rewrite get_cell_value_split.
  erewrite bind_Ok; [|by rewrite gate_eq, Hgate].
  cbv iota. rewrite (read_or_init_hit a k _ v); [|by destruct chk|done].
  by destruct chk.
Qed.

(** A read that passes the gate and finds no value in the store: the hook
    of the column runs, the read raises the [NameError], and nothing is
    stored. *)
Lemma get_cell_value_miss (a : CellAddr) (k : CellKey) aao chk t column :
  dict_get (ColumnManager._columns (Table.cm t)) (col a) = Some column ->
  (forall const, class column <> ConstColumn const) ->
  (forall v, (PageMaster.get_value a k (Table.cells t)).2 = Ok (Some v) -> v = VNone) ->
  gate_result a aao chk t = Ok false ->
  let r := Table.get_cell_value a k aao chk t in
  r.2 = Raise NOT_DEFINED /\
  Table.key_init_calls r.1 = (name column, a, k) :: Table.key_init_calls t /\
  Table.cells r.1 = (PageMaster.get_value a k (Table.cells t)).1 /\
  Table.ds r.1 = Table.ds t /\ Table.need_refresh r.1 = Table.need_refresh t.
Proof.
  intros Hreg Hclass Hnone Hgate r. unfold r. rewrite get_cell_value_split.
  erewrite bind_Ok; [|by rewrite gate_eq, Hgate].
  cbv iota. rewrite (read_or_init_miss a k _ column); [by destruct chk|..].
  - by destruct chk.
  - done.
  - by destruct chk.
Qed.

(** ** Writing a cell marks the dependents of its column, and nothing else *)

Lemma filter_col_dependencies column (a : CellAddr) (c : ColumnName) :
  (list_to_set (filter (fun x => col x = c) (cell_dependencies column a))
     : gset CellAddr) =
  if decide (c ∈ dependencies column) then {[mkCellAddr (date a) c]} else ∅.
Proof.
  unfold cell_dependencies. apply set_eq. intros x.
  rewrite elem_of_list_to_set, list_elem_of_filter, list_elem_of_fmap.
  split.
  - intros (Hc & y & -> & Hy). apply elem_of_elements in Hy. simpl in Hc. subst y.
    rewrite decide_True by done. by apply elem_of_singleton.
  - case_decide as Hin; [|by intros ?%elem_of_empty].
    intros ->%elem_of_singleton. split; [done|]. exists c. split; [done|].
    by apply elem_of_elements.
Qed.

Lemma set_cell_value_dirty (a : CellAddr) (k : CellKey) (v : Value) t t' :
  Table.set_cell_value a k v t = (t', Ok tt) ->
  exists column,
    dict_get (ColumnManager._columns (Table.cm t)) (col a) = Some column /\
    forall c, Table.dirty t' c =
      Table.dirty t c ∪
      (if decide (c ∈ dependencies column) then {[mkCellAddr (date a) c]} else ∅).
Proof.
  rewrite set_cell_value_eq. unfold set_cell_value_outcome.
  destruct (Table.readonly t); [done|].
  destruct (dict_get _ _) as [column|]; [|done].
  destruct (PageMaster.set_value a k v (Table.cells t)) as [pm1 [[]|e]]; simpl; [|done].
  intros [= <-]. exists column. split; [done|]. intros c.
  by rewrite mark_all_dirty, filter_col_dependencies.
Qed.

End TableFacts.

Module DateSetFacts.
Import CellHeader DateSet.

(** An ordered list of dates without repetition. *)
Definition increasing (l : list Date) : Prop :=
  forall (i j : nat) x y, (i < j)%nat -> l !! i = Some x -> l !! j = Some y -> x < y.

Lemma increasing_sorted (l : list Date) : StronglySorted Z.lt l -> increasing l.
Proof.
  induction 1 as [|a l Hs IH Hall]; intros i j x y Hij Hi Hj.
  - by rewrite lookup_nil in Hi.
  - destruct j as [|j]; [lia|]. simpl in Hj. destruct i as [|i]; simpl in Hi.
    + injection Hi as ->. rewrite Forall_forall in Hall. apply Hall.
      by eapply list_elem_of_lookup_2.
    + eapply (IH i j); [lia|done|done].
Qed.

Lemma bisect_S (width : nat) (dates : list Date) (date : Date) (st en : nat) :
  bisect (S width) dates date st en =
  if decide (st = en) then st
  else
    match dates !! ((st + en) `div` 2)%nat with
    | Some d =>
        if decide (d > date) then bisect width dates date st ((st + en) `div` 2)%nat
        else bisect width dates date ((st + en) `div` 2 + 1)%nat en
    | None => st
    end.
Proof. done. Qed.

Lemma bisect_spec (dates : list Date) (date : Date) :
  increasing dates ->
  forall (width st en : nat),
    (st <= en <= length dates)%nat -> (en - st <= width)%nat ->
    (forall (j : nat) x, (j < st)%nat -> dates !! j = Some x -> x <= date) ->
    (forall (j : nat) x, (en <= j)%nat -> dates !! j = Some x -> date < x) ->
    (st <= bisect width dates date st en <= en)%nat /\
    (forall (j : nat) x, (j < bisect width dates date st en)%nat ->
       dates !! j = Some x -> x <= date) /\
    (forall (j : nat) x, (bisect width dates date st en <= j)%nat ->
       dates !! j = Some x -> date < x).
Proof.
  intros Hinc. induction width as [|width IH]; intros st en Hrange Hw Hlow Hhigh.
  - assert (st = en) as -> by lia. simpl. rewrite decide_True by done.
    split_and!; [lia|lia|done|done].
  - rewrite bisect_S.
    destruct (decide (st = en)) as [->|Hne]; [split_and!; [lia|lia|done|done]|].
    set (m := ((st + en) `div` 2)%nat).
    assert (st <= m < en)%nat as Hm.
    { unfold m. split.
      - apply Nat.div_le_lower_bound; lia.
      - apply Nat.Div0.div_lt_upper_bound; lia. }
    destruct (lookup_lt_is_Some_2 dates m) as [d Hd]; [lia|]. rewrite Hd.
    destruct (decide (d > date)) as [Hgt|Hle].
    + destruct (IH st m) as (H1 & H2 & H3); [lia|lia|done| |].
      * intros j x Hj Hx. destruct (decide (j = m)) as [->|Hjm].
        -- rewrite Hd in Hx. injection Hx as <-. lia.
        -- pose proof (Hinc m j d x ltac:(lia) Hd Hx). lia.
      * split_and!; [lia|lia|done|done].
    + destruct (IH (m + 1)%nat en) as (H1 & H2 & H3); [lia|lia| |done|].
      * intros j x Hj Hx. destruct (decide (j = m)) as [->|Hjm].
        -- rewrite Hd in Hx. injection Hx as <-. lia.
        -- pose proof (Hinc j m x d ltac:(lia) Hx Hd). lia.
      * split_and!; [lia|lia|done|done].
Qed.

(** On an ordered list the search finds the number of dates that are not
    after [date]: the index of the first date after it. *)
Lemma smallest_ind_gt_date_spec (ds : DateSet) (date : Date) :
  increasing (dates ds) ->
  (smallest_ind_gt_date ds date <= length (dates ds))%nat /\
  (forall (j : nat) x, (j < smallest_ind_gt_date ds date)%nat ->
     dates ds !! j = Some x -> x <= date) /\
  (forall (j : nat) x, (smallest_ind_gt_date ds date <= j)%nat ->
     dates ds !! j = Some x -> date < x).
Proof.
  intros Hinc. unfold smallest_ind_gt_date.
  destruct (bisect_spec (dates ds) date Hinc (length (dates ds)) 0 (length (dates ds)))
    as (H1 & H2 & H3); [lia|lia| | |].
  - intros j x Hj. lia.
  - intros j x Hj Hx. apply lookup_lt_Some in Hx. lia.
  - split_and!; [lia|done|done].
Qed.

Lemma foldr_min_spec (d : Z) (l : list Z) :
  foldr Z.min d l ∈ d :: l /\ forall x, x ∈ d :: l -> foldr Z.min d l <= x.
Proof.
  induction l as [|y l [IH1 IH2]]; simpl.
  - split; [by left|]. intros x ->%list_elem_of_singleton. lia.
  - split.
    + destruct (Z.min_spec y (foldr Z.min d l)) as [[_ ->]|[_ ->]].
      * right. by left.
      * apply elem_of_cons in IH1 as [->|IH1]; [by left|]. right. by right.
    + intros x Hx. apply elem_of_cons in Hx as [->|Hx].
      * specialize (IH2 d ltac:(by left)). lia.
      * apply elem_of_cons in Hx as [->|Hx]; [lia|].
        specialize (IH2 x ltac:(by right)). lia.
Qed.

End DateSetFacts.

Module WaterfallFacts.
Import CellHeader SnapshotMaster Waterfall DateSetFacts.

Definition MISSING_SNAPSHOT : exn :=
  LookupError "Couldn't load snapshot that is expected to exist.".

(** What [refresh_start] returns, given the earliest marked date. *)
Definition start_from (w : Waterfall) (min_date : Date) : result (Date * Snapshot) :=
  let first_snapshot_ind :=
    Z.of_nat (DateSet.smallest_ind_gt_date (snapshot_dates w) min_date) - 1 in
  if decide (first_snapshot_ind = -1) then Ok (date_to_snapshot_date w min_date, ∅)
  else
    match py_index (DateSet.dates (snapshot_dates w)) first_snapshot_ind with
    | None => Raise (IndexError "list index out of range")
    | Some first_snapshot_date =>
        match (get_date_value first_snapshot_date (snapshot_master w)).2 with
        | Ok (Some working_snapshot) => Ok (first_snapshot_date, working_snapshot)
        | Ok None => Raise MISSING_SNAPSHOT
        | Raise e => Raise e
        end
    end.

Lemma refresh_start_from (e : Env) d ds :
  date <$> elements (Table.dirty (table e) (name (self e))) = d :: ds ->
  (refresh_start e).2 = start_from (self e) (foldr Z.min d ds).
Proof.
  intros Hel. unfold refresh_start, start_from.
  unfold on_table, on_snapshot_master, zoom, Table.need_refresh_get.
  unfold mbind, M_bind, bind, mret, M_ret, ret, raise, gets, modify. simpl.
  assert (Table.dirty
            match Table.need_refresh (table e) !! name (self e) with
            | Some _ => table e
            | None =>
                Table.set_need_refresh
                  (<[name (self e) := ∅]> (Table.need_refresh (table e))) (table e)
            end (name (self e)) = Table.dirty (table e) (name (self e))) as ->.
  { unfold Table.dirty.
    destruct (Table.need_refresh (table e) !! name (self e)) eqn:E; [by rewrite E|].
    simpl. by rewrite lookup_insert_eq. }
  rewrite Hel.
  destruct (decide (_ = -1)); [done|].
  destruct (py_index _ _) as [fsd|]; [|done].
  simpl.
  destruct (get_date_value fsd (snapshot_master (self e))) as [pm [[s|]|ex]]; done.
Qed.

Lemma start_from_none (w : Waterfall) (min_date : Date) :
  increasing (DateSet.dates (snapshot_dates w)) ->
  (forall d, d ∈ DateSet.dates (snapshot_dates w) -> min_date < d) ->
  start_from w min_date = Ok (date_to_snapshot_date w min_date, ∅).
Proof.
  intros Hinc Hnone. unfold start_from.
  destruct (smallest_ind_gt_date_spec (snapshot_dates w) min_date Hinc)
    as (Hlen & Hlow & _).
  destruct (DateSet.smallest_ind_gt_date (snapshot_dates w) min_date) as [|i] eqn:Hi.
  { by rewrite decide_True by lia. }
  destruct (lookup_lt_is_Some_2 (DateSet.dates (snapshot_dates w)) i) as [x Hx]; [lia|].
  specialize (Hlow i x ltac:(lia) Hx).
  specialize (Hnone x ltac:(by eapply list_elem_of_lookup_2)). lia.
Qed.

Lemma start_from_latest (w : Waterfall) (min_date S : Date) :
  increasing (DateSet.dates (snapshot_dates w)) ->
  S ∈ DateSet.dates (snapshot_dates w) -> S <= min_date ->
  (forall d, d ∈ DateSet.dates (snapshot_dates w) -> d <= min_date -> d <= S) ->
  start_from w min_date =
  match (get_date_value S (snapshot_master w)).2 with
  | Ok (Some working_snapshot) => Ok (S, working_snapshot)
  | _ => Raise MISSING_SNAPSHOT
  end.
Proof.
  intros Hinc HS Hle Hmax. unfold start_from.
  destruct (smallest_ind_gt_date_spec (snapshot_dates w) min_date Hinc)
    as (Hlen & Hlow & Hhigh).
  apply list_elem_of_lookup in HS as [jS HjS].
  set (i := DateSet.smallest_ind_gt_date (snapshot_dates w) min_date) in *.
  assert (jS < i)%nat as Hlt.
  { destruct (decide (jS < i)%nat); [done|].
    specialize (Hhigh jS S ltac:(lia) HjS). lia. }
  rewrite decide_False by lia.
  destruct (lookup_lt_is_Some_2 (DateSet.dates (snapshot_dates w)) (i - 1))
    as [x Hx]; [lia|].
  assert (x = S) as ->.
  { pose proof (Hlow (i - 1)%nat x ltac:(lia) Hx) as Hxle.
    pose proof (Hmax x ltac:(by eapply list_elem_of_lookup_2) Hxle) as HxS.
    destruct (decide (jS = (i - 1)%nat)) as [->|Hne]; [congruence|].
    pose proof (Hinc jS (i - 1)%nat S x ltac:(lia) HjS Hx). lia. }
  unfold py_index. rewrite (proj2 (Z.leb_le _ _)) by lia.
  replace (Z.to_nat (Z.of_nat i - 1)) with (i - 1)%nat by lia. rewrite Hx.
  destruct (PageMasterFacts.get_value_Ok (snapshot_master w) S SNAPSHOT_KEY)
    as [r Hr].
  unfold get_date_value. rewrite Hr. by destruct r.
Qed.

Lemma earliest_marked (s : gset CellAddr) :
  s <> ∅ ->
  exists d ds, date <$> elements s = d :: ds /\
    (exists a, a ∈ s /\ date a = foldr Z.min d ds) /\
    (forall a, a ∈ s -> foldr Z.min d ds <= date a).
Proof.
  intros Hne. destruct (date <$> elements s) as [|d ds] eqn:E.
  { apply fmap_nil_inv in E. by apply elements_empty_inv, leibniz_equiv in E. }
  exists d, ds. split; [done|]. destruct (foldr_min_spec d ds) as [Hin Hmin].
  rewrite <- E in Hin, Hmin. split.
  - apply list_elem_of_fmap in Hin as (a & Ha & Hin). exists a.
    split; [by apply elem_of_elements|done].
  - intros a Ha. apply Hmin. apply list_elem_of_fmap. exists a.
    split; [done|by apply elem_of_elements].
Qed.

End WaterfallFacts.

(** ** Dicts as lists of items *)

Module DictFacts.

Section Dict.
Context {A : Type}.
Implicit Types d : list (string * A).

Lemma dict_get_set_eq d k v : dict_get (dict_set d k v) k = Some v.
Proof.
  induction d as [|[k' v'] d IH]; simpl.
  - by rewrite decide_True.
  - destruct (decide (k' = k)) as [->|Hne]; simpl.
    + by rewrite decide_True.
    + by rewrite decide_False.
Qed.

Lemma dict_get_set_ne d k k' v : k <> k' -> dict_get (dict_set d k v) k' = dict_get d k'.
Proof.
  intros Hne. induction d as [|[k0 v0] d IH]; simpl.
  - by rewrite decide_False.
  - destruct (decide (k0 = k)) as [->|Hne0]; simpl.
    + by rewrite !decide_False.
    + by rewrite IH.
Qed.

Lemma dict_get_None d k : dict_get d k = None <-> k ∉ d.*1.
Proof.
  induction d as [|[k' v'] d IH]; simpl.
  - split; [intros _; apply not_elem_of_nil|done].
  - rewrite not_elem_of_cons. destruct (decide (k' = k)) as [->|Hne].
    + split; [done|]. by intros [? _].
    + rewrite IH. split; [by split|by intros [_ ?]].
Qed.

Lemma dict_get_Some_elem d k v : dict_get d k = Some v -> (k, v) ∈ d.
Proof.
  induction d as [|[k' v'] d IH]; simpl; [done|].
  destruct (decide (k' = k)) as [->|Hne].
  - intros [= ->]. by left.
  - intros H. right. by apply IH.
Qed.

Lemma dict_get_elem d k v : NoDup d.*1 -> (k, v) ∈ d -> dict_get d k = Some v.
Proof.
  induction d as [|[k' v'] d IH]; simpl; intros Hnd Hel.
  - by apply elem_of_nil in Hel.
  - apply NoDup_cons in Hnd as [Hk Hnd]. apply elem_of_cons in Hel as [[= -> ->]|Hel].
    + by rewrite decide_True.
    + rewrite decide_False; [by apply IH|]. intros ->. apply Hk.
      apply list_elem_of_fmap. by exists (k, v).
Qed.

(** Assigning to a key that is there keeps the keys; a new key goes to the
    end. *)
Lemma dict_set_keys d k v :
  (dict_set d k v).*1 = if decide (k ∈ d.*1) then d.*1 else d.*1 ++ [k].
Proof.
  induction d as [|[k' v'] d IH].
  - destruct (decide (k ∈ ([] : list (string * A)).*1)) as [H|H]; [|done].
    by apply elem_of_nil in H.
  - cbn [dict_set]. destruct (decide (k' = k)) as [->|Hne].
    + destruct (decide (k ∈ ((k, v') :: d).*1)) as [H|H]; [done|].
      exfalso. apply H. by left.
    + rewrite fmap_cons, IH. cbn [fst].
      destruct (decide (k ∈ d.*1)) as [Hin|Hout];
        destruct (decide (k ∈ ((k', v') :: d).*1)) as [H|H]; try done.
      * exfalso. apply H. by right.
      * exfalso. rewrite fmap_cons in H. apply elem_of_cons in H as [H|H]; [by subst|done].
Qed.

Lemma dict_set_new d k v : k ∉ d.*1 -> dict_set d k v = d ++ [(k, v)].
Proof.
  induction d as [|[k' v'] d IH]; simpl; [done|].
  rewrite not_elem_of_cons. intros [Hne Hout].
  rewrite decide_False by done. by rewrite IH.
Qed.

Lemma dict_set_elem_keys d k v k' : k' ∈ (dict_set d k v).*1 <-> k' = k \/ k' ∈ d.*1.
Proof.
  rewrite dict_set_keys. destruct (decide (k ∈ d.*1)) as [Hin|Hout].
  - split; [by right|]. by intros [->|?].
  - rewrite elem_of_app, list_elem_of_singleton. tauto.
Qed.

Lemma dict_set_NoDup d k v : NoDup d.*1 -> NoDup (dict_set d k v).*1.
Proof.
  intros Hnd. rewrite dict_set_keys. destruct (decide (k ∈ d.*1)) as [Hin|Hout]; [done|].
  apply NoDup_app. split_and!; [done| |apply NoDup_singleton].
  intros x Hx ->%list_elem_of_singleton. done.
Qed.

End Dict.

Lemma dict_get_perm {A} (d d' : list (string * A)) (k : string) :
  NoDup d.*1 -> d ≡ₚ d' -> dict_get d' k = dict_get d k.
Proof.
  intros Hnd Hperm.
  assert (NoDup d'.*1) as Hnd' by (by rewrite <- Hperm).
  destruct (dict_get d k) as [v|] eqn:Hget.
  - apply dict_get_elem; [done|]. rewrite <- Hperm. by apply dict_get_Some_elem.
  - apply dict_get_None. rewrite <- Hperm. by apply dict_get_None.
Qed.

End DictFacts.

(** ** helpers/date_set.py *)

Module DateSetMore.
Import DateSet DateSetFacts.

(** The dates between two optional bounds, both inclusive. *)
Definition not_before (st_date : option Date) (d : Date) : Prop :=
  match st_date with Some st => st <= d | None => True end.

Definition not_after (en_date : option Date) (d : Date) : Prop :=
  match en_date with Some en => d <= en | None => True end.

Definition between (st_date en_date : option Date) (d : Date) : Prop :=
  not_before st_date d /\ not_after en_date d.

#[global] Instance not_before_dec st_date d : Decision (not_before st_date d).
Proof. destruct st_date; simpl; apply _. Defined.

#[global] Instance not_after_dec en_date d : Decision (not_after en_date d).
Proof. destruct en_date; simpl; apply _. Defined.

#[global] Instance between_dec st_date en_date d : Decision (between st_date en_date d).
Proof. unfold between. apply _. Defined.

(** The list of dates and the keys of [dates_keys] hold the same dates, and
    the list is ordered. *)
Definition consistent (ds : DateSet) : Prop :=
  increasing (dates ds) /\
  forall d, d ∈ dates ds <-> is_Some (dates_keys ds !! d).

Lemma increasing_nil : increasing [].
Proof. intros i j x y _ H. by rewrite lookup_nil in H. Qed.

Lemma increasing_cons_inv (a : Date) (l : list Date) :
  increasing (a :: l) -> increasing l /\ Forall (fun x => a < x) l.
Proof.
  intros H. split.
  - intros i j x y Hij Hi Hj. apply (H (S i) (S j)); [lia|done|done].
  - apply Forall_lookup. intros i x Hx. apply (H 0%nat (S i)); [lia|done|done].
Qed.

Lemma increasing_cons (a : Date) (l : list Date) :
  increasing l -> Forall (fun x => a < x) l -> increasing (a :: l).
Proof.
  intros Hl Ha i j x y Hij Hi Hj. destruct j as [|j]; [lia|]. simpl in Hj.
  destruct i as [|i]; simpl in Hi.
  - injection Hi as <-. rewrite Forall_lookup in Ha. by eapply Ha.
  - apply (Hl i j); [lia|done|done].
Qed.

Lemma increasing_NoDup (l : list Date) : increasing l -> NoDup l.
Proof.
  intros H. apply NoDup_alt. intros i j x Hi Hj.
  destruct (Nat.lt_trichotomy i j) as [Hlt|[->|Hlt]]; [|done|].
  - pose proof (H i j x x Hlt Hi Hj). lia.
  - pose proof (H j i x x Hlt Hj Hi). lia.
Qed.

(** Splitting an ordered list at an index that separates a predicate. *)
Lemma filter_split (P : Date -> Prop) `{!forall d, Decision (P d)} (l : list Date) (i : nat) :
  (forall (j : nat) x, (j < i)%nat -> l !! j = Some x -> P x) ->
  (forall (j : nat) x, (i <= j)%nat -> l !! j = Some x -> ~ P x) ->
  filter P l = take i l.
Proof.
  revert i. induction l as [|a l IH]; intros i Hlow Hhigh.
  - by rewrite take_nil.
  - destruct i as [|i].
    + rewrite filter_cons_False by (apply (Hhigh 0%nat); [lia|done]).
      rewrite (IH 0%nat); [by rewrite take_0|intros; lia|].
      intros j x _ Hx. apply (Hhigh (S j)); [lia|done].
    + rewrite filter_cons_True by (apply (Hlow 0%nat); [lia|done]).
      simpl. f_equal. apply IH.
      * intros j x Hj Hx. apply (Hlow (S j)); [lia|done].
      * intros j x Hj Hx. apply (Hhigh (S j)); [lia|done].
Qed.

Lemma filter_split_drop (P : Date -> Prop) `{!forall d, Decision (P d)}
    (l : list Date) (i : nat) :
  (forall (j : nat) x, (j < i)%nat -> l !! j = Some x -> ~ P x) ->
  (forall (j : nat) x, (i <= j)%nat -> l !! j = Some x -> P x) ->
  filter P l = drop i l.
Proof.
  revert i. induction l as [|a l IH]; intros i Hlow Hhigh.
  - by rewrite drop_nil.
  - destruct i as [|i].
    + rewrite filter_cons_True by (apply (Hhigh 0%nat); [lia|done]).
      rewrite drop_0. f_equal. rewrite (IH 0%nat); [by rewrite drop_0|intros; lia|].
      intros j x _ Hx. apply (Hhigh (S j)); [lia|done].
    + rewrite filter_cons_False by (apply (Hlow 0%nat); [lia|done]).
      simpl. apply IH.
      * intros j x Hj Hx. apply (Hlow (S j)); [lia|done].
      * intros j x Hj Hx. apply (Hhigh (S j)); [lia|done].
Qed.

(** The index at which [slice] starts: the number of dates before
    [st_date]. *)
Definition st_ind (ds : DateSet) (st_date : Date) : nat :=
  let i := smallest_ind_gt_date ds st_date in
  if decide ((0 < i)%nat /\ dates ds !! (i - 1)%nat = Some st_date)
  then (i - 1)%nat else i.

Lemma st_ind_spec (ds : DateSet) (st_date : Date) :
  increasing (dates ds) ->
  (forall (j : nat) x, (j < st_ind ds st_date)%nat -> dates ds !! j = Some x -> x < st_date) /\
  (forall (j : nat) x, (st_ind ds st_date <= j)%nat -> dates ds !! j = Some x -> st_date <= x).
Proof.
  intros Hinc. destruct (smallest_ind_gt_date_spec ds st_date Hinc) as (Hlen & Hlow & Hhigh).
  unfold st_ind. set (i := smallest_ind_gt_date ds st_date) in *.
  destruct (decide _) as [[Hpos Heq]|Hno].
  - split.
    + intros j x Hj Hx. apply (Hinc j (i - 1)%nat); [lia|done|done].
    + intros j x Hj Hx. destruct (decide (j = (i - 1)%nat)) as [->|Hne].
      * rewrite Heq in Hx. injection Hx as <-. lia.
      * pose proof (Hhigh j x ltac:(lia) Hx). lia.
  - split.
    + intros j x Hj Hx. pose proof (Hlow j x Hj Hx) as Hle.
      destruct (decide (x = st_date)) as [->|Hne]; [|lia].
      exfalso. apply Hno. split; [lia|].
      destruct (decide (j = (i - 1)%nat)) as [->|Hji]; [done|].
      destruct (lookup_lt_is_Some_2 (dates ds) (i - 1)%nat) as [y Hy]; [lia|].
      pose proof (Hinc j (i - 1)%nat st_date y ltac:(lia) Hx Hy).
      pose proof (Hlow (i - 1)%nat y ltac:(lia) Hy). lia.
    + intros j x Hj Hx. pose proof (Hhigh j x Hj Hx). lia.
Qed.

Lemma slice_filter (ds : DateSet) (st_date en_date : option Date) :
  increasing (dates ds) ->
  slice ds st_date en_date = filter (between st_date en_date) (dates ds).
Proof.
  intros Hinc. unfold slice.
  destruct (decide (length (dates ds) = 0%nat)) as [Hz|Hnz].
  { apply nil_length_inv in Hz. by rewrite Hz. }
  set (a := match st_date with
            | None => 0%nat
            | Some st => st_ind ds st
            end).
  set (b := match en_date with
            | None => length (dates ds)
            | Some en => smallest_ind_gt_date ds en
            end).
  assert ((forall (j : nat) x, (j < a)%nat -> dates ds !! j = Some x ->
             ~ not_before st_date x) /\
          (forall (j : nat) x, (a <= j)%nat -> dates ds !! j = Some x ->
             not_before st_date x)) as [Ha1 Ha2].
  { unfold a. destruct st_date as [st|]; simpl.
    - destruct (st_ind_spec ds st Hinc) as [H1 H2]. split.
      + intros j x Hj Hx. pose proof (H1 j x Hj Hx). lia.
      + done.
    - split; [intros; lia|done]. }
  assert ((forall (j : nat) x, (j < b)%nat -> dates ds !! j = Some x ->
             not_after en_date x) /\
          (forall (j : nat) x, (b <= j)%nat -> dates ds !! j = Some x ->
             ~ not_after en_date x)) as [Hb1 Hb2].
  { unfold b. destruct en_date as [en|]; simpl.
    - destruct (smallest_ind_gt_date_spec ds en Hinc) as (_ & H1 & H2). split; [done|].
      intros j x Hj Hx. pose proof (H2 j x Hj Hx). lia.
    - split; [done|]. intros j x Hj Hx. apply lookup_lt_Some in Hx. lia. }
  change (drop a (take b (dates ds)) = filter (between st_date en_date) (dates ds)).
  rewrite <- (filter_split_drop (not_before st_date)
                (take b (dates ds)) a).
  - rewrite <- (filter_split (not_after en_date)
                  (dates ds) b Hb1 Hb2).
    rewrite list_filter_filter. apply list_filter_iff. intros x. unfold between. tauto.
  - intros j x Hj Hx. rewrite lookup_take_Some in Hx. destruct Hx as [Hx _]. by eapply Ha1.
  - intros j x Hj Hx. rewrite lookup_take_Some in Hx. destruct Hx as [Hx _]. by eapply Ha2.
Qed.

Lemma sorted_increasing (l : list Date) : increasing l -> StronglySorted Z.lt l.
Proof.
  induction l as [|a l IH]; intros H; [constructor|].
  destruct (increasing_cons_inv a l H) as [Hl Ha]. constructor; [by apply IH|done].
Qed.

(** Putting a date that is not in the list at the place the search gives. *)
Lemma increasing_insert (ds : DateSet) (date : Date) :
  increasing (dates ds) -> date ∉ dates ds ->
  let ind := smallest_ind_gt_date ds date in
  increasing (take ind (dates ds) ++ [date] ++ drop ind (dates ds)).
Proof.
  intros Hinc Hnew ind.
  destruct (smallest_ind_gt_date_spec ds date Hinc) as (Hlen & Hlow & Hhigh).
  fold ind in Hlen, Hlow, Hhigh.
  pose proof (sorted_increasing _ Hinc) as Hs.
  rewrite <- (take_drop ind (dates ds)) in Hs.
  apply StronglySorted_app in Hs as (Hcross & Hs1 & Hs2).
  assert (forall x, x ∈ take ind (dates ds) -> x < date) as Hbefore.
  { intros x Hx. apply list_elem_of_lookup in Hx as [j Hj].
    apply lookup_take_Some in Hj as [Hj Hlt].
    pose proof (Hlow j x Hlt Hj).
    assert (x <> date) by (intros ->; apply Hnew; by eapply list_elem_of_lookup_2).
    lia. }
  assert (forall x, x ∈ drop ind (dates ds) -> date < x) as Hafter.
  { intros x Hx. apply list_elem_of_lookup in Hx as [j Hj].
    rewrite lookup_drop in Hj. apply (Hhigh (ind + j)%nat); [lia|done]. }
  apply increasing_sorted. apply StronglySorted_app_2; [|done|].
  - intros x1 x2 H1 H2. apply elem_of_cons in H2 as [->|H2]; [by apply Hbefore|].
    by apply Hcross.
  - simpl. constructor; [done|]. apply Forall_forall. intros x Hx. by apply Hafter.
Qed.

Lemma push_date_spec (date : Date) (cell_key : CellKey) (ds : DateSet) :
  consistent ds ->
  let ds' := (push_date date cell_key ds).1 in
  consistent ds' /\
  (forall d, d ∈ dates ds' <-> d = date \/ d ∈ dates ds) /\
  dates_keys ds' !! date = Some ({[cell_key]} ∪ default ∅ (dates_keys ds !! date)) /\
  (forall d, d <> date -> dates_keys ds' !! d = dates_keys ds !! d) /\
  (date ∈ dates ds -> dates ds' = dates ds).
Proof.
  intros [Hinc Hdom] ds'.
  assert (dates_keys ds' =
          <[date := {[cell_key]} ∪ default ∅ (dates_keys ds !! date)]> (dates_keys ds))
    as Hkeys.
  { unfold ds', push_date. by repeat case_match. }
  assert (forall d, d ∈ dates ds' <-> d = date \/ d ∈ dates ds) as Hmem.
  { intros d. unfold ds', push_date.
    destruct (bool_decide (is_Some (dates_keys ds !! date))) eqn:Hseen; simpl.
    - apply bool_decide_eq_true in Hseen. apply Hdom in Hseen.
      split; [by right|]. by intros [->|H].
    - destruct (decide (length (dates ds) = 0%nat)) as [Hz|Hnz]; simpl.
      + apply nil_length_inv in Hz. rewrite Hz.
        rewrite list_elem_of_singleton. split; [by left|]. intros [->|H]; [done|].
        by apply elem_of_nil in H.
      + rewrite elem_of_app, elem_of_cons.
        rewrite <- (take_drop (smallest_ind_gt_date ds date) (dates ds)) at 3.
        rewrite elem_of_app. tauto. }
  assert (date ∈ dates ds -> dates ds' = dates ds) as Hsame.
  { intros Hin. apply Hdom in Hin. unfold ds', push_date.
    by rewrite bool_decide_eq_true_2. }
  split_and!; [split| | | |]; [ | |done| | |done].
  - unfold ds', push_date.
    destruct (bool_decide (is_Some (dates_keys ds !! date))) eqn:Hseen; simpl; [done|].
    apply bool_decide_eq_false in Hseen.
    destruct (decide (length (dates ds) = 0%nat)) as [Hz|Hnz]; simpl.
    + apply increasing_sorted. repeat constructor.
    + apply increasing_insert; [done|]. intros Hin. by apply Hseen, Hdom.
  - intros d. rewrite Hmem, Hkeys. destruct (decide (d = date)) as [->|Hne].
    + rewrite lookup_insert_eq. split; [by eexists|by left].
    + rewrite lookup_insert_ne by done. rewrite <- Hdom. split; [by intros [?|?]|by right].
  - rewrite Hkeys. by rewrite lookup_insert_eq.
  - intros d Hne. rewrite Hkeys. by rewrite lookup_insert_ne.
Qed.

End DateSetMore.

(** ** helpers/column_manager.py *)

Module ColumnManagerFacts.
Import ColumnManager TopologicalSort DictFacts.


Lemma graph_get_dict_get (graph : Graph) (v : string) : graph_get graph v = dict_get graph v.
Proof. induction graph as [|[k deps] g IH]; simpl; [done|]. by rewrite IH. Qed.

(** The loop of [_update_column_dependencies]. *)
Definition update_graph (graph : Graph) (columns : list (string * CellHeader.Column)) : Graph :=
  foldl (fun g kv => dict_set g kv.1 (elements (CellHeader.dependencies kv.2))) graph columns.

Lemma update_graph_keys graph columns k :
  k ∈ keys (update_graph graph columns) <-> k ∈ keys graph \/ k ∈ columns.*1.
Proof.
  revert graph. induction columns as [|[k' c] columns IH]; intros graph; simpl.
  - split; [by left|]. intros [?|?%elem_of_nil]; done.
  - unfold update_graph in IH. rewrite IH. unfold keys. rewrite dict_set_elem_keys.
    rewrite elem_of_cons. tauto.
Qed.

Lemma update_graph_NoDup graph columns :
  NoDup (keys graph) -> NoDup (keys (update_graph graph columns)).
Proof.
  revert graph. induction columns as [|[k' c] columns IH]; intros graph Hnd; simpl; [done|].
  apply IH. by apply dict_set_NoDup.
Qed.

Lemma update_graph_get_other graph columns k :
  k ∉ columns.*1 -> dict_get (update_graph graph columns) k = dict_get graph k.
Proof.
  revert graph. induction columns as [|[k' c] columns IH]; intros graph Hk; simpl; [done|].
  simpl in Hk. apply not_elem_of_cons in Hk as [Hne Hk].
  unfold update_graph in IH. rewrite IH by done. by rewrite dict_get_set_ne.
Qed.

Lemma update_graph_get graph columns k c :
  NoDup columns.*1 -> dict_get columns k = Some c ->
  dict_get (update_graph graph columns) k = Some (elements (CellHeader.dependencies c)).
Proof.
  revert graph. induction columns as [|[k' c'] columns IH]; intros graph Hnd Hget;
    simpl in *; [done|].
  apply NoDup_cons in Hnd as [Hk' Hnd].
  destruct (decide (k' = k)) as [->|Hne].
  - injection Hget as ->.
    rewrite (update_graph_get_other _ columns k Hk'). apply dict_get_set_eq.
  - by apply IH.
Qed.

(** The names of the columns are distinct, and the graph has a node for
    each registered column at most once and for no other name. *)
Definition wf (cm : ColumnManager) : Prop :=
  NoDup (_columns cm).*1 /\
  NoDup (keys (dependency_graph cm)) /\
  forall k, k ∈ keys (dependency_graph cm) -> k ∈ (_columns cm).*1.

(** [add_column] in one step. *)
Definition added (column : CellHeader.Column) (cm : ColumnManager)
    : ColumnManager * result string :=
  let cols := dict_set (_columns cm) (CellHeader.name column) column in
  let graph := update_graph (dependency_graph cm) cols in
  match ColumnManager.topological graph with
  | Ok order =>
      (mkColumnManager (prefix cm) cols graph
         ({[CellHeader.name column]} ∪ save_needed cm) order,
       Ok (CellHeader.name column))
  | Raise e =>
      (mkColumnManager (prefix cm) cols graph (save_needed cm) (refresh_order cm),
       Raise e)
  end.

Lemma add_column_eq (column : CellHeader.Column) (cm : ColumnManager) :
  add_column column cm =
  if __contains__ cm (CellHeader.name column) then (cm, Ok (CellHeader.name column))
  else added column cm.
Proof.
  unfold add_column, added, _update_column_dependencies.
  unfold mbind, M_bind, bind, gets, modify, mret, M_ret, ret. simpl.
  destruct (__contains__ cm (CellHeader.name column)); [done|]. simpl.
  fold (update_graph (dependency_graph cm)
          (dict_set (_columns cm) (CellHeader.name column) column)).
  by destruct (ColumnManager.topological _).
Qed.

Lemma wf_init (prefix : string) : wf (__init__ prefix).
Proof.
  split_and!; simpl; [apply NoDup_nil_2|apply NoDup_nil_2|].
  intros k Hk. by apply elem_of_nil in Hk.
Qed.

Lemma wf_added (column : CellHeader.Column) (cm : ColumnManager) :
  wf cm -> wf (added column cm).1.
Proof.
  intros (Hc & Hg & Hsub).
  assert (wf (mkColumnManager (prefix cm)
                (dict_set (_columns cm) (CellHeader.name column) column)
                (update_graph (dependency_graph cm)
                   (dict_set (_columns cm) (CellHeader.name column) column))
                (save_needed cm) (refresh_order cm))) as (H1 & H2 & H3).
  { split_and!; simpl.
    - by apply dict_set_NoDup.
    - by apply update_graph_NoDup.
    - intros k Hk. apply update_graph_keys in Hk as [Hk|Hk]; [|done].
      apply dict_set_elem_keys. right. by apply Hsub. }
  unfold added. by destruct (ColumnManager.topological _).
Qed.

Lemma wf_add_column (column : CellHeader.Column) (cm : ColumnManager) :
  wf cm -> wf (add_column column cm).1.
Proof.
  intros H. rewrite add_column_eq. destruct (__contains__ _ _); [done|].
  by apply wf_added.
Qed.

Lemma wf_add_dependency (col name : string) (cm : ColumnManager) :
  wf cm -> wf (add_dependency col name cm).1.
Proof.
  intros (Hc & Hg & Hsub). unfold add_dependency, get_column.
  unfold mbind, M_bind, bind, gets, modify, mret, M_ret, ret. simpl.
  destruct (dict_get (_columns cm) col) as [column|] eqn:Hget; simpl.
  - split_and!; simpl; [by apply dict_set_NoDup|done|].
    intros k Hk. apply dict_set_elem_keys. right. by apply Hsub.
  - by split_and!.
Qed.

(** After a successful update the graph has exactly the registered columns
    as nodes, each with its own dependents. *)
Lemma update_graph_edge (cm : ColumnManager) (u v : string) :
  wf cm ->
  edge (update_graph (dependency_graph cm) (_columns cm)) u v <->
  exists cu, dict_get (_columns cm) u = Some cu /\
             v ∈ CellHeader.dependencies cu /\ v ∈ (_columns cm).*1.
Proof.
  intros (Hc & Hg & Hsub). unfold edge.
  assert (forall k, k ∈ keys (update_graph (dependency_graph cm) (_columns cm))
                    <-> k ∈ (_columns cm).*1) as Hkeys.
  { intros k. rewrite update_graph_keys. split; [intros [?|?]; auto|by right]. }
  split.
  - intros (deps & Hget & Hv & Hkey). rewrite graph_get_dict_get in Hget.
    destruct (dict_get (_columns cm) u) as [cu|] eqn:Hu.
    + rewrite (update_graph_get _ _ u cu Hc Hu) in Hget. injection Hget as <-.
      exists cu. split_and!; [done|by apply elem_of_elements|by apply Hkeys].
    + exfalso. apply dict_get_None in Hu.
      assert (u ∈ keys (update_graph (dependency_graph cm) (_columns cm))) as Hin.
      { unfold keys. destruct (decide (u ∈ (update_graph (dependency_graph cm) (_columns cm)).*1))
          as [?|Hout]; [done|]. apply dict_get_None in Hout. congruence. }
      by apply Hkeys in Hin.
  - intros (cu & Hu & Hv & Hkey). exists (elements (CellHeader.dependencies cu)).
    rewrite graph_get_dict_get. split_and!.
    + by apply update_graph_get.
    + by apply elem_of_elements.
    + by apply Hkeys.
Qed.

(** Column [v] is a registered dependent of the registered column [u]. *)
Definition dependent (cm : ColumnManager) (u v : string) : Prop :=
  exists cu, dict_get (_columns cm) u = Some cu /\
             v ∈ CellHeader.dependencies cu /\ v ∈ (_columns cm).*1.

Lemma tc_iff {A} (R1 R2 : relation A) (x y : A) :
  (forall a b, R1 a b <-> R2 a b) -> tc R1 x y <-> tc R2 x y.
Proof.
  intros H. split; induction 1 as [a b Hab|a b c Hab _ IH].
  - apply tc_once. by apply H.
  - eapply tc_l; [by apply H|done].
  - apply tc_once. by apply H.
  - eapply tc_l; [by apply H|done].
Qed.

(** What [add_column] does with a column whose name is new. *)
Lemma added_outcome (column : CellHeader.Column) (cm : ColumnManager) :
  wf cm -> __contains__ cm (CellHeader.name column) = false ->
  let cm' := (added column cm).1 in
  _columns cm' = _columns cm ++ [(CellHeader.name column, column)] /\
  match (added column cm).2 with
  | Ok name =>
      name = CellHeader.name column /\
      refresh_order cm' ≡ₚ (_columns cm').*1 /\
      (forall u v, dependent cm' u v ->
         exists i j, refresh_order cm' !! i = Some u /\
                     refresh_order cm' !! j = Some v /\ (i < j)%nat) /\
      (forall u, ~ tc (dependent cm') u u) /\
      save_needed cm' = {[CellHeader.name column]} ∪ save_needed cm
  | Raise e =>
      e = ValueError "Loop found." /\
      (exists u, tc (dependent cm') u u) /\
      refresh_order cm' = refresh_order cm /\
      save_needed cm' = save_needed cm
  end.
Proof.
  intros Hwf Hnew cm'.
  assert (CellHeader.name column ∉ (_columns cm).*1) as Hout.
  { apply dict_get_None. unfold __contains__ in Hnew.
    apply bool_decide_eq_false in Hnew.
    destruct (dict_get (_columns cm) (CellHeader.name column)); [|done].
    exfalso. apply Hnew. by eexists. }
  set (cols := dict_set (_columns cm) (CellHeader.name column) column).
  set (graph := update_graph (dependency_graph cm) cols).
  set (cm1 := mkColumnManager (prefix cm) cols (dependency_graph cm)
                (save_needed cm) (refresh_order cm)).
  assert (wf cm1) as Hwf1.
  { destruct Hwf as (Hc & Hg & Hsub). split_and!; simpl.
    - by apply dict_set_NoDup.
    - done.
    - intros k Hk. apply dict_set_elem_keys. right. by apply Hsub. }
  assert (forall u v, edge graph u v <-> dependent cm1 u v) as Hedge
    by (intros u v; apply (update_graph_edge cm1 u v Hwf1)).
  assert (keys graph ≡ₚ cols.*1) as Hkeys.
  { apply NoDup_Permutation.
    - apply update_graph_NoDup. apply Hwf.
    - apply Hwf1.
    - intros k. unfold graph. rewrite update_graph_keys. split; [|by right].
      intros [Hk|Hk]; [|done]. by apply Hwf1. }
  assert (_columns cm' = cols /\ dependency_graph cm' = graph) as [Hcols Hgraph].
  { unfold cm', added. fold cols graph. by destruct (ColumnManager.topological graph). }
  assert (forall u v, dependent cm' u v <-> dependent cm1 u v) as Hdep.
  { intros u v. unfold dependent. by rewrite Hcols. }
  split; [rewrite Hcols; by apply dict_set_new|].
  pose proof (TopologicalSortProofs.topological_outcome graph
                (update_graph_NoDup _ _ (proj1 (proj2 Hwf)))) as Hout'.
  unfold cm', added. fold cols graph. unfold ColumnManager.topological.
  destruct (TopologicalSort.topological graph) as [[order|e]|]; simpl; [| |done].
  - destruct Hout' as (Hperm & Hord & Hacyc). split_and!; [done| | | |done].
    + by rewrite Hperm.
    + intros u v (cu & Hu & Hv & Hk). apply Hord. apply Hedge. by exists cu.
    + intros u Hu. apply Hacyc. exists u.
      apply (tc_iff (edge graph) (dependent cm1)); [done|].
      revert Hu. apply tc_iff. intros a b. unfold dependent. simpl. done.
  - destruct Hout' as (-> & u & Hu). split_and!; [done| |done|done].
    exists u. apply (tc_iff (edge graph) (dependent cm1)) in Hu; [|done].
    revert Hu. apply tc_iff. intros a b. unfold dependent. simpl. done.
Qed.

End ColumnManagerFacts.

(** ** What the pages of a store hold *)

Module PageMasterContents.
Import PageMaster PageMasterFacts DictFacts.

Section Contents.
Context {Addr V : Type} `{!Paging Addr}.
Implicit Types pm : PageMaster V.

(** The object that a page name stands for: the one the cache refers to
    when the page is in the cache, and else the one its file gives when it is
    loaded ([None] for a file that cannot be read). *)
Definition page_object pm (p : string) : option (PyObj V) :=
  match dict_get (cache pm) p with
  | Some l => Some (deref pm l)
  | None => file_object pm p
  end.

(** The value under a key of a page; none when the page is no dict. *)
Definition content pm (p k : string) : option V :=
  match page_object pm p with
  | Some (PyDict d) => d !! k
  | _ => None
  end.

(** The cache refers to allocated objects, has every page name and every
    object at most once, and is not longer than the capacity. *)
Definition sound pm : Prop :=
  wf pm /\ NoDup (resident pm) /\ NoDup (cache pm).*2 /\
  (length (cache pm) <= capacity pm)%nat.

Lemma append_inj_r (s a b : string) : s +:+ a = s +:+ b -> a = b.
Proof. induction s as [|c s IH]; simpl; [done|]. intros [= H]. by apply IH. Qed.

Lemma full_path_inj pm (p q : string) : full_path pm p = full_path pm q -> p = q.
Proof.
  unfold full_path. intros H.
  by repeat (apply append_inj_r in H).
Qed.

Lemma promote_perm {A} (c : list A) (i : nat) (x : A) :
  c !! i = Some x -> x :: take i c ++ drop (S i) c ≡ₚ c.
Proof.
  intros Hi. rewrite <- (take_drop_middle c i x Hi) at 3.
  by rewrite Permutation_middle.
Qed.

Lemma sound_cached pm p l :
  sound pm -> dict_get (cache pm) p = Some l -> l ∈ dom (heap pm).
Proof.
  intros (Hwf & _) Hget. apply dict_get_Some_elem in Hget. by apply (Hwf (p, l)).
Qed.

Lemma fresh_not_loc pm (c : string * loc) :
  wf pm -> c ∈ cache pm -> c.2 <> fresh (dom (heap pm)).
Proof.
  intros Hwf Hc Heq. apply (is_fresh (dom (heap pm))). rewrite <- Heq. by apply Hwf.
Qed.

Lemma file_object_same pm pm' (q : string) :
  files pm' = files pm -> prefix pm' = prefix pm -> file_object pm' q = file_object pm q.
Proof. intros Hf Hp. unfold file_object, full_path. by rewrite Hf, Hp. Qed.

(** A page found in the cache: the cache is reordered. *)
Lemma hit_contents pm (p : string) (ci : nat) (c : string * loc) :
  sound pm -> find_cached p (cache pm) 0 = Some (ci, c) ->
  let pm' := set_cache (c :: take ci (cache pm) ++ drop (S ci) (cache pm)) pm in
  sound pm' /\ (forall q, page_object pm' q = page_object pm q) /\
  dict_get (cache pm') p = Some c.2.
Proof.
  intros (Hwf & Hn & Hl & Hlen) Hf pm'.
  destruct (find_cached_Some _ _ _ _ _ Hf) as (i & -> & Hi & Hc & _). simpl in *.
  pose proof (promote_perm (cache pm) i c Hi) as Hperm.
  assert (cache pm' ≡ₚ cache pm) as Hcache by exact Hperm.
  split_and!.
  - split_and!.
    + intros x Hx. rewrite Hcache in Hx. by apply Hwf.
    + unfold resident. by rewrite Hcache.
    + by rewrite Hcache.
    + rewrite Hcache. done.
  - intros q. unfold page_object.
    rewrite (dict_get_perm (cache pm) (cache pm') q Hn) by done. done.
  - unfold pm'. destruct c as [p' l']. simpl in *. subst p'. by rewrite decide_True.
Qed.

(** A page loaded into a cache that has room for it. *)
Lemma room_contents pm (p : string) (obj : PyObj V) :
  sound pm -> p ∉ resident pm -> file_object pm p = Some obj ->
  (S (length (cache pm)) <= capacity pm)%nat ->
  let pm' := loaded pm p obj in
  sound pm' /\ (forall q, page_object pm' q = page_object pm q) /\
  dict_get (cache pm') p = Some (fresh (dom (heap pm))).
Proof.
  intros Hs Hp Hobj Hroom pm'. pose proof Hs as (Hwf & Hn & Hl & Hlen).
  split_and!.
  - split_and!.
    + intros x Hx. simpl in *. rewrite dom_insert_L.
      apply elem_of_cons in Hx as [->|Hx]; [apply elem_of_union_l; by apply elem_of_singleton|].
      apply elem_of_union_r. by apply Hwf.
    + unfold resident. simpl. by apply NoDup_cons.
    + simpl. apply NoDup_cons. split; [|done]. intros Hin.
      apply list_elem_of_fmap in Hin as (x & Hx & Hin).
      by apply (fresh_not_loc pm x Hwf Hin).
    + simpl. done.
  - intros q. unfold page_object. simpl. destruct (decide (p = q)) as [<-|Hne].
    + apply dict_get_None in Hp. rewrite Hp, Hobj.
      unfold deref. simpl. by rewrite lookup_insert_eq.
    + destruct (dict_get (cache pm) q) as [l'|] eqn:Hq; [|done].
      f_equal. unfold deref. simpl. rewrite lookup_insert_ne; [done|].
      intros Heq. apply (is_fresh (dom (heap pm))). rewrite Heq.
      by eapply sound_cached.
  - simpl. by rewrite decide_True.
Qed.

(** A page loaded into a full cache: the last page is saved and dropped. *)
Lemma overflow_contents pm (p : string) (obj : PyObj V) (c : string * loc) :
  sound pm -> 1 <= cache_size pm -> p ∉ resident pm -> file_object pm p = Some obj ->
  (capacity pm < S (length (cache pm)))%nat ->
  last ((p, fresh (dom (heap pm))) :: cache pm) = Some c ->
  let pm1 := loaded pm p obj in
  let pm' :=
    set_cache (py_take (cache_size pm) ((p, fresh (dom (heap pm))) :: cache pm))
      (set_files (<[full_path pm c.1 := Pickled (deref pm1 c.2)]> (files pm)) pm1) in
  sound pm' /\ (forall q, page_object pm' q = page_object pm q) /\
  dict_get (cache pm') p = Some (fresh (dom (heap pm))).
Proof.
  intros Hs HC Hp Hobj Hover Hlast pm1 pm'. pose proof Hs as (Hwf & Hn & Hl & Hlen).
  assert (length (cache pm) = capacity pm) as Hfull by lia.
  assert (1 <= capacity pm)%nat as Hcap by (unfold capacity; lia).
  assert (exists front, cache pm = front ++ [c]) as [front Hfront].
  { apply last_Some. rewrite last_cons in Hlast.
    destruct (last (cache pm)) as [y|] eqn:Hy; [done|].
    apply last_None in Hy. rewrite Hy in Hfull. simpl in Hfull. lia. }
  assert (cache pm' = (p, fresh (dom (heap pm))) :: front) as Hcache.
  { unfold pm'. simpl. rewrite py_take_capacity by done.
    rewrite <- Hfull, Hfront. rewrite length_app. simpl.
    replace (length front + 1)%nat with (S (length front)) by lia.
    simpl. by rewrite take_app_length. }
  assert (NoDup (cache pm).*1) as Hnd by exact Hn.
  unfold resident in Hn, Hp. rewrite Hfront in Hn, Hl, Hp.
  rewrite fmap_app in Hn. rewrite fmap_app in Hl. rewrite fmap_app in Hp.
  apply NoDup_app in Hn as (Hn1 & Hn2 & _). apply NoDup_app in Hl as (Hl1 & Hl2 & _).
  assert (forall x, x ∈ front -> x ∈ cache pm) as Hsub.
  { intros x Hx. rewrite Hfront. apply elem_of_app. by left. }
  assert (c ∈ cache pm) as Hc.
  { rewrite Hfront. apply elem_of_app. right. by apply list_elem_of_singleton. }
  assert (forall x, x ∈ cache pm -> deref pm1 x.2 = deref pm x.2) as Hderef.
  { intros x Hx. unfold deref, pm1. simpl. rewrite lookup_insert_ne; [done|].
    intros Heq. by apply (fresh_not_loc pm x Hwf Hx). }
  assert (heap pm' = heap pm1) as Hheap by done.
  split_and!.
  - split_and!.
    + intros x Hx. rewrite Hcache in Hx. rewrite Hheap. unfold pm1. simpl.
      rewrite dom_insert_L.
      apply elem_of_cons in Hx as [->|Hx]; [apply elem_of_union_l; by apply elem_of_singleton|].
      apply elem_of_union_r. apply Hwf. by apply Hsub.
    + unfold resident. rewrite Hcache. simpl. apply NoDup_cons. split; [|done].
      intros Hin. apply Hp. apply elem_of_app. by left.
    + rewrite Hcache. simpl. apply NoDup_cons. split; [|done]. intros Hin.
      apply list_elem_of_fmap in Hin as (x & Hx & Hin).
      by apply (fresh_not_loc pm x Hwf (Hsub x Hin)).
    + rewrite Hcache. change (capacity pm') with (capacity pm).
      rewrite <- Hfull, Hfront, length_app. simpl. lia.
  - intros q. unfold page_object. rewrite Hcache. simpl.
    destruct (decide (p = q)) as [<-|Hne].
    + assert (dict_get (cache pm) p = None) as ->.
      { apply dict_get_None. rewrite Hfront, fmap_app. done. }
      rewrite Hobj. unfold deref. rewrite Hheap. unfold pm1. simpl.
      by rewrite lookup_insert_eq.
    + destruct (dict_get front q) as [l'|] eqn:Hq.
      * pose proof (dict_get_Some_elem _ _ _ Hq) as Hel.
        rewrite (dict_get_elem (cache pm) q l' Hnd (Hsub _ Hel)). f_equal.
        change (deref pm' l') with (deref pm1 l').
        apply (Hderef (q, l')). by apply Hsub.
      * apply dict_get_None in Hq.
        unfold file_object at 1. unfold pm'. simpl.
        change (full_path _ q) with (full_path pm q).
        destruct (decide (q = c.1)) as [->|Hqc].
        -- rewrite lookup_insert_eq.
           rewrite (dict_get_elem (cache pm) c.1 c.2 Hnd) by (by destruct c).
           f_equal. by apply Hderef.
        -- rewrite lookup_insert_ne by (intros Heq; by apply full_path_inj in Heq).
           assert (dict_get (cache pm) q = None) as ->; [|done].
           apply dict_get_None. rewrite Hfront, fmap_app. intros Hin.
           apply elem_of_app in Hin as [Hin|Hin]; [done|].
           simpl in Hin. apply list_elem_of_singleton in Hin. done.
  - rewrite Hcache. simpl. by rewrite decide_True.
Qed.

(** [_get_page] changes where pages are kept, never what they hold. *)
Lemma _get_page_contents pm (addr : Addr) :
  readonly pm = false -> 1 <= cache_size pm -> sound pm ->
  let r := _get_page addr pm in
  sound r.1 /\ (forall q, page_object r.1 q = page_object pm q) /\
  match r.2 with
  | Ok l => dict_get (cache r.1) (_addr_to_page addr) = Some l
  | Raise e =>
      r.1 = pm /\ page_object pm (_addr_to_page addr) = None /\ e = UnpicklingError
  end.
Proof.
  intros Hro HC Hs.
  destruct (_get_page_cases pm addr Hro)
    as [(ci & c & Hf & ->)|[(Hp & Hobj & ->)|[(obj & Hp & Hobj & Hroom & ->)|
        (obj & c & Hp & Hobj & Hover & Hlast & ->)]]]; simpl.
  - by apply hit_contents.
  - split_and!; [done|done|done| |done].
    unfold page_object. apply dict_get_None in Hp. by rewrite Hp.
  - by apply room_contents.
  - by apply overflow_contents.
Qed.

Lemma same_loc_same_page (c : list (string * loc)) (p q : string) (l : loc) :
  NoDup c.*2 -> (p, l) ∈ c -> (q, l) ∈ c -> p = q.
Proof.
  induction c as [|x c IH]; intros Hnd Hp Hq; [by apply elem_of_nil in Hp|].
  simpl in Hnd. apply NoDup_cons in Hnd as [Hx Hnd].
  apply elem_of_cons in Hp as [Hp|Hp]; apply elem_of_cons in Hq as [Hq|Hq].
  - congruence.
  - subst x. exfalso. apply Hx. simpl. apply list_elem_of_fmap. by exists (q, l).
  - subst x. exfalso. apply Hx. simpl. apply list_elem_of_fmap. by exists (p, l).
  - by apply IH.
Qed.

Lemma get_value_contents pm (addr : Addr) (key : string) :
  readonly pm = false -> 1 <= cache_size pm -> sound pm ->
  let r := get_value addr key pm in
  r.2 = Ok (content pm (_addr_to_page addr) (_addr_key addr key)) /\
  sound r.1 /\ (forall q, page_object r.1 q = page_object pm q).
Proof.
  intros Hro HC Hs r.
  pose proof (_get_page_contents pm addr Hro HC Hs) as (Hs1 & Hsame & Hres).
  pose proof (get_value_state pm addr key) as Hst. fold r in Hst.
  rewrite Hst. split; [|by split].
  unfold r, get_value, content. unfold_py.
  destruct (_get_page addr pm) as [pm1 [l|e]]; simpl in *.
  - rewrite <- Hsame. unfold page_object. rewrite Hres.
    unfold page_get. by destruct (deref pm1 l).
  - destruct Hres as (_ & -> & _). done.
Qed.

Lemma set_value_contents pm (addr : Addr) (key : string) (v : V) :
  readonly pm = false -> 1 <= cache_size pm -> sound pm ->
  let r := set_value addr key v pm in
  let p := _addr_to_page addr in
  sound r.1 /\
  match page_object pm p with
  | Some (PyDict d) =>
      r.2 = Ok tt /\
      forall q, page_object r.1 q =
                if decide (q = p) then Some (PyDict (<[_addr_key addr key := v]> d))
                else page_object pm q
  | Some PyOther =>
      r.2 = Raise (TypeError "object does not support item assignment") /\
      forall q, page_object r.1 q = page_object pm q
  | None => r.2 = Raise UnpicklingError /\ r.1 = pm
  end.
Proof.
  intros Hro HC Hs r p. subst p.
  pose proof (_get_page_contents pm addr Hro HC Hs) as (Hs1 & Hsame & Hres).
  unfold r, set_value. unfold_py. rewrite Hro.
  destruct (_get_page addr pm) as [pm1 [l|e]]; simpl in *.
  - rewrite <- (Hsame (_addr_to_page addr)). unfold page_object at 1. rewrite Hres.
    unfold page_setitem. destruct (deref pm1 l) as [d|] eqn:Hd; simpl; [|by split].
    pose proof Hs1 as (Hwf & Hn & Hl & Hlen).
    split; [|split; [done|]].
    + split_and!; simpl; [|done|done|done].
      intros x Hx. simpl. rewrite dom_insert_L. apply elem_of_union_r. by apply Hwf.
    + intros q. unfold page_object at 1. simpl.
      destruct (decide (q = _addr_to_page addr)) as [->|Hne].
      * rewrite Hres. unfold deref. simpl. by rewrite lookup_insert_eq.
      * rewrite <- (Hsame q). unfold page_object.
        destruct (dict_get (cache pm1) q) as [l'|] eqn:Hq; [|done].
        f_equal. unfold deref. simpl. rewrite lookup_insert_ne; [done|].
        intros <-. apply Hne.
        apply (same_loc_same_page (cache pm1) q (_addr_to_page addr) l Hl);
          by apply dict_get_Some_elem.
  - destruct Hres as (-> & -> & ->). done.
Qed.

(** A store that can be written, with a capacity of at least 1 and a
    sound cache. *)
Definition usable pm : Prop := readonly pm = false /\ 1 <= cache_size pm /\ sound pm.

Lemma usable_init pm :
  readonly pm = false -> 1 <= cache_size pm -> cache pm = [] -> usable pm.
Proof.
  intros Hro HC Hc. split_and!; [done|done|]. unfold sound, wf, resident. rewrite Hc.
  split_and!; [|apply NoDup_nil_2|apply NoDup_nil_2|simpl; lia].
  intros c Hin. by apply elem_of_nil in Hin.
Qed.

(** The page and key that an operation writes. *)
Definition writes (op : Op Addr V) (p k : string) : Prop :=
  match op with
  | OpGet _ _ => False
  | OpSet a key _ => _addr_to_page a = p /\ _addr_key a key = k
  end.

Lemma step_usable (op : Op Addr V) pm : usable pm -> usable (step op pm).
Proof.
  intros (Hro & HC & Hs). unfold step, run_op. destruct op as [a key|a key v].
  - pose proof (get_value_contents pm a key Hro HC Hs) as (_ & Hs' & _).
    pose proof (get_value_keeps pm a key) as [Hr Hc].
    split_and!; [by rewrite Hr|by rewrite Hc|done].
  - pose proof (set_value_contents pm a key v Hro HC Hs) as (Hs' & _).
    pose proof (set_value_keeps pm a key v) as [Hr Hc].
    unfold_py. destruct (set_value a key v pm) as [pm1 [[]|e]]; simpl in *;
      (split_and!; [by rewrite Hr|by rewrite Hc|done]).
Qed.

Lemma step_content (op : Op Addr V) pm (p k : string) :
  usable pm -> ~ writes op p k -> content (step op pm) p k = content pm p k.
Proof.
  intros (Hro & HC & Hs) Hw. unfold step, run_op. destruct op as [a key|a key v].
  - pose proof (get_value_contents pm a key Hro HC Hs) as (_ & _ & Hsame).
    unfold content. by rewrite Hsame.
  - pose proof (set_value_contents pm a key v Hro HC Hs) as (_ & Hset).
    assert (((set_value a key v ;; mret None) pm).1 = (set_value a key v pm).1) as ->.
    { unfold_py. by destruct (set_value a key v pm) as [pm1 [[]|e]]. }
    unfold content.
    destruct (page_object pm (_addr_to_page a)) as [[d|]|] eqn:Hobj.
    + destruct Hset as [_ Hset]. rewrite Hset.
      destruct (decide (p = _addr_to_page a)) as [->|Hne]; [|done].
      rewrite Hobj. rewrite lookup_insert_ne; [done|].
      intros Heq. apply Hw. by split.
    + destruct Hset as [_ Hset]. by rewrite Hset.
    + destruct Hset as [_ ->]. done.
Qed.

(** A sequence of operations, one after the other. *)
Definition run (ops : list (Op Addr V)) pm : PageMaster V :=
  foldl (fun s op => step op s) pm ops.

Lemma run_usable (ops : list (Op Addr V)) pm : usable pm -> usable (run ops pm).
Proof.
  revert pm. induction ops as [|op ops IH]; intros pm Hu; [done|].
  simpl. apply IH. by apply step_usable.
Qed.

Lemma run_content (ops : list (Op Addr V)) pm (p k : string) :
  usable pm -> Forall (fun op => ~ writes op p k) ops ->
  content (run ops pm) p k = content pm p k.
Proof.
  revert pm. induction ops as [|op ops IH]; intros pm Hu Hall; [done|].
  apply Forall_cons in Hall as [Hop Hall]. simpl.
  rewrite IH; [by apply step_content|by apply step_usable|done].
Qed.

(** The files after the pages at the given places of the cache have been
    saved, in that order. *)
Definition saved pm (indices : list nat) (f : gmap string (FileContent V))
    : gmap string (FileContent V) :=
  foldl (fun f i =>
           match cache pm !! i with
           | Some c => <[full_path pm c.1 := Pickled (deref pm c.2)]> f
           | None => f
           end) f indices.

Lemma py_index_nat {A} (l : list A) (i : nat) : py_index l (Z.of_nat i) = l !! i.
Proof.
  unfold py_index. rewrite (proj2 (Z.leb_le _ _)) by lia. by rewrite Nat2Z.id.
Qed.

Lemma save_pages_saved pm (indices : list nat) (f : gmap string (FileContent V)) :
  readonly pm = false ->
  (forall i, i ∈ indices -> (i < length (cache pm))%nat) ->
  save_pages indices (set_files f pm) = (set_files (saved pm indices f) pm, Ok tt).
Proof.
  intros Hro. revert f. induction indices as [|i indices IH]; intros f Hlt; [done|].
  simpl. unfold_py. unfold _save_single_page at 1. simpl. rewrite Hro.
  rewrite py_index_nat.
  destruct (lookup_lt_is_Some_2 (cache pm) i) as [c Hc]; [apply Hlt; by left|].
  rewrite Hc. unfold _save_file. simpl. rewrite Hro.
  change (set_files ?g (set_files f pm)) with (set_files g pm).
  change (deref (set_files f pm) c.2) with (deref pm c.2).
  change (full_path (set_files f pm) c.1) with (full_path pm c.1).
  rewrite IH; [done|]. intros j Hj. apply Hlt. by right.
Qed.

Lemma saved_other pm (indices : list nat) (f : gmap string (FileContent V)) (q : string) :
  q ∉ resident pm -> saved pm indices f !! full_path pm q = f !! full_path pm q.
Proof.
  intros Hq. revert f. induction indices as [|i indices IH]; intros f; [done|].
  simpl. rewrite IH. destruct (cache pm !! i) as [c|] eqn:Hc; [|done].
  rewrite lookup_insert_ne; [done|]. intros Heq. apply full_path_inj in Heq.
  apply Hq. rewrite <- Heq. apply list_elem_of_fmap. exists c. split; [done|].
  by eapply list_elem_of_lookup_2.
Qed.

Lemma saved_page pm (indices : list nat) (f : gmap string (FileContent V))
    (i : nat) (c : string * loc) :
  NoDup (resident pm) -> cache pm !! i = Some c -> i ∈ indices ->
  saved pm indices f !! full_path pm c.1 = Some (Pickled (deref pm c.2)).
Proof.
  intros Hnd Hc. revert f. induction indices as [|j indices IH] using rev_ind;
    intros f Hi; [by apply elem_of_nil in Hi|].
  unfold saved. rewrite foldl_app. simpl. fold (saved pm indices f).
  destruct (cache pm !! j) as [cj|] eqn:Hj.
  - destruct (decide (cj.1 = c.1)) as [Heq|Hne].
    + rewrite Heq, lookup_insert_eq.
      assert (j = i) as ->.
      { eapply NoDup_lookup; [exact Hnd| |].
        - unfold resident. rewrite list_lookup_fmap, Hj. simpl. by rewrite Heq.
        - unfold resident. by rewrite list_lookup_fmap, Hc. }
      by simplify_eq.
    + rewrite lookup_insert_ne by (intros H'; by apply full_path_inj in H').
      apply IH. apply elem_of_app in Hi as [Hi|Hi]; [done|].
      apply list_elem_of_singleton in Hi. subst j. by simplify_eq.
  - apply IH. apply elem_of_app in Hi as [Hi|Hi]; [done|].
    apply list_elem_of_singleton in Hi. subst j. by simplify_eq.
Qed.

(** [close] on a store that is not read-only: every page of the cache is
    in its file, the cache is empty, and the pages hold what they held. *)
Lemma close_contents pm :
  readonly pm = false -> NoDup (resident pm) ->
  let r := close pm in
  r.2 = Ok tt /\ cache r.1 = [] /\ prefix r.1 = prefix pm /\
  forall q, file_object r.1 q = page_object pm q.
Proof.
  intros Hro Hnd r.
  assert (r = (set_cache [] (set_files (saved pm (seq 0 (length (cache pm))) (files pm)) pm),
               Ok tt)) as ->.
  { pose proof (save_pages_saved pm (seq 0 (length (cache pm))) (files pm) Hro) as Hsave.
    replace (set_files (files pm) pm) with pm in Hsave by (by destruct pm).
    unfold r, close, save_all_and_empty. unfold_py. rewrite Hro. simpl.
    rewrite Hro. rewrite Hsave; [done|]. intros i Hi. apply elem_of_seq in Hi. lia. }
  split_and!; [done|done|done|]. intros q. unfold file_object, page_object. simpl.
  change (full_path _ q) with (full_path pm q).
  destruct (dict_get (cache pm) q) as [l|] eqn:Hq.
  - apply dict_get_Some_elem in Hq. apply list_elem_of_lookup in Hq as [i Hi].
    rewrite (saved_page pm _ _ i (q, l) Hnd Hi); [done|].
    apply elem_of_seq. apply lookup_lt_Some in Hi. lia.
  - apply dict_get_None in Hq. rewrite (saved_other pm _ _ q Hq). done.
Qed.

(** Reading from a store whose cache is empty gives what the files hold,
    also when the store is read-only. *)
Lemma get_value_from_files pm (addr : Addr) (key : string) :
  1 <= cache_size pm -> cache pm = [] ->
  (get_value addr key pm).2 =
  Ok (match file_object pm (_addr_to_page addr) with
      | Some (PyDict d) => d !! _addr_key addr key
      | _ => None
      end).
Proof.
  intros HC Hc. unfold get_value. unfold_py.
  assert (find_cached (_addr_to_page addr) (cache pm) 0 = None) as Hf by (by rewrite Hc).
  destruct (file_object pm (_addr_to_page addr)) as [obj|] eqn:Hobj.
  - rewrite (_get_page_room pm addr obj Hf Hobj) by (rewrite Hc; simpl; lia).
    unfold page_get, deref, loaded. simpl. rewrite lookup_insert_eq. simpl.
    by destruct obj.
  - by rewrite (_get_page_unreadable pm addr Hf Hobj).
Qed.

Lemma content_closed pm (p k : string) :
  readonly pm = false -> NoDup (resident pm) ->
  content (close pm).1 p k = content pm p k.
Proof.
  intros Hro Hnd. destruct (close_contents pm Hro Hnd) as (_ & Hc & _ & Hobj).
  unfold content. unfold page_object at 1. rewrite Hc. simpl. by rewrite Hobj.
Qed.

(** A read-only store keeps its files whatever [_get_page] does. *)
Lemma _get_page_readonly_files pm (addr : Addr) :
  readonly pm = true -> files (_get_page addr pm).1 = files pm.
Proof.
  intros Hro.
  destruct (_get_page_all_cases pm addr)
    as [(ci & c & _ & ->)|[(_ & _ & ->)|[(obj & _ & _ & _ & ->)|
        [(obj & _ & _ & _ & _ & ->)|(obj & c & _ & _ & _ & Hro' & _)]]]];
    [done|done|done|done|congruence].
Qed.

Lemma step_readonly (op : Op Addr V) pm :
  readonly pm = true ->
  readonly (step op pm) = true /\ files (step op pm) = files pm.
Proof.
  intros Hro. unfold step, run_op. destruct op as [a k|a k w].
  - destruct (get_value_keeps pm a k) as [-> _]. split; [done|].
    rewrite get_value_state. by apply _get_page_readonly_files.
  - unfold_py. by rewrite (set_value_readonly pm a k w Hro).
Qed.

Lemma run_readonly (ops : list (Op Addr V)) pm :
  readonly pm = true ->
  readonly (run ops pm) = true /\ files (run ops pm) = files pm.
Proof.
  revert pm. induction ops as [|op ops IH]; intros pm Hro; [done|].
  destruct (step_readonly op pm Hro) as [Hro' Hf]. simpl.
  destruct (IH _ Hro') as [H1 H2]. split; [done|]. by rewrite H2.
Qed.

End Contents.

End PageMasterContents.

(** ** table.py *)

Module TableMore.
Import TableFacts.

Lemma for_each_fmap {S A B} (f : A -> B) (xs : list A) (body : B -> M S unit) (s : S) :
  for_each (f <$> xs) body s = for_each xs (fun x => body (f x)) s.
Proof.
  revert s. induction xs as [|x xs IH]; intros s; [done|].
  rewrite fmap_cons, !for_each_cons. destruct (body (f x) s) as [s' [[]|e]]; [apply IH|done].
Qed.

Lemma returned_eta {S} (x : S * result unit) : x.2 = Ok tt -> x = (x.1, Ok tt).
Proof. destruct x as [s [[]|e]]; [done|discriminate]. Qed.

(** The parts of the table that [set_cell_value] has changed when it
    returns. *)
Lemma set_cell_value_Ok (a : CellAddr) (k : CellKey) (v : Value) (t t' : Table.Table) :
  Table.set_cell_value a k v t = (t', Ok tt) ->
  Table.readonly t = false /\
  (exists column, dict_get (ColumnManager._columns (Table.cm t)) (col a) = Some column) /\
  PageMaster.set_value a k v (Table.cells t) = (Table.cells t', Ok tt) /\
  Table.ds t' = (DateSet.push_date (date a) k (Table.ds t)).1 /\
  Table.cm t' = ColumnManager.mark_save_needed (col a) (Table.cm t) /\
  Table.readonly t' = false.
Proof.
  rewrite set_cell_value_eq. unfold set_cell_value_outcome.
  destruct (Table.readonly t) eqn:Hro; [done|].
  destruct (dict_get _ _) as [column|]; [|done].
  destruct (PageMaster.set_value a k v (Table.cells t)) as [pm1 [[]|e]]; simpl; [|done].
  intros [= <-].
  destruct (mark_all_same (cell_dependencies column a)
              (Table.set_cm (ColumnManager.mark_save_needed (col a) (Table.cm t))
                 (Table.set_cells pm1
                    (Table.set_ds (DateSet.push_date (date a) k (Table.ds t)).1 t))))
    as [H1 H2 H3 H4 H5 H6].
  rewrite H2, H3, H4, H5. simpl. split_and!; try done. by exists column.
Qed.

(** Reading a cell that holds a value: the value comes back and nothing
    changes. *)
Lemma get_cell_value_stored (a : CellAddr) (k : CellKey) (aao : Date) (v : Value)
    (t : Table.Table) :
  PageMaster.get_value a k (Table.cells t) = (Table.cells t, Ok (Some v)) ->
  v <> VNone ->
  Table.get_cell_value a k aao false t = (t, Ok v).
Proof.
  intros Hget Hv. unfold Table.get_cell_value. unfold_tbl. simpl. rewrite Hget. simpl.
  rewrite decide_False by done. cbv beta. by destruct t.
Qed.

(** [all_keys_for_address] at a date that is a key of [dates_keys]. *)
Lemma all_keys_for_address_seen (a : CellAddr) (t : Table.Table) (keys : gset CellKey) :
  DateSet.dates_keys (Table.ds t) !! date a = Some keys ->
  Table.all_keys_for_address a t = (t, Ok keys).
Proof.
  intros H. unfold Table.all_keys_for_address. unfold_tbl. simpl.
  rewrite H. unfold Table.dirty. simpl. by rewrite H.
Qed.

(** The cells that [Table.add_column] marks: one for every date that is a
    key of [dates_keys]. *)
Definition column_cells (name : ColumnName) (t : Table.Table) : gset CellAddr :=
  set_map (fun d => mkCellAddr d name) (dom (DateSet.dates_keys (Table.ds t))).

Lemma marked_column_cells (name c : ColumnName) (t : Table.Table) :
  (list_to_set
     (filter (fun a => col a = c)
        ((fun d => mkCellAddr d name) <$>
           (map_to_list (DateSet.dates_keys (Table.ds t))).*1)) : gset CellAddr) =
  if decide (c = name) then column_cells name t else ∅.
Proof.
  apply set_eq. intros x.
  rewrite elem_of_list_to_set, list_elem_of_filter, list_elem_of_fmap.
  split.
  - intros (Hc & d & -> & Hd). simpl in Hc. subst c. rewrite decide_True by done.
    apply elem_of_map. exists d. split; [done|].
    apply list_elem_of_fmap in Hd as ([d' ks] & -> & Hd). simpl.
    apply elem_of_map_to_list in Hd. apply elem_of_dom. by eexists.
  - case_decide as Hc; [|by intros ?%elem_of_empty]. subst c.
    intros (d & -> & Hd)%elem_of_map. split; [done|]. exists d. split; [done|].
    apply elem_of_dom in Hd as [ks Hd]. apply list_elem_of_fmap. exists (d, ks).
    split; [done|]. by apply elem_of_map_to_list.
Qed.

Lemma table_add_column_eq (column : Column) (t : Table.Table) :
  Table.add_column column t =
  if Table.readonly t then (t, Raise (PermissionError "Cannot modify a readonly."))
  else
    let r := ColumnManager.add_column column (Table.cm t) in
    match r.2 with
    | Raise e => (Table.set_cm r.1 t, Raise e)
    | Ok _ =>
        (mark_all ((fun d => mkCellAddr d (name column)) <$>
                     (map_to_list (DateSet.dates_keys (Table.ds t))).*1)
           (Table.set_cm r.1 t), Ok tt)
    end.
Proof.
  unfold Table.add_column. unfold_tbl. destruct (Table.readonly t); [done|]. simpl.
  destruct (ColumnManager.add_column column (Table.cm t)) as [cm1 [n|e]]; simpl; [|done].
  rewrite <- for_each_mark. by rewrite !for_each_fmap.
Qed.

End TableMore.

(** ** derived_columns.py *)

Module WaterfallMore.
Import SnapshotMaster Waterfall PageMaster PageMasterFacts DictFacts.

(** A snapshot that [set_date_value] has written is read back. *)
Lemma get_after_set_date_value (pm pm1 : PageMaster Snapshot) (date : Date)
    (value : Snapshot) :
  1 <= cache_size pm -> set_date_value date value pm = (pm1, Ok tt) ->
  get_date_value date pm1 = (pm1, Ok (Some value)).
Proof.
  intros HC. unfold set_date_value, get_date_value. unfold_py.
  destruct (_get_page date pm) as [pm' [l|e]] eqn:Hp; [|done].
  unfold page_setitem. destruct (deref pm' l) as [d|] eqn:Hd; [|done].
  intros [= <-].
  destruct (_get_page_front _ _ _ _ HC Hp) as [rest Hc].
  erewrite get_value_at_front.
  - by rewrite lookup_insert_eq.
  - exact Hc.
  - unfold deref. simpl. by rewrite lookup_insert_eq.
Qed.

Lemma set_date_value_readonly_files (date : Date) (value : Snapshot)
    (pm : PageMaster Snapshot) :
  readonly pm = true -> files (set_date_value date value pm).1 = files pm.
Proof.
  intros Hro. unfold set_date_value. unfold_py.
  pose proof (PageMasterContents._get_page_readonly_files pm date Hro) as Hf.
  destruct (_get_page date pm) as [pm' [l|e]]; simpl in *; [|done].
  unfold page_setitem. by destruct (deref pm' l).
Qed.

Lemma _save_snapshot_eq (date : Date) (snapshot : Snapshot) (e : Env) :
  _save_snapshot date snapshot e =
  let e1 := set_snapshot_dates
              (DateSet.push_date date CellHeader.SNAPSHOT_KEY (snapshot_dates (self e))).1 e in
  let r := set_date_value date snapshot (snapshot_master (self e)) in
  (set_snapshot_master r.1 e1, r.2).
Proof.
  unfold _save_snapshot, on_snapshot_master, zoom.
  unfold mbind, M_bind, bind, modify. done.
Qed.

(** [refresh] does nothing on a read-only column, and otherwise begins with
    [refresh_start]. *)
Lemma refresh_readonly (e : Env) :
  Waterfall.readonly (self e) = true -> refresh e = (e, Ok tt).
Proof.
  intros H. unfold refresh. unfold mbind at 1, M_bind at 1, bind at 1, gets at 1.
  simpl. by rewrite H.
Qed.

Lemma refresh_start_raises (e e1 : Env) (ex : exn) :
  Waterfall.readonly (self e) = false -> refresh_start e = (e1, Raise ex) ->
  refresh e = (e1, Raise ex).
Proof.
  intros H Hs. unfold refresh. unfold mbind at 1, M_bind at 1, bind at 1, gets at 1.
  simpl. rewrite H. unfold mbind at 1, M_bind at 1, bind at 1. by rewrite Hs.
Qed.

(** Registering a derived column as a dependent of the columns it
    requires. *)
Definition with_dependent (name : ColumnName) (column : Column) : Column :=
  mkColumn (CellHeader.name column) ({[name]} ∪ _column_dependencies column)
    (class column).

Lemma add_dependency_registered (col name : ColumnName) (column : Column)
    (cm : ColumnManager.ColumnManager) :
  dict_get (ColumnManager._columns cm) col = Some column ->
  ColumnManager.add_dependency col name cm =
  (ColumnManager.mkColumnManager (ColumnManager.prefix cm)
     (dict_set (ColumnManager._columns cm) col (with_dependent name column))
     (ColumnManager.dependency_graph cm)
     ({[col]} ∪ ColumnManager.save_needed cm) (ColumnManager.refresh_order cm),
   Ok tt).
Proof.
  intros Hget. unfold ColumnManager.add_dependency, ColumnManager.get_column.
  unfold_py. simpl. by rewrite Hget.
Qed.

Lemma add_dependency_missing (col name : ColumnName) (cm : ColumnManager.ColumnManager) :
  dict_get (ColumnManager._columns cm) col = None ->
  ColumnManager.add_dependency col name cm =
  (ColumnManager.mark_save_needed col cm, Raise (DictKeyError col)).
Proof.
  intros Hget. unfold ColumnManager.add_dependency, ColumnManager.get_column.
  unfold_py. simpl. by rewrite Hget.
Qed.

(** Column [c] is registered with [name] among its dependents. *)
Definition has_dependent (name : ColumnName) (cm : ColumnManager.ColumnManager)
    (c : ColumnName) : Prop :=
  exists column, dict_get (ColumnManager._columns cm) c = Some column /\
                 name ∈ dependencies column.

(** What the loop over the required columns keeps and what it reaches. *)
Record registered_in (name : ColumnName) (t t1 : Table.Table) : Prop := {
  ri_prefix : Table.prefix t1 = Table.prefix t;
  ri_readonly : Table.readonly t1 = Table.readonly t;
  ri_cells : Table.cells t1 = Table.cells t;
  ri_ds : Table.ds t1 = Table.ds t;
  ri_need : Table.need_refresh t1 = Table.need_refresh t;
  ri_calls : Table.key_init_calls t1 = Table.key_init_calls t;
  ri_keys : (ColumnManager._columns (Table.cm t1)).*1
            = (ColumnManager._columns (Table.cm t)).*1;
  ri_graph : ColumnManager.dependency_graph (Table.cm t1)
             = ColumnManager.dependency_graph (Table.cm t);
  ri_order : ColumnManager.refresh_order (Table.cm t1)
             = ColumnManager.refresh_order (Table.cm t);
  ri_kept : forall c, has_dependent name (Table.cm t) c ->
                      has_dependent name (Table.cm t1) c
}.

Lemma registered_in_refl name t : registered_in name t t.
Proof. by split. Qed.

Lemma registered_in_trans name t1 t2 t3 :
  registered_in name t1 t2 -> registered_in name t2 t3 -> registered_in name t1 t3.
Proof.
  intros [A1 A2 A3 A4 A5 A6 A7 A8 A9 A10] [B1 B2 B3 B4 B5 B6 B7 B8 B9 B10].
  split; try congruence. auto.
Qed.

Lemma register_one (name col : ColumnName) (t : Table.Table) :
  col ∈ (ColumnManager._columns (Table.cm t)).*1 ->
  exists t1,
    Table.on_cm (ColumnManager.add_dependency col name) t = (t1, Ok tt) /\
    registered_in name t t1 /\ has_dependent name (Table.cm t1) col.
Proof.
  intros Hin.
  destruct (dict_get (ColumnManager._columns (Table.cm t)) col) as [column|] eqn:Hget.
  2:{ by apply dict_get_None in Hget. }
  eexists. split_and!.
  - unfold Table.on_cm, zoom. rewrite (add_dependency_registered col name column _ Hget).
    reflexivity.
  - split; simpl; try done.
    + rewrite dict_set_keys. by rewrite decide_True.
    + intros c (column' & Hc & Hdep). unfold has_dependent. simpl.
      destruct (decide (col = c)) as [<-|Hne].
      * exists (with_dependent name column). split; [apply dict_get_set_eq|].
        apply elem_of_union_l. by apply elem_of_singleton.
      * exists column'. split; [by rewrite dict_get_set_ne|done].
  - unfold has_dependent. simpl.
    exists (with_dependent name column). split; [apply dict_get_set_eq|].
    apply elem_of_union_l. by apply elem_of_singleton.
Qed.

Lemma register_all (name : ColumnName) (required_columns : list ColumnName)
    (t : Table.Table) :
  Forall (fun c => c ∈ (ColumnManager._columns (Table.cm t)).*1) required_columns ->
  exists t1,
    for_each required_columns
      (fun col => Table.on_cm (ColumnManager.add_dependency col name)) t = (t1, Ok tt) /\
    registered_in name t t1 /\
    forall c, c ∈ required_columns -> has_dependent name (Table.cm t1) c.
Proof.
  revert t. induction required_columns as [|col rest IH]; intros t Hall.
  - exists t. split_and!; [done|apply registered_in_refl|].
    intros c Hc. by apply elem_of_nil in Hc.
  - apply Forall_cons in Hall as [Hcol Hrest].
    destruct (register_one name col t Hcol) as (t1 & Hstep & Hri & Hdep).
    destruct (IH t1) as (t2 & Hrun & Hri2 & Hdeps).
    { rewrite (ri_keys _ _ _ Hri). exact Hrest. }
    exists t2. split_and!.
    + rewrite TableFacts.for_each_cons, Hstep. exact Hrun.
    + by eapply registered_in_trans.
    + intros c Hc. apply elem_of_cons in Hc as [->|Hc]; [|by apply Hdeps].
      by apply (ri_kept _ _ _ Hri2).
Qed.


Lemma dict_get_app_l {A} (d d' : list (string * A)) (k : string) (v : A) :
  dict_get d k = Some v -> dict_get (d ++ d') k = Some v.
Proof.
  induction d as [|[k' v'] d IH]; simpl; [done|].
  destruct (decide (k' = k)); [done|]. apply IH.
Qed.

(** The loops [snapshot[k] += v] and [snapshot[k] -= v] over the items of
    an increment. *)
Lemma total_fold (op : Z -> Z -> Z) (snapshot : Snapshot) (items : list (Value * Z))
    (k : Value) :
  NoDup items.*1 ->
  total (foldr (fun kv s => <[kv.1 := op (total s kv.1) kv.2]> s) snapshot items) k =
  match (list_to_map items : gmap Value Z) !! k with
  | Some v => op (total snapshot k) v
  | None => total snapshot k
  end.
Proof.
  unfold Snapshot in *. induction items as [|[k0 v0] items IH]; intros Hnd.
  - done.
  - rewrite fmap_cons in Hnd. apply NoDup_cons in Hnd as [Hk0 Hnd].
    cbn [foldr list_to_map fst snd]. unfold total at 1. unfold Snapshot.
    destruct (decide (k0 = k)) as [->|Hne].
    + rewrite !lookup_insert_eq. cbn [default]. rewrite IH by done.
      cbn [fst] in Hk0. by rewrite (not_elem_of_list_to_map_1 _ _ Hk0).
    + rewrite !lookup_insert_ne by done. by apply IH.
Qed.

Lemma total_snapshot_add (snapshot increment : Snapshot) (k : Value) :
  total (snapshot_add snapshot increment) k = total snapshot k + total increment k.
Proof.
  unfold snapshot_add. rewrite (total_fold Z.add) by apply NoDup_fst_map_to_list.
  unfold Snapshot in *. rewrite list_to_map_to_list. unfold total. unfold Snapshot.
  destruct (increment !! k); simpl; lia.
Qed.

Lemma total_snapshot_sub (snapshot increment : Snapshot) (k : Value) :
  total (snapshot_sub snapshot increment) k = total snapshot k - total increment k.
Proof.
  unfold snapshot_sub. rewrite (total_fold Z.sub) by apply NoDup_fst_map_to_list.
  unfold Snapshot in *. rewrite list_to_map_to_list. unfold total. unfold Snapshot.
  destruct (increment !! k); simpl; lia.
Qed.

End WaterfallMore.

(** ** derived_columns.py: [_calculate_f] *)

Module SimpleFormulaFacts.
Import SimpleFormula PageMasterContents TableFacts.

(** The value that the cell store holds for a cell and key. *)
Definition cell (t : Table.Table) (a : CellAddr) (k : CellKey) : option Value :=
  content (Table.cells t) (PageMaster._addr_to_page a) (PageMaster._addr_key a k).

(** Tables that hold the same cells and differ in where the pages of the
    cell store are kept only. *)
Record same_cells (t t' : Table.Table) : Prop := {
  sc_usable : usable (Table.cells t');
  sc_content : forall p k, content (Table.cells t') p k = content (Table.cells t) p k;
  sc_prefix : Table.prefix t' = Table.prefix t;
  sc_readonly : Table.readonly t' = Table.readonly t;
  sc_cm : Table.cm t' = Table.cm t;
  sc_ds : Table.ds t' = Table.ds t;
  sc_need : Table.need_refresh t' = Table.need_refresh t;
  sc_calls : Table.key_init_calls t' = Table.key_init_calls t
}.

Lemma same_cells_refl t : usable (Table.cells t) -> same_cells t t.
Proof. intros H. by split. Qed.

Lemma same_cells_trans t1 t2 t3 :
  same_cells t1 t2 -> same_cells t2 t3 -> same_cells t1 t3.
Proof.
  intros [A1 A2 A3 A4 A5 A6 A7 A8] [B1 B2 B3 B4 B5 B6 B7 B8].
  split; [done|intros p k; by rewrite B2, A2|congruence..].
Qed.

(** Reading a cell that holds a value other than [None]. *)
Lemma get_cell_value_held (a : CellAddr) (k : CellKey) (aao : Date) (v : Value)
    (t : Table.Table) :
  usable (Table.cells t) -> cell t a k = Some v -> v <> VNone ->
  exists t', Table.get_cell_value a k aao false t = (t', Ok v) /\ same_cells t t'.
Proof.
  intros Hu Hcell Hv. pose proof Hu as (Hro & HC & Hs).
  destruct (get_value_contents (Table.cells t) a k Hro HC Hs) as (Hr & Hs' & Hsame).
  pose proof (PageMasterFacts.get_value_keeps (Table.cells t) a k) as [Hk1 Hk2].
  fold (cell t a k) in Hr. rewrite Hcell in Hr.
  exists (Table.set_cells (PageMaster.get_value a k (Table.cells t)).1 t). split.
  - unfold Table.get_cell_value. unfold_tbl. simpl. rewrite Hr. simpl.
    by rewrite decide_False by done.
  - split; simpl; try done.
    + split_and!; [by rewrite Hk1|by rewrite Hk2|done].
    + intros p k'. unfold content. by rewrite Hsame.
Qed.



End SimpleFormulaFacts.

(** ** The pages and keys of cells *)

Module CellMasterFacts.
Import Stdlib.Strings.Ascii PageMaster PageMasterContents.

(** Every character of the string satisfies [P]. *)
Fixpoint all_chars (P : ascii -> bool) (s : string) : bool :=
  match s with
  | EmptyString => true
  | String c s => P c && all_chars P s
  end.

Definition digit (c : ascii) : bool :=
  bool_decide (c ∈ ["0"; "1"; "2"; "3"; "4"; "5"; "6"; "7"; "8"; "9"]%char).

(** The characters of [str] of an integer. *)
Definition numeric (c : ascii) : bool := digit c || bool_decide (c = "-"%char).

Lemma all_chars_impl (P Q : ascii -> bool) (s : string) :
  (forall c, P c = true -> Q c = true) -> all_chars P s = true -> all_chars Q s = true.
Proof.
  intros HPQ. induction s as [|c s IH]; simpl; [done|].
  intros [H1 H2]%andb_prop. rewrite (HPQ c H1). simpl. by apply IH.
Qed.

(** Two strings that agree are cut alike at the first character that is not
    of the class [P]. *)
Lemma first_sep (P : ascii -> bool) (sep : ascii) (s1 s2 r1 r2 : string) :
  all_chars P s1 = true -> all_chars P s2 = true -> P sep = false ->
  s1 +:+ String sep r1 = s2 +:+ String sep r2 -> s1 = s2 /\ r1 = r2.
Proof.
  intros H1 H2 Hsep. revert s2 H2.
  induction s1 as [|c s1 IH]; intros [|c' s2] H2; simpl in *.
  - by intros [= ->].
  - intros [= <- _]. apply andb_prop in H2 as [H2 _]. congruence.
  - intros [= -> _]. apply andb_prop in H1 as [H1 _]. congruence.
  - apply andb_prop in H1 as [_ H1]. apply andb_prop in H2 as [_ H2].
    intros [= -> Heq]. destruct (IH H1 s2 H2 Heq) as [-> ->]. done.
Qed.

Lemma append_assoc_r (a b c : string) : (a +:+ b) +:+ c = a +:+ (b +:+ c).
Proof.
  induction a as [|x a IH]; [done|].
  change (String x ((a +:+ b) +:+ c) = String x (a +:+ (b +:+ c))). by f_equal.
Qed.

Lemma pretty_N_go_digits (x : N) (s : string) :
  all_chars digit s = true -> all_chars digit (pretty_N_go x s) = true.
Proof.
  revert s. induction (N.lt_wf_0 x) as [x _ IH]. intros s Hs.
  assert (x = 0 \/ 0 < x)%N as [->|Hpos] by lia; [by rewrite pretty_N_go_0|].
  rewrite pretty_N_go_step by done. apply IH; [by apply N.div_lt|].
  simpl. rewrite Hs. unfold pretty_N_char. by repeat case_match.
Qed.

Lemma pretty_N_go_nonempty (x : N) (s : string) :
  s <> EmptyString -> pretty_N_go x s <> EmptyString.
Proof.
  revert s. induction (N.lt_wf_0 x) as [x _ IH]. intros s Hs.
  assert (x = 0 \/ 0 < x)%N as [->|Hpos] by lia; [by rewrite pretty_N_go_0|].
  rewrite pretty_N_go_step by done. apply IH; [by apply N.div_lt|done].
Qed.

Lemma pretty_N_digits (x : N) :
  all_chars digit (pretty x) = true /\ pretty x <> EmptyString.
Proof.
  unfold pretty, pretty_N. case_decide as Hx; [done|]. split.
  - by apply pretty_N_go_digits.
  - assert (0 < x)%N as Hpos by lia. rewrite pretty_N_go_step by done.
    by apply pretty_N_go_nonempty.
Qed.

(** [str] of an integer: digits, after a dash when it is negative. *)
Lemma pretty_Z_shape (z : Z) :
  (0 <= z /\ all_chars digit (pretty z) = true /\ pretty z <> EmptyString) \/
  (z < 0 /\ exists s, pretty z = String "-" s /\ all_chars digit s = true).
Proof.
  destruct z as [|p|p].
  - left. by split_and!.
  - left. destruct (pretty_N_digits (Npos p)) as [H1 H2]. split_and!; [lia|done|done].
  - right. split; [lia|]. exists (pretty (Npos p)). split; [done|].
    apply pretty_N_digits.
Qed.

Lemma pretty_Z_numeric (z : Z) : all_chars numeric (pretty z) = true.
Proof.
  assert (forall s, all_chars digit s = true -> all_chars numeric s = true) as Hd.
  { intros s. apply all_chars_impl. intros c Hc. unfold numeric. by rewrite Hc. }
  destruct (pretty_Z_shape z) as [(_ & H & _)|(_ & s & -> & H)]; [by apply Hd|].
  simpl. by apply Hd.
Qed.

(** A numeral followed by a dash and a text is read in one way only. *)
Lemma pretty_dash_inj (n n' : Z) (c c' : string) :
  pretty n +:+ "-" +:+ c = pretty n' +:+ "-" +:+ c' -> n = n' /\ c = c'.
Proof.
  assert (digit "-" = false) as Hdash by done.
  intros Heq.
  destruct (pretty_Z_shape n) as [(_ & H & Hne)|(_ & s & Hs & H)],
           (pretty_Z_shape n') as [(_ & H' & Hne')|(_ & s' & Hs' & H')].
  - destruct (first_sep digit "-" _ _ _ _ H H' Hdash Heq) as [Hp ->].
    split; [|done]. by apply (inj pretty).
  - rewrite Hs' in Heq. destruct (pretty n) as [|ch s0]; [done|].
    simpl in *. injection Heq as -> _. by apply andb_prop in H as [? _].
  - rewrite Hs in Heq. destruct (pretty n') as [|ch s0]; [done|].
    simpl in *. injection Heq as <- _. by apply andb_prop in H' as [? _].
  - pose proof Heq as Heq'. rewrite Hs, Hs' in Heq'. simpl in Heq'.
    injection Heq' as Heq'.
    destruct (first_sep digit "-" _ _ _ _ H H' Hdash Heq') as [Hp ->].
    split; [|done]. apply (inj pretty). by rewrite Hs, Hs', Hp.
Qed.

(** Cells share a page exactly when they are of one month and one column. *)
Lemma same_page_iff (a a' : CellAddr) :
  _addr_to_page a = _addr_to_page a' <->
  date a `div` 100 = date a' `div` 100 /\ col a = col a'.
Proof.
  split.
  - simpl. apply pretty_dash_inj.
  - simpl. by intros [-> ->].
Qed.

(** On one page the keys of distinct cells are distinct. *)
Lemma slot_inj (a a' : CellAddr) (k k' : CellKey) :
  _addr_to_page a = _addr_to_page a' -> _addr_key a k = _addr_key a' k' ->
  a = a' /\ k = k'.
Proof.
  intros [_ Hcol]%same_page_iff. destruct a as [d c], a' as [d' c'].
  simpl in Hcol. subst c'.
  unfold _addr_key. simpl. unfold CellAddr_str. simpl.
  intros Hkey. injection Hkey as Hkey.
  rewrite !append_assoc_r in Hkey. simpl in Hkey.
  destruct (first_sep numeric "," _ _ _ _ (pretty_Z_numeric d) (pretty_Z_numeric d')
              eq_refl Hkey) as [Hd Hrest].
  apply (inj pretty) in Hd as ->. split; [done|].
  injection Hrest as Hrest. apply append_inj_r in Hrest.
  by injection Hrest.
Qed.

(** The cells of a table after a write to the store. *)
Lemma set_value_cells (pm pm1 : PageMaster Value) (a : CellAddr) (k : CellKey)
    (v : Value) :
  usable pm -> set_value a k v pm = (pm1, Ok tt) ->
  usable pm1 /\
  forall a' k', content pm1 (_addr_to_page a') (_addr_key a' k')
                = if decide (a' = a /\ k' = k) then Some v
                  else content pm (_addr_to_page a') (_addr_key a' k').
Proof.
  intros Hu Hset.
  pose proof (step_usable (PageMasterFacts.OpSet a k v) pm Hu) as Hu1.
  assert (PageMasterFacts.step (PageMasterFacts.OpSet a k v) pm = pm1) as Hstep.
  { unfold PageMasterFacts.step, PageMasterFacts.run_op. unfold mbind, M_bind, bind.
    by rewrite Hset. }
  rewrite Hstep in Hu1. split; [done|].
  destruct Hu as (Hro & HC & Hs).
  pose proof (set_value_contents pm a k v Hro HC Hs) as (_ & Hc).
  rewrite Hset in Hc. cbn [fst snd] in Hc.
  intros a' k'. unfold content.
  destruct (page_object pm (_addr_to_page a)) as [[d|]|] eqn:Hobj;
    [|by destruct Hc|by destruct Hc].
  destruct Hc as [_ Hc]. rewrite Hc.
  destruct (decide (_addr_to_page a' = _addr_to_page a)) as [Hp|Hp].
  - rewrite Hp, Hobj.
    destruct (decide (_addr_key a' k' = _addr_key a k)) as [Hk|Hk].
    + destruct (slot_inj a' a k' k Hp Hk) as [-> ->].
      rewrite decide_True by done. by rewrite lookup_insert_eq.
    + rewrite lookup_insert_ne by done.
      rewrite decide_False; [done|]. by intros [-> ->].
  - rewrite decide_False; [done|]. by intros [-> _].
Qed.

End CellMasterFacts.

(** * The properties of the specification *)

(** C1 fails on the code: the reference scenario of the windowed
    aggregation.  With rows at the dates 10000 to 60000 for the label "X",
    the values 1, 20, 300, 4000 and 50000 at the first five dates and none
    at 60000, and a window of three years, [refresh] does not complete: it
    writes the cells 0, 1, 21, 321, 4320 and 54300 of the Waterfall column
    and then, adding up the row of 60000, reads the cell without a value and
    raises the [NameError] of [get_cell_value]; so it is with the boundaries
    of the tests' [MockWaterfall] as with the quarter starts of
    [Waterfall]. *)
Theorem waterfall_expiry_refresh_raises :
  let written :=
    [(10000, Ok (VInt 0)); (20000, Ok (VInt 1)); (30000, Ok (VInt 21));
     (40000, Ok (VInt 321)); (50000, Ok (VInt 4320)); (60000, Ok (VInt 54300))] in
  let dates := [10000; 20000; 30000; 40000; 50000; 60000] in
  let cells := fun r : Waterfall.Env * result unit =>
                 (fun d => (d, Scenarios.wf_cell "row_1" r.1 d)) <$> dates in
  let mock := Scenarios.expiry_setup "row_1" Scenarios.MockWaterfall_date_to_snapshot_date in
  let own := Scenarios.expiry_setup "row_1" Waterfall._date_to_snapshot_date in
  snd <$> Scenarios.refresh_outcome mock
    = Some (Raise (NameError "name 'NoneClass' is not defined")) /\
  Scenarios.refreshed mock = None /\
  cells <$> Scenarios.refresh_outcome mock = Some written /\
  snd <$> Scenarios.refresh_outcome own
    = Some (Raise (NameError "name 'NoneClass' is not defined")) /\
  Scenarios.refreshed own = None /\
  cells <$> Scenarios.refresh_outcome own = Some written /\
  (fun r : Waterfall.Env * result unit =>
     (Table.get_cell_value_default (mkCellAddr 60000 "Points1") "row_1"
        (Waterfall.table r.1)).2) <$> Scenarios.refresh_outcome mock
    = Some (Raise (NameError "name 'NoneClass' is not defined")).
Proof. split_and!; vm_compute; reflexivity. Qed.

(** C5, as the code has it: in the reference scenario of the checkpoints
    (values 1, 20, 300, 4000, 50000 and 600000 at the dates 50000, 150000,
    180000, 220000, 250000 and 300000 for the label "X", a window of a hundred
    years) a column that rounds dates down to multiples of 100000, as the
    tests' [MockWaterfall] does, records exactly the checkpoint dates 0,
    100000, 200000 and 300000 with the snapshots {"X": 1}, {"X": 321} and
    {"X": 54321} at the last three; [Waterfall] itself takes its checkpoints
    at quarter starts, which are the dates 49801, 149801, 179801, 219801,
    249801 and 299801 here. *)
Theorem snapshot_checkpoint_scenario :
  Scenarios.checkpoints_after_refresh
    (Scenarios.snapshot_setup "row_1" Scenarios.MockWaterfall_date_to_snapshot_date)
    [0; 100000; 200000; 300000] =
  Some ([0; 100000; 200000; 300000],
        [(0, Ok (Some []));
         (100000, Ok (Some [(VStr "X", 1)]));
         (200000, Ok (Some [(VStr "X", 321)]));
         (300000, Ok (Some [(VStr "X", 54321)]))]) /\
  Scenarios.checkpoints_after_refresh
    (Scenarios.snapshot_setup "row_1" Waterfall._date_to_snapshot_date)
    [49801; 149801; 179801; 219801; 249801; 299801] =
  Some ([49801; 149801; 179801; 219801; 249801; 299801],
        [(49801, Ok (Some []));
         (149801, Ok (Some [(VStr "X", 1)]));
         (179801, Ok (Some [(VStr "X", 21)]));
         (219801, Ok (Some [(VStr "X", 321)]));
         (249801, Ok (Some [(VStr "X", 4321)]));
         (299801, Ok (Some [(VStr "X", 54321)]))]).
Proof. split; vm_compute; reflexivity. Qed.

(** C5 as stated does not hold of [Waterfall]: with its own
    [_date_to_snapshot_date] the checkpoint dates of the scenario are not
    0, 100000, 200000 and 300000, and no snapshot is stored at 100000. *)
Lemma snapshot_checkpoint_quarter_starts :
  ~ (exists snapshots,
       Scenarios.checkpoints_after_refresh
         (Scenarios.snapshot_setup "row_1" Waterfall._date_to_snapshot_date)
         [100000; 200000; 300000] =
       Some ([0; 100000; 200000; 300000], snapshots)) /\
  snd <$> Scenarios.checkpoints_after_refresh
            (Scenarios.snapshot_setup "row_1" Waterfall._date_to_snapshot_date)
            [100000; 200000; 300000] =
  Some [(100000, Ok None); (200000, Ok None); (300000, Ok None)].
Proof.
  split; [|vm_compute; reflexivity].
  intros [snapshots H]. vm_compute in H. discriminate H.
Qed.


(** C8: [get_value] never raises.  Whatever the cache and the files hold,
    it returns; and when getting the page or looking the key up fails inside,
    what it returns is [None]. *)
Theorem get_value_never_raises {Addr V : Type} `{!PageMaster.Paging Addr}
    (pm : PageMaster.PageMaster V) (addr : Addr) (key : string) :
  exists r, (PageMaster.get_value addr key pm).2 = Ok r /\
    forall e,
      ((page ← PageMaster._get_page addr ;
        PageMaster.page_get page (PageMaster._addr_key addr key)) pm).2 = Raise e ->
      r = None.
Proof.
  unfold PageMaster.get_value, try_except. unfold mbind, M_bind, bind.
  destruct (PageMaster._get_page addr pm) as [pm1 [l|e]]; simpl.
  - destruct (PageMaster.page_get l _ pm1) as [pm2 [r|e]]; simpl.
    + exists r. by split.
    + exists None. by split.
  - exists None. by split.
Qed.

(** The failures inside [get_value], one by one: a file that cannot be read
    back, a file that holds no dict, and a page that cannot be evicted. *)
Example get_value_unreadable_file :
  let pm := CellMaster.__init__ "p" 80 false
              {[PageMaster.full_path (CellMaster.__init__ "p" 80 false ∅) "201101-c"
                  := PageMaster.Unreadable]} in
  (PageMaster._get_page (mkCellAddr 20110101 "c") pm).2 = Raise UnpicklingError /\
  (PageMaster.get_value (mkCellAddr 20110101 "c") "k" pm).2 = Ok None.
Proof. split; vm_compute; reflexivity. Qed.

Example get_value_malformed_page :
  let pm := CellMaster.__init__ "p" 80 false
              {[PageMaster.full_path (CellMaster.__init__ "p" 80 false ∅) "201101-c"
                  := PageMaster.Pickled PageMaster.PyOther]} in
  (PageMaster.get_value (mkCellAddr 20110101 "c") "k" pm).2 = Ok None.
Proof. vm_compute; reflexivity. Qed.

(** C6 as stated does not hold of a read-only store: with capacity 1, the
    second of two reads of different pages cannot evict (saving the page
    raises the [PermissionError], which [get_value] swallows), and the cache
    is left with two pages. *)
Lemma readonly_cache_overflow :
  let pm0 := CellMaster.__init__ "p" 1 true ∅ in
  let pm1 := (PageMaster.get_value (mkCellAddr 20110101 "c") "k" pm0).1 in
  let pm2 := (PageMaster.get_value (mkCellAddr 20110202 "c") "k" pm1).1 in
  PageMaster.cache_size pm2 = 1 /\
  PageMaster.resident pm2 = ["201102-c"; "201101-c"] /\
  ~ (Z.of_nat (length (PageMaster.cache pm2)) <= PageMaster.cache_size pm2) /\
  PageMaster.files pm2 = ∅.
Proof.
  split_and!; try (vm_compute; reflexivity).
  vm_compute. intros H. by apply H.
Qed.

(** With capacity 0 a page is evicted as soon as it is loaded, and what
    [set_value] then writes into it reaches neither cache nor file. *)
Example zero_capacity_write_lost :
  let pm0 := CellMaster.__init__ "p" 0 false ∅ in
  let a := mkCellAddr 20110101 "c" in
  let pm1 := (PageMaster.set_value a "k" (VInt 7) pm0).1 in
  (PageMaster.set_value a "k" (VInt 7) pm0).2 = Ok tt /\
  PageMaster.cache pm1 = [] /\
  PageMaster.files pm1 !! PageMaster.full_path pm0 "201101-c"
    = Some (PageMaster.Pickled (PageMaster.PyDict ∅)) /\
  (PageMaster.get_value a "k" pm1).2 = Ok None.
Proof. split_and!; vm_compute; reflexivity. Qed.

(** C6, as the code has it: on a store that is not read-only and has a
    capacity of at least 1, after any sequence of [get_value] and [set_value]
    from an empty cache the cache holds the pages used, each once, latest use
    first, cut at the capacity.  An operation that does not get its page
    leaves the store as it is; one that does moves its page to the front and
    keeps the order of the others.  When the page is new and the cache full,
    exactly the last page of the cache (the least recently used one) is
    dropped, and its file then holds the object the page had in memory; in
    every other case no file is written and no page leaves the cache. *)
Theorem lru_cache_writable {Addr V : Type} `{!PageMaster.Paging Addr}
    (pm0 : PageMaster.PageMaster V) (ops : list (PageMasterFacts.Op Addr V))
    (op : PageMasterFacts.Op Addr V) :
  PageMaster.readonly pm0 = false ->
  1 <= PageMaster.cache_size pm0 ->
  PageMaster.cache pm0 = [] ->
  let C := Z.to_nat (PageMaster.cache_size pm0) in
  let pm := (PageMasterFacts.run_log ops pm0 []).1 in
  let log := (PageMasterFacts.run_log ops pm0 []).2 in
  let pm' := PageMasterFacts.step op pm in
  let p := PageMasterFacts.op_page op in
  PageMaster.resident pm = take C (PageMasterFacts.mru_order log) /\
  NoDup (PageMaster.resident pm) /\
  (length (PageMaster.cache pm) <= C)%nat /\
  (PageMasterFacts.loads op pm = false -> pm' = pm) /\
  (PageMasterFacts.loads op pm = true ->
   PageMaster.resident pm' =
   take C (p :: filter (fun q => q <> p) (PageMaster.resident pm))) /\
  (PageMasterFacts.loads op pm = true -> p ∉ PageMaster.resident pm ->
   length (PageMaster.cache pm) = C ->
   exists q lq,
     last (PageMaster.cache pm) = Some (q, lq) /\
     PageMaster.cache pm' =
       (p, fresh (dom (PageMaster.heap pm))) :: removelast (PageMaster.cache pm) /\
     PageMaster.files pm' =
       <[PageMaster.full_path pm q := PageMaster.Pickled (PageMaster.deref pm' lq)]>
         (PageMaster.files pm) /\
     PageMaster.deref pm' lq = PageMaster.deref pm lq) /\
  (PageMasterFacts.loads op pm = true ->
   p ∈ PageMaster.resident pm \/ (length (PageMaster.cache pm) < C)%nat ->
   PageMaster.files pm' = PageMaster.files pm /\
   forall q, q ∈ PageMaster.resident pm -> q ∈ PageMaster.resident pm').
Proof.
  intros Hro HC Hempty C pm log pm' p.
  pose proof (PageMasterFacts.lru_state_run pm0 ops pm0 [] HC
                (PageMasterFacts.lru_state_init pm0 Hro Hempty)) as Hst.
  fold pm log in Hst.
  destruct (PageMasterFacts.lru_state_bounds _ _ _ Hst) as [Hnd Hlen].
  destruct Hst as [Hro' Hsz Hpre Hwf Hord].
  assert (PageMasterFacts.capacity pm = C) as HCeq
    by (unfold PageMasterFacts.capacity; by rewrite Hsz).
  assert (1 <= PageMaster.cache_size pm) as HC' by lia.
  pose proof (PageMasterFacts.step_facts_holds op pm Hro' HC' Hnd Hlen) as Hsf.
  rewrite HCeq in Hlen.
  split_and!; [done|done|done| | | |].
  - apply (PageMasterFacts.sf_idle _ _ _ Hsf).
  - intros Hl. rewrite <- HCeq. by apply (PageMasterFacts.sf_order _ _ _ Hsf).
  - intros Hl Hp Hfull. rewrite <- HCeq in Hfull.
    by apply (PageMasterFacts.sf_evict _ _ _ Hsf).
  - intros Hl Hcase. rewrite <- HCeq in Hcase.
    by apply (PageMasterFacts.sf_keep _ _ _ Hsf).
Qed.

(** A store of capacity 2 after the pages of January, February and March
    have been written: the theorem at a fourth write, of April. *)
Lemma lru_cache_writable_witness :
  let pm0 := CellMaster.__init__ "test_prefix" 2 false ∅ in
  let ops := [PageMasterFacts.OpSet (mkCellAddr 20110101 "c") "k" (VInt 1);
              PageMasterFacts.OpSet (mkCellAddr 20110202 "c") "k" (VInt 2);
              PageMasterFacts.OpGet (mkCellAddr 20110101 "c") "k";
              PageMasterFacts.OpSet (mkCellAddr 20110303 "c") "k" (VInt 3)] in
  let pm := (PageMasterFacts.run_log ops pm0 []).1 in
  PageMaster.readonly pm0 = false /\ 1 <= PageMaster.cache_size pm0 /\
  PageMaster.cache pm0 = [] /\
  PageMaster.resident pm =
    take 2 (PageMasterFacts.mru_order (PageMasterFacts.run_log ops pm0 []).2) /\
  PageMaster.resident pm = ["201103-c"; "201101-c"].
Proof.
  split_and!; [reflexivity|vm_compute; discriminate|reflexivity| |vm_compute; reflexivity].
  refine (proj1 (lru_cache_writable (CellMaster.__init__ "test_prefix" 2 false ∅) _
            (PageMasterFacts.OpSet (mkCellAddr 20110404 "c") "k" (VInt 4)) _ _ _));
    [reflexivity|vm_compute; discriminate|reflexivity].
Defined.

(** ** Reading and writing cells *)

(** C3 fails on the code: [push_date] returns [None] on every path, so the
    branch of [set_cell_value] for a new key never runs.  Writing the key
    "key", never seen at date 1, to column "A" of a table with the columns
    "A" and "B" returns without a call of [key_init] and leaves the dirty
    sets of both columns empty. *)
Theorem set_cell_value_new_key_not_marked :
  let t := two_flat_columns false in
  let r := Table.set_cell_value (mkCellAddr 1 "A") "key" (VInt 100) t in
  DateSet.dates_keys (Table.ds t) !! 1 = None /\
  ColumnManager._columns (Table.cm t) =
    [("A", mkColumn "A" ∅ FlatColumn); ("B", mkColumn "B" ∅ FlatColumn)] /\
  r.2 = Ok tt /\
  DateSet.dates_keys (Table.ds r.1) !! 1 = Some {["key"]} /\
  Table.key_init_calls r.1 = [] /\
  Table.dirty r.1 "A" = ∅ /\ Table.dirty r.1 "B" = ∅ /\
  (mkCellAddr 1 "B") ∉ Table.dirty r.1 "B".
Proof.
  split_and!; try (vm_compute; reflexivity).
  assert (Table.dirty (Table.set_cell_value (mkCellAddr 1 "A") "key" (VInt 100)
            (two_flat_columns false)).1 "B" = ∅) as -> by (vm_compute; reflexivity).
  apply not_elem_of_empty.
Qed.

(** On every table: a write that returns has called no [key_init] and has
    marked the cell of each declared dependent of the written column, and
    nothing else. *)
Lemma set_cell_value_marks_dependents_only (a : CellAddr) (k : CellKey)
    (v : Value) (t t' : Table.Table) :
  Table.set_cell_value a k v t = (t', Ok tt) ->
  Table.key_init_calls t' = Table.key_init_calls t /\
  exists column,
    dict_get (ColumnManager._columns (Table.cm t)) (col a) = Some column /\
    forall c, Table.dirty t' c =
      Table.dirty t c ∪
      (if decide (c ∈ dependencies column) then {[mkCellAddr (date a) c]} else ∅).
Proof.
  intros H. split.
  - pose proof (TableFacts.set_cell_value_calls a k v t) as Hc. by rewrite H in Hc.
  - by apply (TableFacts.set_cell_value_dirty a k v).
Qed.

(** C7 fails on the code: the read of a cell for which the store has no
    value.  On a table whose cell store can be written, has a capacity of at
    least 1 and a sound cache, with the column of the cell registered and
    not a [ConstColumn], [get_cell_value] calls [key_init] and then raises
    the [NameError] for [NoneClass]: no value is returned and nothing is
    stored, so the same read right after it calls [key_init] again and
    raises again, two calls of the hook for two reads. *)
Theorem get_cell_value_miss_raises_twice (a : CellAddr) (k : CellKey)
    (assert_available_on : Date) (t : Table.Table) (column : Column) :
  PageMasterContents.usable (Table.cells t) ->
  dict_get (ColumnManager._columns (Table.cm t)) (col a) = Some column ->
  (forall const, class column <> ConstColumn const) ->
  default VNone
    (PageMasterContents.content (Table.cells t)
       (PageMaster._addr_to_page a) (PageMaster._addr_key a k)) = VNone ->
  let r1 := Table.get_cell_value a k assert_available_on CHECK_DATE_AVAILABILITY t in
  let r2 :=
    Table.get_cell_value a k assert_available_on CHECK_DATE_AVAILABILITY r1.1 in
  r1.2 = Raise (NameError "name 'NoneClass' is not defined") /\
  Table.key_init_calls r1.1 = (name column, a, k) :: Table.key_init_calls t /\
  r2.2 = Raise (NameError "name 'NoneClass' is not defined") /\
  Table.key_init_calls r2.1
    = (name column, a, k) :: (name column, a, k) :: Table.key_init_calls t /\
  (forall p k', PageMasterContents.content (Table.cells r2.1) p k'
                = PageMasterContents.content (Table.cells t) p k').
Proof.
  intros Hu Hreg Hclass Hnone r1 r2.
  assert (forall t0 : Table.Table,
            PageMasterContents.usable (Table.cells t0) ->
            default VNone
              (PageMasterContents.content (Table.cells t0)
                 (PageMaster._addr_to_page a) (PageMaster._addr_key a k)) = VNone ->
            forall v, (PageMaster.get_value a k (Table.cells t0)).2 = Ok (Some v) ->
                      v = VNone) as Hmiss.
  { intros t0 (Hro & HC & Hs) Hn v Hv.
    destruct (PageMasterContents.get_value_contents (Table.cells t0) a k Hro HC Hs)
      as (Hr & _). rewrite Hr in Hv.
    assert (PageMasterContents.content (Table.cells t0)
              (PageMaster._addr_to_page a) (PageMaster._addr_key a k) = Some v) as Hc
      by congruence.
    by rewrite Hc in Hn. }
  assert (forall t0 : Table.Table,
            PageMasterContents.usable (Table.cells t0) ->
            PageMasterContents.usable (PageMaster.get_value a k (Table.cells t0)).1 /\
            forall p k', PageMasterContents.content
                           (PageMaster.get_value a k (Table.cells t0)).1 p k'
                         = PageMasterContents.content (Table.cells t0) p k') as Hread.
  { intros t0 Hu0.
    pose proof (PageMasterContents.step_usable (PageMasterFacts.OpGet a k)
                  (Table.cells t0) Hu0) as Hu1.
    destruct Hu0 as (Hro & HC & Hs).
    destruct (PageMasterContents.get_value_contents (Table.cells t0) a k Hro HC Hs)
      as (_ & _ & Hsame).
    split; [exact Hu1|]. intros p k'. unfold PageMasterContents.content.
    by rewrite Hsame. }
  destruct (TableFacts.get_cell_value_miss a k assert_available_on
              CHECK_DATE_AVAILABILITY t column Hreg Hclass (Hmiss t Hu Hnone) eq_refl)
    as (H1 & H2 & H3 & _).
  fold r1 in H1, H2, H3.
  destruct (Hread t Hu) as [Hu1 Hc1]. rewrite <- H3 in Hu1, Hc1.
  assert (dict_get (ColumnManager._columns (Table.cm r1.1)) (col a) = Some column)
    as Hreg1.
  { pose proof (TableFacts.keeps_gate a assert_available_on CHECK_DATE_AVAILABILITY t)
      as (_ & Hg & _).
    unfold r1. rewrite TableFacts.get_cell_value_split.
    erewrite TableFacts.bind_Ok; [|by rewrite TableFacts.gate_eq].
    cbv iota.
    pose proof (TableFacts.keeps_read_or_init a k t) as (_ & Hk & _).
    simpl. by rewrite Hk. }
  assert (default VNone
            (PageMasterContents.content (Table.cells r1.1)
               (PageMaster._addr_to_page a) (PageMaster._addr_key a k)) = VNone)
    as Hnone1 by (by rewrite Hc1).
  destruct (TableFacts.get_cell_value_miss a k assert_available_on
              CHECK_DATE_AVAILABILITY r1.1 column Hreg1 Hclass
              (Hmiss r1.1 Hu1 Hnone1) eq_refl) as (G1 & G2 & G3 & _).
  fold r2 in G1, G2, G3.
  split_and!; [exact H1|exact H2|exact G1|by rewrite G2, H2|].
  intros p k'. rewrite G3. destruct (Hread r1.1 Hu1) as [_ Hc2].
  by rewrite Hc2, Hc1.
Qed.

(** The table with the flat columns "A" and "B" and no cell written: two
    reads of the cell of column "A" at date 1. *)
Lemma get_cell_value_miss_raises_twice_witness :
  let t := two_flat_columns false in
  let a := mkCellAddr 1 "A" in
  let r1 := Table.get_cell_value_default a "key" t in
  let r2 := Table.get_cell_value_default a "key" r1.1 in
  PageMasterContents.usable (Table.cells t) /\
  dict_get (ColumnManager._columns (Table.cm t)) "A" = Some (mkColumn "A" ∅ FlatColumn) /\
  r1.2 = Raise (NameError "name 'NoneClass' is not defined") /\
  r2.2 = Raise (NameError "name 'NoneClass' is not defined") /\
  Table.key_init_calls r2.1 = [("A", a, "key"); ("A", a, "key")].
Proof.
  intros t a r1 r2.
  assert (PageMasterContents.usable (Table.cells t)) as Hu
    by (by apply PageMasterContents.usable_init).
  pose proof (get_cell_value_miss_raises_twice a "key" MAX_DATE t
                (mkColumn "A" ∅ FlatColumn) Hu eq_refl
                ltac:(intros const; discriminate) eq_refl) as (H1 & _ & H2 & H3 & _).
  split_and!; [exact Hu|reflexivity|exact H1|exact H2|exact H3].
Defined.

(** C9 fails on the code where the cell has no value.  For a registered
    column and a read with the check enabled: the read raises the
    availability error when [assert_available_on] is before the date the
    column gives for the cell, and then no cell has been read; when it is not
    before, the read does not raise that error, and it returns the value when
    the store holds one for the cell; when the store holds none (the column
    being no [ConstColumn]) it raises the [NameError] for [NoneClass] instead
    of returning.  The date is the day after the cell's for a
    [ProtectedColumn] and the cell's own for a base [Column]. *)
Theorem availability_gate (t : Table.Table) (a : CellAddr) (k : CellKey)
    (assert_available_on : Date) (column : Column) :
  dict_get (ColumnManager._columns (Table.cm t)) (col a) = Some column ->
  let r := Table.get_cell_value a k assert_available_on true t in
  (assert_available_on < available_on_date column a ->
   r.2 = Raise (KeyError "Not available on date.") /\
   Table.cells r.1 = Table.cells t /\
   Table.key_init_calls r.1 = Table.key_init_calls t) /\
  (available_on_date column a <= assert_available_on ->
   r.2 <> Raise (KeyError "Not available on date.") /\
   (forall v, (PageMaster.get_value a k (Table.cells t)).2 = Ok (Some v) ->
              v <> VNone ->
              r.2 = Ok v /\ Table.key_init_calls r.1 = Table.key_init_calls t) /\
   ((forall v, (PageMaster.get_value a k (Table.cells t)).2 = Ok (Some v) -> v = VNone) ->
    (forall const, class column <> ConstColumn const) ->
    r.2 = Raise (NameError "name 'NoneClass' is not defined"))) /\
  (class column = ProtectedColumn -> available_on_date column a = date a + 1) /\
  (class column = BaseColumn -> available_on_date column a = date a).
Proof.
  intros Hreg r.
  assert (TableFacts.gate a assert_available_on true t =
          (Table.set_cm (ColumnManager.mark_save_needed (col a) (Table.cm t)) t,
           Ok (bool_decide (assert_available_on < available_on_date column a))))
    as Hgate.
  { rewrite TableFacts.gate_eq. unfold TableFacts.gate_result. by rewrite Hreg. }
  split_and!.
  - intros Hlt. unfold r. rewrite TableFacts.get_cell_value_split.
    erewrite TableFacts.bind_Ok by exact Hgate.
    by rewrite bool_decide_eq_true_2.
  - intros Hle.
    assert (TableFacts.gate_result a assert_available_on true t = Ok false) as Hpass.
    { by apply (TableFacts.gate_passes a assert_available_on true t column). }
    split_and!.
    + unfold r. rewrite TableFacts.get_cell_value_split.
      erewrite TableFacts.bind_Ok by exact Hgate.
      rewrite bool_decide_eq_false_2 by lia.
      intros Hbad. by apply TableFacts.raises_only_read_or_init in Hbad.
    + intros v Hv Hne.
      destruct (TableFacts.get_cell_value_hit a k assert_available_on true t v
                  Hpass Hv Hne) as (H1 & H2 & _).
      by split.
    + intros Hnone Hclass.
      by destruct (TableFacts.get_cell_value_miss a k assert_available_on true t
                     column Hreg Hclass Hnone Hpass) as (H1 & _).
  - unfold available_on_date. by intros ->.
  - unfold available_on_date. by intros ->.
Qed.

(** A table with the protected column "target" and the value 7 at date
    500: the cell cannot be read for date 500 and is read for date 501; the
    cell of date 600, which has no value, can be read for no date. *)
Lemma availability_gate_witness :
  let t := (Table.on_cm (ColumnManager.add_column (mkColumn "target" ∅ ProtectedColumn)) ;;
            Table.set_cell_value (mkCellAddr 500 "target") "key" (VInt 7))
             (Table.blank "test_prefix" false ∅) in
  let a := mkCellAddr 500 "target" in
  dict_get (ColumnManager._columns (Table.cm t.1)) (col a)
    = Some (mkColumn "target" ∅ ProtectedColumn) /\
  (Table.get_cell_value a "key" 500 true t.1).2 = Raise (KeyError "Not available on date.") /\
  (Table.get_cell_value a "key" 501 true t.1).2 = Ok (VInt 7) /\
  (Table.get_cell_value (mkCellAddr 600 "target") "key" 601 true t.1).2
    = Raise (NameError "name 'NoneClass' is not defined").
Proof.
  intros t a.
  assert (dict_get (ColumnManager._columns (Table.cm t.1)) "target"
          = Some (mkColumn "target" ∅ ProtectedColumn)) as Hreg
    by (vm_compute; reflexivity).
  split_and!; [exact Hreg| | |].
  - refine (proj1 (proj1 (availability_gate t.1 a "key" 500
                            (mkColumn "target" ∅ ProtectedColumn) Hreg) _)).
    vm_compute. reflexivity.
  - refine (proj1 (proj1 (proj2 (proj1 (proj2 (availability_gate t.1 a "key" 501
              (mkColumn "target" ∅ ProtectedColumn) Hreg)) _)) (VInt 7) _ _)).
    + vm_compute. discriminate.
    + vm_compute. reflexivity.
    + discriminate.
  - refine (proj2 (proj2 (proj1 (proj2 (availability_gate t.1 (mkCellAddr 600 "target")
              "key" 601 (mkColumn "target" ∅ ProtectedColumn) Hreg)) _)) _ _).
    + vm_compute. discriminate.
    + intros v Hv. vm_compute in Hv. discriminate Hv.
    + intros const. discriminate.
Defined.

(** C10: the check is off by default.  [CHECK_DATE_AVAILABILITY] is
    [False]; a call that leaves [check_date_availability] at it goes past
    the check without looking up the column, and never raises the
    availability error, whatever the column and the dates. *)
Theorem availability_check_off_by_default (t : Table.Table) (a : CellAddr)
    (k : CellKey) (assert_available_on : Date) :
  CHECK_DATE_AVAILABILITY = false /\
  Table.get_cell_value a k assert_available_on CHECK_DATE_AVAILABILITY t
    = TableFacts.read_or_init a k t /\
  (Table.get_cell_value a k assert_available_on CHECK_DATE_AVAILABILITY t).2
    <> Raise (KeyError "Not available on date.") /\
  (Table.get_cell_value_default a k t).2 <> Raise (KeyError "Not available on date.").
Proof.
  assert (forall d, Table.get_cell_value a k d CHECK_DATE_AVAILABILITY t
                    = TableFacts.read_or_init a k t) as Heq.
  { intros d. rewrite TableFacts.get_cell_value_split.
    by erewrite TableFacts.bind_Ok by (rewrite TableFacts.gate_eq; reflexivity). }
  split_and!; [done|apply Heq| |].
  - rewrite Heq. intros Hbad. by apply TableFacts.raises_only_read_or_init in Hbad.
  - unfold Table.get_cell_value_default. rewrite Heq.
    intros Hbad. by apply TableFacts.raises_only_read_or_init in Hbad.
Qed.

(** ** Where a refresh starts *)

(** C4 as stated does not hold: with checkpoints at 20110101 and 20110401
    and the earliest marked date 20110401, the latest checkpoint strictly
    before that date is the one of 20110101, and the refresh starts from the
    one of 20110401. *)
Lemma refresh_start_checkpoint_at_min_date :
  let e := Scenarios.marked_at_checkpoint in
  Scenarios.marked_cells e = [mkCellAddr 20110401 "player1_wf"] /\
  Scenarios.checkpoint_dates e = [20110101; 20110401] /\
  Scenarios.checkpoint_items e 20110101 = Ok (Some [(VStr "X", 2)]) /\
  Scenarios.refresh_start_items e = Ok (20110401, [(VStr "X", 5)]) /\
  Scenarios.refresh_start_items e <> Ok (20110101, [(VStr "X", 2)]).
Proof.
  intros e; subst e.
  assert (Scenarios.refresh_start_items Scenarios.marked_at_checkpoint
          = Ok (20110401, [(VStr "X", 5)])) as H by (vm_compute; reflexivity).
  split_and!; [vm_compute; reflexivity|vm_compute; reflexivity|
               vm_compute; reflexivity|exact H|].
  rewrite H. intros Hbad. discriminate Hbad.
Qed.

(** C4, as the code has it: a refresh with cells marked starts from the
    latest checkpoint that is not after the earliest marked date (it may be
    of that date itself), with the snapshot stored for it; when there is no
    snapshot to load for that checkpoint it raises the [LookupError]; and
    when no checkpoint is at or before the earliest marked date it starts from
    the empty snapshot at the snapshot date of the earliest marked date. *)
Theorem refresh_start_latest_checkpoint (e : Waterfall.Env) :
  let w := Waterfall.self e in
  let dates := DateSet.dates (Waterfall.snapshot_dates w) in
  let marked := Table.dirty (Waterfall.table e) (Waterfall.name w) in
  DateSetFacts.increasing dates ->
  marked <> ∅ ->
  exists min_date,
    (exists a, a ∈ marked /\ date a = min_date) /\
    (forall a, a ∈ marked -> min_date <= date a) /\
    ((forall d, d ∈ dates -> min_date < d) ->
     (Waterfall.refresh_start e).2
       = Ok (Waterfall.date_to_snapshot_date w min_date, ∅)) /\
    (forall S, S ∈ dates -> S <= min_date ->
       (forall d, d ∈ dates -> d <= min_date -> d <= S) ->
       (Waterfall.refresh_start e).2 =
       match (SnapshotMaster.get_date_value S (Waterfall.snapshot_master w)).2 with
       | Ok (Some working_snapshot) => Ok (S, working_snapshot)
       | _ => Raise (LookupError "Couldn't load snapshot that is expected to exist.")
       end).
Proof.
  intros w dates marked Hinc Hne.
  destruct (WaterfallFacts.earliest_marked marked Hne) as (d & ds & Hel & Hin & Hmin).
  exists (foldr Z.min d ds). split_and!; [done|done| |].
  - intros Hnone. rewrite (WaterfallFacts.refresh_start_from e d ds Hel).
    by apply WaterfallFacts.start_from_none.
  - intros S HS Hle Hmax. rewrite (WaterfallFacts.refresh_start_from e d ds Hel).
    by apply WaterfallFacts.start_from_latest.
Qed.

(** The column with checkpoints at 20110101 and 20110401 and its cell of
    20110401 marked: the refresh starts from the checkpoint of 20110401. *)
Lemma refresh_start_latest_checkpoint_witness :
  let e := Scenarios.marked_at_checkpoint in
  DateSetFacts.increasing
    (DateSet.dates (Waterfall.snapshot_dates (Waterfall.self e))) /\
  Table.dirty (Waterfall.table e) (Waterfall.name (Waterfall.self e)) <> ∅ /\
  exists min_date,
    (exists a, a ∈ Table.dirty (Waterfall.table e) (Waterfall.name (Waterfall.self e))
               /\ date a = min_date) /\
    (forall a, a ∈ Table.dirty (Waterfall.table e) (Waterfall.name (Waterfall.self e))
               -> min_date <= date a).
Proof.
  assert (DateSetFacts.increasing
            (DateSet.dates (Waterfall.snapshot_dates
               (Waterfall.self Scenarios.marked_at_checkpoint)))) as Hinc.
  { apply DateSetFacts.increasing_sorted. vm_compute.
    repeat constructor. }
  assert (Table.dirty (Waterfall.table Scenarios.marked_at_checkpoint)
            (Waterfall.name (Waterfall.self Scenarios.marked_at_checkpoint)) <> ∅)
    as Hne.
  { intros H. apply (f_equal size) in H. vm_compute in H. discriminate H. }
  split_and!; [exact Hinc|exact Hne|].
  destruct (refresh_start_latest_checkpoint Scenarios.marked_at_checkpoint Hinc Hne)
    as (m & H1 & H2 & _).
  exists m. by split.
Defined.

(** * Further properties of the code *)

(** ** Properties of the date index *)

(** X1: on an ordered list of dates the binary search of
    [smallest_ind_gt_date] returns the number of dates that are not after
    [date]: the dates before that index are at most [date] and the dates
    from it on are after [date]. *)
Theorem smallest_ind_gt_date_splits (ds : DateSet.DateSet) (date : Date) :
  DateSetFacts.increasing (DateSet.dates ds) ->
  let i := DateSet.smallest_ind_gt_date ds date in
  (i <= length (DateSet.dates ds))%nat /\
  Forall (fun d => d <= date) (take i (DateSet.dates ds)) /\
  Forall (fun d => date < d) (drop i (DateSet.dates ds)) /\
  i = length (filter (fun d => d <= date) (DateSet.dates ds)).
Proof.
  intros Hinc i.
  destruct (DateSetFacts.smallest_ind_gt_date_spec ds date Hinc) as (Hlen & Hlow & Hhigh).
  fold i in Hlen, Hlow, Hhigh. split_and!; [done| | |].
  - apply Forall_lookup. intros j x Hx. apply lookup_take_Some in Hx as [Hx Hj].
    by eapply Hlow.
  - apply Forall_lookup. intros j x Hx. rewrite lookup_drop in Hx.
    apply (Hhigh (i + j)%nat); [lia|done].
  - rewrite (DateSetMore.filter_split (fun d => d <= date) (DateSet.dates ds) i).
    + rewrite length_take. lia.
    + done.
    + intros j x Hj Hx. pose proof (Hhigh j x Hj Hx). lia.
Qed.

Lemma smallest_ind_gt_date_splits_witness :
  let ds := DateSet.mkDateSet "p" ∅ [20010101; 20010102; 20010103] in
  DateSetFacts.increasing (DateSet.dates ds) /\
  DateSet.smallest_ind_gt_date ds 20010102 = 2%nat /\
  DateSet.smallest_ind_gt_date ds 20010102
    = length (filter (fun d => d <= 20010102) (DateSet.dates ds)).
Proof.
  assert (DateSetFacts.increasing [20010101; 20010102; 20010103]) as Hinc.
  { apply DateSetFacts.increasing_sorted. repeat constructor. }
  split_and!; [exact Hinc|reflexivity|].
  exact (proj2 (proj2 (proj2 (smallest_ind_gt_date_splits
           (DateSet.mkDateSet "p" ∅ [20010101; 20010102; 20010103]) 20010102 Hinc)))).
Defined.

(** X2: [push_date] keeps the date index consistent.  When the list of
    dates is ordered and holds exactly the dates that are keys of
    [dates_keys], it is so again after [push_date]; the list then holds the
    pushed date and the dates it held, the key is added to the set of the
    date, the sets of the other dates are as they were, and a date that was
    there already leaves the list as it is. *)
Theorem push_date_keeps_index (date : Date) (cell_key : CellKey) (ds : DateSet.DateSet) :
  DateSetMore.consistent ds ->
  let ds' := (DateSet.push_date date cell_key ds).1 in
  DateSetMore.consistent ds' /\
  (forall d, d ∈ DateSet.dates ds' <-> d = date \/ d ∈ DateSet.dates ds) /\
  DateSet.dates_keys ds' !! date
    = Some ({[cell_key]} ∪ default ∅ (DateSet.dates_keys ds !! date)) /\
  (forall d, d <> date -> DateSet.dates_keys ds' !! d = DateSet.dates_keys ds !! d) /\
  (date ∈ DateSet.dates ds -> DateSet.dates ds' = DateSet.dates ds).
Proof. apply DateSetMore.push_date_spec. Qed.

(** The example of the module's docstring: 20010102, 20010103 and 20010101
    pushed into an empty index. *)
Lemma push_date_keeps_index_witness :
  let ds := (DateSet.push_date 20010103 "key2"
               (DateSet.push_date 20010102 "key1" (DateSet.__init__ "p")).1).1 in
  DateSetMore.consistent (DateSet.__init__ "p") /\
  DateSetMore.consistent (DateSet.push_date 20010101 "key2" ds).1 /\
  DateSet.dates (DateSet.push_date 20010101 "key2" ds).1
    = [20010101; 20010102; 20010103].
Proof.
  assert (DateSetMore.consistent (DateSet.__init__ "p")) as H0.
  { split; [apply DateSetMore.increasing_nil|]. intros d. simpl.
    rewrite lookup_empty. split; [by intros ?%elem_of_nil|by intros [? ?]]. }
  split_and!; [exact H0| |reflexivity].
  apply push_date_keeps_index, push_date_keeps_index, push_date_keeps_index, H0.
Defined.

(** X3: pushing a date and key that were pushed before has no effect,
    whatever the index holds. *)
Theorem push_date_twice (date : Date) (cell_key : CellKey) (ds : DateSet.DateSet) :
  let ds' := (DateSet.push_date date cell_key ds).1 in
  (DateSet.push_date date cell_key ds').1 = ds'.
Proof.
  intros ds'.
  assert (DateSet.dates_keys ds' =
          <[date := {[cell_key]} ∪ default ∅ (DateSet.dates_keys ds !! date)]>
            (DateSet.dates_keys ds)) as Hkeys.
  { unfold ds', DateSet.push_date. by repeat case_match. }
  unfold DateSet.push_date at 1.
  rewrite bool_decide_eq_true_2 by (rewrite Hkeys, lookup_insert_eq; by eexists).
  simpl. destruct ds' as [p dk dl] eqn:Hds. simpl in *. f_equal.
  rewrite Hkeys, lookup_insert_eq, insert_insert_eq. simpl. f_equal.
  by rewrite (assoc_L (∪)), (idemp_L (∪)).
Qed.

(** X4: on an ordered list of dates [slice] returns exactly the dates that
    lie between the two bounds, both included, in their order; a bound left
    out does not restrict, and bounds in the wrong order give the empty
    list. *)
Theorem slice_between (ds : DateSet.DateSet) (st_date en_date : option Date) :
  DateSetFacts.increasing (DateSet.dates ds) ->
  DateSet.slice ds st_date en_date
    = filter (DateSetMore.between st_date en_date) (DateSet.dates ds) /\
  (forall st en, st_date = Some st -> en_date = Some en -> en < st ->
     DateSet.slice ds st_date en_date = []).
Proof.
  intros Hinc. pose proof (DateSetMore.slice_filter ds st_date en_date Hinc) as H.
  split; [done|]. intros st en -> -> Hlt. rewrite H.
  rewrite (DateSetMore.filter_split_drop _ _ (length (DateSet.dates ds))).
  - by rewrite drop_all.
  - intros j x _ _ [H1 H2]. simpl in *. lia.
  - intros j x Hj Hx. apply lookup_lt_Some in Hx. lia.
Qed.

Lemma slice_between_witness :
  let ds := DateSet.mkDateSet "p" ∅ [10000; 20000; 30000; 40000] in
  DateSetFacts.increasing (DateSet.dates ds) /\
  DateSet.slice ds (Some 20000) (Some 35000) = [20000; 30000] /\
  DateSet.slice ds (Some 20000) (Some 35000)
    = filter (DateSetMore.between (Some 20000) (Some 35000)) (DateSet.dates ds).
Proof.
  assert (DateSetFacts.increasing [10000; 20000; 30000; 40000]) as Hinc.
  { apply DateSetFacts.increasing_sorted. repeat constructor. }
  split_and!; [exact Hinc|reflexivity|].
  exact (proj1 (slice_between (DateSet.mkDateSet "p" ∅ [10000; 20000; 30000; 40000])
                  (Some 20000) (Some 35000) Hinc)).
Defined.

(** ** Snapshot dates *)

(** X5: [Waterfall._date_to_snapshot_date] is monotone on all integers; on
    a date [YYYYMMDD] with a month from 1 to 12 and a day of at least 1 it
    gives the first day of the quarter of the date: a date of the same year
    with month 1, 4, 7 or 10 and day 1, at most the date and less than three
    months before it, which the function maps to itself. *)
Theorem _date_to_snapshot_date_quarter_start (date : Date) :
  let s := Waterfall._date_to_snapshot_date in
  (forall later, date <= later -> s date <= s later) /\
  (1 <= (date `div` 100) `mod` 100 <= 12 -> 1 <= date `mod` 100 ->
   s date <= date < s date + 300 /\
   s date `div` 10000 = date `div` 10000 /\
   (s date `div` 100) `mod` 100 ∈ [1; 4; 7; 10] /\
   s date `mod` 100 = 1 /\
   s (s date) = s date).
Proof.
  intros s. split.
  - intros later Hle. unfold s, Waterfall._date_to_snapshot_date.
    Z.div_mod_to_equations. lia.
  - intros Hmonth Hday.
    assert (exists y m d, date = y * 10000 + m * 100 + d /\ 1 <= m <= 12 /\ 1 <= d < 100)
      as (y & m & d & -> & Hm & Hd).
    { exists ((date `div` 100) `div` 100), ((date `div` 100) `mod` 100), (date `mod` 100).
      split; [|split; [done|]].
      - Z.div_mod_to_equations. lia.
      - pose proof (Z.mod_pos_bound date 100). lia. }
    assert (exists q, 0 <= q <= 3 /\ (m - 1) `div` 3 = q) as (q & Hq & Hqe).
    { exists ((m - 1) `div` 3). split; [|done]. Z.div_mod_to_equations. lia. }
    assert (s (y * 10000 + m * 100 + d) = y * 10000 + (q * 3 + 1) * 100 + 1) as Hs.
    { unfold s, Waterfall._date_to_snapshot_date.
      replace ((y * 10000 + m * 100 + d) `div` 100) with (y * 100 + m)
        by (Z.div_mod_to_equations; lia).
      replace ((y * 100 + m) `div` 100) with y by (Z.div_mod_to_equations; lia).
      replace ((y * 100 + m) `mod` 100) with m by (Z.div_mod_to_equations; lia).
      by rewrite Hqe. }
    assert (q * 3 + 1 <= m < q * 3 + 4) as Hqm
      by (subst q; Z.div_mod_to_equations; lia).
    rewrite Hs. split_and!.
    + lia.
    + lia.
    + Z.div_mod_to_equations. lia.
    + replace ((y * 10000 + (q * 3 + 1) * 100 + 1) `div` 100) with (y * 100 + (q * 3 + 1))
        by (Z.div_mod_to_equations; lia).
      replace ((y * 100 + (q * 3 + 1)) `mod` 100) with (q * 3 + 1)
        by (Z.div_mod_to_equations; lia).
      assert (q = 0 \/ q = 1 \/ q = 2 \/ q = 3) as [-> | [-> | [-> | ->]]] by lia;
        apply list_elem_of_In; simpl; lia.
    + Z.div_mod_to_equations. lia.
    + unfold s, Waterfall._date_to_snapshot_date.
      replace ((y * 10000 + (q * 3 + 1) * 100 + 1) `div` 100) with (y * 100 + (q * 3 + 1))
        by (Z.div_mod_to_equations; lia).
      replace ((y * 100 + (q * 3 + 1)) `div` 100) with y by (Z.div_mod_to_equations; lia).
      replace ((y * 100 + (q * 3 + 1)) `mod` 100) with (q * 3 + 1)
        by (Z.div_mod_to_equations; lia).
      replace ((q * 3 + 1 - 1) `div` 3) with q by (Z.div_mod_to_equations; lia).
      done.
Qed.

Lemma _date_to_snapshot_date_quarter_start_witness :
  1 <= (20110519 `div` 100) `mod` 100 <= 12 /\ 1 <= 20110519 `mod` 100 /\
  Waterfall._date_to_snapshot_date 20110519 = 20110401 /\
  Waterfall._date_to_snapshot_date 20110519 <= 20110519
    < Waterfall._date_to_snapshot_date 20110519 + 300.
Proof.
  split_and!; [vm_compute; discriminate|vm_compute; discriminate|
               vm_compute; discriminate|reflexivity| |].
  - refine (proj1 (proj1 (proj2 (_date_to_snapshot_date_quarter_start 20110519) _ _)));
      [split; vm_compute; discriminate|vm_compute; discriminate].
  - refine (proj2 (proj1 (proj2 (_date_to_snapshot_date_quarter_start 20110519) _ _)));
      [split; vm_compute; discriminate|vm_compute; discriminate].
Defined.

(** ** Properties of the column manager *)

(** X6: a column is found under its name once [add_column] has been called
    with it, also when the call raises: [get_column] then returns the column
    that was registered first under the name, which is the one passed when the
    name was new.  With a name that is registered [add_column] returns the
    name and changes nothing. *)
Theorem add_column_then_get_column (column : Column) (cm : ColumnManager.ColumnManager) :
  let cm' := (ColumnManager.add_column column cm).1 in
  ColumnManager.__contains__ cm' (name column) = true /\
  (ColumnManager.get_column (name column) cm').2
    = Ok (default column (dict_get (ColumnManager._columns cm) (name column))) /\
  (ColumnManager.__contains__ cm (name column) = true ->
   ColumnManager.add_column column cm = (cm, Ok (name column))).
Proof.
  intros cm'.
  assert (dict_get (ColumnManager._columns cm') (name column)
          = Some (default column (dict_get (ColumnManager._columns cm) (name column))))
    as Hget.
  { unfold cm'. rewrite ColumnManagerFacts.add_column_eq.
    destruct (ColumnManager.__contains__ cm (name column)) eqn:Hin;
      unfold ColumnManager.__contains__ in Hin.
    - apply bool_decide_eq_true in Hin as [c Hc]. by rewrite Hc.
    - apply bool_decide_eq_false in Hin.
      destruct (dict_get (ColumnManager._columns cm) (name column)) eqn:Hc;
        [exfalso; apply Hin; by eexists|].
      unfold ColumnManagerFacts.added.
      destruct (ColumnManager.topological _); simpl;
        apply DictFacts.dict_get_set_eq. }
  split_and!.
  - unfold ColumnManager.__contains__. rewrite Hget. by apply bool_decide_eq_true_2.
  - unfold ColumnManager.get_column.
    unfold mbind, M_bind, bind, gets, modify, mret, M_ret, ret. simpl. by rewrite Hget.
  - intros Hin. rewrite ColumnManagerFacts.add_column_eq. by rewrite Hin.
Qed.

(** X7: after [add_column] has returned for a column with a new name, on a
    manager whose column names are distinct and whose graph has nodes for
    registered columns only, [refresh_order] lists every registered column
    exactly once, the new one included, and every column before each of its
    dependents that are registered; the new column is marked for saving. *)
Theorem add_column_refresh_order (column : Column)
    (cm cm' : ColumnManager.ColumnManager) (n : ColumnName) :
  ColumnManagerFacts.wf cm ->
  ColumnManager.__contains__ cm (name column) = false ->
  ColumnManager.add_column column cm = (cm', Ok n) ->
  n = name column /\
  ColumnManagerFacts.wf cm' /\
  ColumnManager._columns cm' = ColumnManager._columns cm ++ [(name column, column)] /\
  ColumnManager.refresh_order cm' ≡ₚ (ColumnManager._columns cm').*1 /\
  NoDup (ColumnManager.refresh_order cm') /\
  (forall u v, ColumnManagerFacts.dependent cm' u v ->
     exists i j, ColumnManager.refresh_order cm' !! i = Some u /\
                 ColumnManager.refresh_order cm' !! j = Some v /\ (i < j)%nat) /\
  name column ∈ ColumnManager.save_needed cm'.
Proof.
  intros Hwf Hnew Hadd.
  pose proof (ColumnManagerFacts.wf_add_column column cm Hwf) as Hwf'.
  rewrite Hadd in Hwf'. simpl in Hwf'.
  rewrite ColumnManagerFacts.add_column_eq, Hnew in Hadd.
  pose proof (ColumnManagerFacts.added_outcome column cm Hwf Hnew) as [Hcols Hout].
  rewrite Hadd in Hcols, Hout. simpl in Hcols, Hout.
  destruct Hout as (-> & Hperm & Hord & _ & Hsave).
  split_and!; [done|done|done|done| |done|].
  - rewrite Hperm. apply Hwf'.
  - rewrite Hsave. apply elem_of_union_l. by apply elem_of_singleton.
Qed.

(** The example of the module's docstring: the columns "A" (with the
    dependent "B"), "B" and "C" (with the dependents "B" and "A"). *)
Lemma add_column_refresh_order_witness :
  let col_a := mkColumn "A" {["B"]} BaseColumn in
  let col_b := mkColumn "B" ∅ BaseColumn in
  let col_c := mkColumn "C" {["B"; "A"]} BaseColumn in
  let cm := (ColumnManager.add_column col_b
               (ColumnManager.add_column col_a (ColumnManager.__init__ "p")).1).1 in
  ColumnManagerFacts.wf cm /\
  ColumnManager.__contains__ cm "C" = false /\
  (ColumnManager.add_column col_c cm).2 = Ok "C" /\
  ColumnManager.refresh_order (ColumnManager.add_column col_c cm).1 = ["C"; "A"; "B"] /\
  NoDup (ColumnManager.refresh_order (ColumnManager.add_column col_c cm).1).
Proof.
  intros col_a col_b col_c cm.
  assert (ColumnManagerFacts.wf cm) as Hwf.
  { apply ColumnManagerFacts.wf_add_column, ColumnManagerFacts.wf_add_column,
      ColumnManagerFacts.wf_init. }
  assert (ColumnManager.__contains__ cm "C" = false) as Hnew by (vm_compute; reflexivity).
  split_and!; [exact Hwf|exact Hnew|vm_compute; reflexivity|vm_compute; reflexivity|].
  refine (proj1 (proj2 (proj2 (proj2 (proj2
            (add_column_refresh_order col_c cm _ "C" Hwf Hnew _)))))).
  destruct (ColumnManager.add_column col_c cm) as [cm' r] eqn:Hadd.
  f_equal. change r with (cm', r).2. rewrite <- Hadd. vm_compute. reflexivity.
Defined.

(** X8: [add_column] with a new name raises exactly when the registered
    columns, the new one included, depend on each other in a cycle; the error
    is the [ValueError] of the sort.  The column then stays registered, while
    the refresh order and the columns marked for saving are the old ones. *)
Theorem add_column_cycle (column : Column) (cm : ColumnManager.ColumnManager) :
  ColumnManagerFacts.wf cm ->
  ColumnManager.__contains__ cm (name column) = false ->
  let cm' := (ColumnManager.add_column column cm).1 in
  ((exists u, tc (ColumnManagerFacts.dependent cm') u u) <->
   (ColumnManager.add_column column cm).2 = Raise (ValueError "Loop found.")) /\
  ((forall u, ~ tc (ColumnManagerFacts.dependent cm') u u) <->
   (ColumnManager.add_column column cm).2 = Ok (name column)) /\
  ((ColumnManager.add_column column cm).2 = Raise (ValueError "Loop found.") ->
   dict_get (ColumnManager._columns cm') (name column) = Some column /\
   ColumnManager.refresh_order cm' = ColumnManager.refresh_order cm /\
   ColumnManager.save_needed cm' = ColumnManager.save_needed cm).
Proof.
  intros Hwf Hnew cm'.
  pose proof (ColumnManagerFacts.added_outcome column cm Hwf Hnew) as [Hcols Hout].
  assert (dict_get (ColumnManager._columns (ColumnManagerFacts.added column cm).1)
            (name column) = Some column) as Hget.
  { unfold ColumnManagerFacts.added.
    destruct (ColumnManager.topological _); simpl;
      apply DictFacts.dict_get_set_eq. }
  unfold cm'. rewrite ColumnManagerFacts.add_column_eq, Hnew.
  destruct (ColumnManagerFacts.added column cm) as [cm1 [n|e]]; simpl in *.
  - destruct Hout as (-> & _ & _ & Hacyc & _). split_and!.
    + split; [|done]. intros [u Hu]. by destruct (Hacyc u).
    + done.
    + done.
  - destruct Hout as (-> & Hcyc & Hord & Hsave). split_and!.
    + done.
    + split; [|done]. intros Hacyc. destruct Hcyc as [u Hu]. by destruct (Hacyc u).
    + intros _. by split_and!.
Qed.

(** A column that names itself as a dependent. *)
Lemma add_column_cycle_witness :
  let column := mkColumn "A" {["A"]} BaseColumn in
  let cm := ColumnManager.__init__ "p" in
  ColumnManagerFacts.wf cm /\
  ColumnManager.__contains__ cm (name column) = false /\
  (ColumnManager.add_column column cm).2 = Raise (ValueError "Loop found.") /\
  dict_get (ColumnManager._columns (ColumnManager.add_column column cm).1) "A"
    = Some column.
Proof.
  intros column cm.
  assert (ColumnManagerFacts.wf cm) as Hwf by apply ColumnManagerFacts.wf_init.
  assert (ColumnManager.__contains__ cm (name column) = false) as Hnew by reflexivity.
  assert ((ColumnManager.add_column column cm).2 = Raise (ValueError "Loop found."))
    as Hraise by (vm_compute; reflexivity).
  split_and!; [exact Hwf|exact Hnew|exact Hraise|].
  exact (proj1 (proj2 (proj2 (add_column_cycle column cm Hwf Hnew)) Hraise)).
Defined.

(** ** Properties of the page store *)

(** X9: on a store that can be written, with a capacity of at least 1 and
    a sound cache, [get_value] returns what the page of the address holds
    under the key of the address, whether the page is in the cache or in its
    file (nothing for a page that cannot be read or is no dict), and leaves
    what every page holds as it is, also when it evicts a page. *)
Theorem get_value_reads_contents {Addr V : Type} `{!PageMaster.Paging Addr}
    (pm : PageMaster.PageMaster V) (addr : Addr) (key : string) :
  PageMasterContents.usable pm ->
  let r := PageMaster.get_value addr key pm in
  r.2 = Ok (PageMasterContents.content pm (PageMaster._addr_to_page addr)
              (PageMaster._addr_key addr key)) /\
  PageMasterContents.usable r.1 /\
  forall p k, PageMasterContents.content r.1 p k = PageMasterContents.content pm p k.
Proof.
  intros Hu r.
  pose proof (PageMasterContents.step_usable (PageMasterFacts.OpGet addr key) pm Hu) as Hu'.
  destruct Hu as (Hro & HC & Hs).
  destruct (PageMasterContents.get_value_contents pm addr key Hro HC Hs) as (Hr & _ & Hsame).
  split_and!; [done|exact Hu'|].
  intros p k. unfold PageMasterContents.content. by rewrite Hsame.
Qed.

Lemma get_value_reads_contents_witness :
  let pm := PageMasterContents.run
              [PageMasterFacts.OpSet (mkCellAddr 20110101 "c") "k" (VInt 7)]
              (CellMaster.__init__ "p" 1 false ∅) in
  PageMasterContents.usable pm /\
  (PageMaster.get_value (mkCellAddr 20110202 "c") "k" pm).2 = Ok None /\
  PageMaster.resident (PageMaster.get_value (mkCellAddr 20110202 "c") "k" pm).1
    = ["201102-c"] /\
  PageMasterContents.content
    (PageMaster.get_value (mkCellAddr 20110202 "c") "k" pm).1 "201101-c"
    (PageMaster._addr_key (mkCellAddr 20110101 "c") "k") = Some (VInt 7).
Proof.
  intros pm.
  assert (PageMasterContents.usable pm) as Hu.
  { apply PageMasterContents.run_usable. by apply PageMasterContents.usable_init. }
  split_and!; [exact Hu|vm_compute; reflexivity|vm_compute; reflexivity|].
  rewrite (proj2 (proj2 (get_value_reads_contents pm (mkCellAddr 20110202 "c") "k" Hu))).
  vm_compute. reflexivity.
Defined.

(** X10: on such a store [set_value] returns exactly when the page of the
    address is a dict, and then the page holds the value under the key of the
    address while every other key of every page holds what it held; when the
    page cannot be read or is no dict the call raises and no page has
    changed. *)
Theorem set_value_writes_one_key {Addr V : Type} `{!PageMaster.Paging Addr}
    (pm : PageMaster.PageMaster V) (addr : Addr) (key : string) (v : V) :
  PageMasterContents.usable pm ->
  let r := PageMaster.set_value addr key v pm in
  let p := PageMaster._addr_to_page addr in
  let k := PageMaster._addr_key addr key in
  PageMasterContents.usable r.1 /\
  (r.2 = Ok tt <-> exists d, PageMasterContents.page_object pm p = Some (PageMaster.PyDict d)) /\
  (r.2 = Ok tt ->
   forall q k', PageMasterContents.content r.1 q k' =
                if decide (q = p /\ k' = k) then Some v
                else PageMasterContents.content pm q k') /\
  (r.2 <> Ok tt ->
   forall q, PageMasterContents.page_object r.1 q = PageMasterContents.page_object pm q).
Proof.
  intros Hu r p k.
  pose proof (PageMasterContents.step_usable (PageMasterFacts.OpSet addr key v) pm Hu) as Hu'.
  assert (PageMasterFacts.step (PageMasterFacts.OpSet addr key v) pm = r.1) as Hstep.
  { unfold PageMasterFacts.step, PageMasterFacts.run_op, r. unfold mbind, M_bind, bind.
    by destruct (PageMaster.set_value addr key v pm) as [pm1 [[]|e]]. }
  rewrite Hstep in Hu'.
  destruct Hu as (Hro & HC & Hs).
  destruct (PageMasterContents.set_value_contents pm addr key v Hro HC Hs) as (_ & Hset).
  fold r p in Hset. split; [done|].
  destruct (PageMasterContents.page_object pm p) as [[d|]|] eqn:Hobj.
  - destruct Hset as [Hr Hobj']. split_and!.
    + split; [by exists d|done].
    + intros _ q k'. unfold PageMasterContents.content. rewrite Hobj'.
      destruct (decide (q = p)) as [->|Hne].
      * rewrite Hobj. destruct (decide (k' = k)) as [->|Hk].
        -- rewrite decide_True by done. by rewrite lookup_insert_eq.
        -- rewrite decide_False by (by intros [_ ?]). by rewrite lookup_insert_ne.
      * by rewrite decide_False by (by intros [? _]).
    + intros Hbad. by rewrite Hr in Hbad.
  - destruct Hset as [Hr Hobj']. split_and!.
    + split; [by rewrite Hr|by intros [d ?]].
    + by rewrite Hr.
    + done.
  - destruct Hset as [Hr Hpm]. split_and!.
    + split; [by rewrite Hr|by intros [d ?]].
    + by rewrite Hr.
    + intros _ q. by rewrite Hpm.
Qed.

Lemma set_value_writes_one_key_witness :
  let pm := CellMaster.__init__ "p" 1 false ∅ in
  let r := PageMaster.set_value (mkCellAddr 20110101 "c") "k" (VInt 7) pm in
  PageMasterContents.usable pm /\ r.2 = Ok tt /\ PageMasterContents.usable r.1.
Proof.
  intros pm r.
  assert (PageMasterContents.usable pm) as Hu
    by (by apply PageMasterContents.usable_init).
  split_and!; [exact Hu|reflexivity|].
  exact (proj1 (set_value_writes_one_key pm (mkCellAddr 20110101 "c") "k" (VInt 7) Hu)).
Defined.

(** X11: on a store that can be written, with a capacity of at least 1
    and a sound cache, a value that [set_value] has written, the call having
    returned, is read back by [get_value] after any sequence of reads and
    writes that does not write the same key of the same page again, however
    many pages are loaded and evicted in between. *)
Theorem read_your_writes {Addr V : Type} `{!PageMaster.Paging Addr}
    (pm pm1 : PageMaster.PageMaster V) (addr : Addr) (key : string) (v : V)
    (ops : list (PageMasterFacts.Op Addr V)) :
  PageMasterContents.usable pm ->
  PageMaster.set_value addr key v pm = (pm1, Ok tt) ->
  Forall (fun op => ~ PageMasterContents.writes op (PageMaster._addr_to_page addr)
                        (PageMaster._addr_key addr key)) ops ->
  (PageMaster.get_value addr key (PageMasterContents.run ops pm1)).2 = Ok (Some v).
Proof.
  intros Hu Hset Hops.
  pose proof (PageMasterContents.step_usable (PageMasterFacts.OpSet addr key v) pm Hu) as Hu1.
  assert (PageMasterFacts.step (PageMasterFacts.OpSet addr key v) pm = pm1) as Hstep.
  { unfold PageMasterFacts.step, PageMasterFacts.run_op. unfold mbind, M_bind, bind.
    by rewrite Hset. }
  rewrite Hstep in Hu1.
  pose proof (PageMasterContents.run_usable ops pm1 Hu1) as (Hro & HC & Hs).
  destruct (PageMasterContents.get_value_contents _ addr key Hro HC Hs) as (-> & _).
  f_equal. rewrite (PageMasterContents.run_content ops pm1 _ _ Hu1 Hops).
  destruct Hu as (Hro0 & HC0 & Hs0).
  pose proof (PageMasterContents.set_value_contents pm addr key v Hro0 HC0 Hs0) as (_ & Hc).
  rewrite Hset in Hc. simpl in Hc. unfold PageMasterContents.content.
  destruct (PageMasterContents.page_object pm (PageMaster._addr_to_page addr))
    as [[d|]|]; [|by destruct Hc|by destruct Hc].
  destruct Hc as [_ ->]. rewrite decide_True by done. by rewrite lookup_insert_eq.
Qed.

(** A store with room for one page: a value written in January is read
    back after February and March have been used. *)
Lemma read_your_writes_witness :
  let pm := CellMaster.__init__ "p" 1 false ∅ in
  let a := mkCellAddr 20110101 "c" in
  let ops := [PageMasterFacts.OpSet (mkCellAddr 20110202 "c") "k" (VInt 1);
              PageMasterFacts.OpGet (mkCellAddr 20110303 "c") "k";
              PageMasterFacts.OpSet a "other" (VInt 2)] in
  PageMasterContents.usable pm /\
  (PageMaster.set_value a "k" (VInt 7) pm).2 = Ok tt /\
  (PageMaster.get_value a "k"
     (PageMasterContents.run ops (PageMaster.set_value a "k" (VInt 7) pm).1)).2
    = Ok (Some (VInt 7)).
Proof.
  intros pm a ops.
  assert (PageMasterContents.usable pm) as Hu
    by (by apply PageMasterContents.usable_init).
  split_and!; [exact Hu|reflexivity|].
  apply (read_your_writes pm _ a "k" (VInt 7) ops Hu).
  - by destruct (PageMaster.set_value a "k" (VInt 7) pm) as [pm1 [[]|e]] eqn:E.
  - unfold ops.
    apply Forall_cons; split;
      [|apply Forall_cons; split; [|apply Forall_cons; split; [|apply Forall_nil_2]]];
      simpl; try tauto;
      intros [H1 H2]; vm_compute in H1, H2; first [discriminate H1|discriminate H2].
Defined.

(** X12: closing a store that can be written, with a capacity of at least
    1 and a sound cache, returns, saves every page of the cache and empties
    the cache without changing what any page holds.  A store made afterwards
    on the same files with the same prefix and a capacity of at least 1,
    read-only or not, holds what the closed one held, and its first
    [get_value] returns the value of the address.  When the new store can be
    written, [get_value] returns that value also after any sequence of reads
    and writes that does not write the key of the address again; of a
    read-only one only the first read is stated. *)
Theorem close_then_reopen {Addr V : Type} `{!PageMaster.Paging Addr}
    (pm : PageMaster.PageMaster V) (cache_size : Z) (readonly : bool)
    (addr : Addr) (key : string) (ops : list (PageMasterFacts.Op Addr V)) :
  PageMasterContents.usable pm -> 1 <= cache_size ->
  let closed := (PageMaster.close pm).1 in
  let reopened := fun ro : bool =>
    PageMaster.__init__ (PageMaster.prefix pm) cache_size ro (PageMaster.files closed) in
  let p := PageMaster._addr_to_page addr in
  let k := PageMaster._addr_key addr key in
  (PageMaster.close pm).2 = Ok tt /\
  PageMaster.cache closed = [] /\
  (forall q k', PageMasterContents.content closed q k' = PageMasterContents.content pm q k') /\
  (forall q k', PageMasterContents.content (reopened readonly) q k'
                = PageMasterContents.content pm q k') /\
  (PageMaster.get_value addr key (reopened readonly)).2
    = Ok (PageMasterContents.content pm p k) /\
  (Forall (fun op => ~ PageMasterContents.writes op p k) ops ->
   (PageMaster.get_value addr key (PageMasterContents.run ops (reopened false))).2
     = Ok (PageMasterContents.content pm p k)).
Proof.
  intros (Hro & HC & Hs) HC' closed reopened p k.
  assert (NoDup (PageMaster.resident pm)) as Hnd by apply Hs.
  destruct (PageMasterContents.close_contents pm Hro Hnd) as (Hok & Hc & Hp & Hobj).
  assert (forall ro q k', PageMasterContents.content (reopened ro) q k'
                          = PageMasterContents.content pm q k') as Hsame.
  { intros ro q k'. unfold PageMasterContents.content.
    unfold PageMasterContents.page_object at 1. simpl.
    rewrite (PageMasterContents.file_object_same (PageMaster.close pm).1 (reopened ro))
      by done.
    by rewrite Hobj. }
  split_and!; [done|done| |apply Hsame| |].
  - intros q k'. by apply PageMasterContents.content_closed.
  - rewrite PageMasterContents.get_value_from_files by done. f_equal.
    unfold PageMasterContents.content.
    rewrite <- Hobj.
    by rewrite (PageMasterContents.file_object_same (PageMaster.close pm).1
                  (reopened readonly)).
  - intros Hops. subst p k.
    assert (PageMasterContents.usable (reopened false)) as Hu
      by (by apply PageMasterContents.usable_init).
    pose proof (PageMasterContents.run_usable ops _ Hu) as (Hro' & HC'' & Hs').
    destruct (PageMasterContents.get_value_contents _ addr key Hro' HC'' Hs') as (-> & _).
    f_equal. rewrite (PageMasterContents.run_content ops _ _ _ Hu Hops). apply Hsame.
Qed.

(** Two pages written, the store closed, and a store with room for one
    page opened on the files: the page of January is read first on a
    read-only store, and after the page of February on one that can be
    written. *)
Lemma close_then_reopen_witness :
  let pm := PageMasterContents.run
              [PageMasterFacts.OpSet (mkCellAddr 20110101 "c") "k" (VInt 7);
               PageMasterFacts.OpSet (mkCellAddr 20110202 "c") "k" (VInt 8)]
              (CellMaster.__init__ "p" 5 false ∅) in
  let files := PageMaster.files (PageMaster.close pm).1 in
  let a := mkCellAddr 20110101 "c" in
  PageMasterContents.usable pm /\
  (PageMaster.get_value a "k" (CellMaster.__init__ "p" 1 true files)).2
    = Ok (Some (VInt 7)) /\
  (PageMaster.get_value a "k"
     (PageMasterContents.run [PageMasterFacts.OpGet (mkCellAddr 20110202 "c") "k"]
        (CellMaster.__init__ "p" 1 false files))).2
    = Ok (PageMasterContents.content pm (PageMaster._addr_to_page a)
            (PageMaster._addr_key a "k")) /\
  PageMasterContents.content pm (PageMaster._addr_to_page a) (PageMaster._addr_key a "k")
    = Some (VInt 7).
Proof.
  intros pm files a.
  assert (PageMasterContents.usable pm) as Hu.
  { apply PageMasterContents.run_usable. by apply PageMasterContents.usable_init. }
  split_and!; [exact Hu|vm_compute; reflexivity| |vm_compute; reflexivity].
  refine (proj2 (proj2 (proj2 (proj2 (proj2
            (close_then_reopen pm 1 true a "k"
               [PageMasterFacts.OpGet (mkCellAddr 20110202 "c") "k"] Hu _))))) _).
  - vm_compute. discriminate.
  - apply Forall_cons; split; [simpl; tauto|apply Forall_nil_2].
Defined.

(** X13: a read-only store never writes.  [set_value] and
    [save_all_and_empty] raise the [PermissionError] and [close] returns, all
    three leaving the store as it is; and after any sequence of reads and
    writes the store is read-only still and its files are the same. *)
Theorem readonly_store_never_writes {Addr V : Type} `{!PageMaster.Paging Addr}
    (pm : PageMaster.PageMaster V) (addr : Addr) (key : string) (v : V)
    (ops : list (PageMasterFacts.Op Addr V)) :
  PageMaster.readonly pm = true ->
  PageMaster.set_value addr key v pm
    = (pm, Raise (PermissionError "Cannot modify a readonly.")) /\
  PageMaster.save_all_and_empty pm
    = (pm, Raise (PermissionError "Cannot modify a readonly.")) /\
  PageMaster.close pm = (pm, Ok tt) /\
  PageMaster.readonly (PageMasterContents.run ops pm) = true /\
  PageMaster.files (PageMasterContents.run ops pm) = PageMaster.files pm.
Proof.
  intros Hro. split_and!.
  - by apply PageMasterFacts.set_value_readonly.
  - unfold PageMaster.save_all_and_empty. unfold mbind, M_bind, bind, gets. by rewrite Hro.
  - unfold PageMaster.close. unfold mbind, M_bind, bind, gets. by rewrite Hro.
  - by apply PageMasterContents.run_readonly.
  - by apply PageMasterContents.run_readonly.
Qed.

Lemma readonly_store_never_writes_witness :
  let pm := CellMaster.__init__ "p" 1 true ∅ in
  let ops := [PageMasterFacts.OpGet (mkCellAddr 20110101 "c") "k";
              PageMasterFacts.OpSet (mkCellAddr 20110101 "c") "k" (VInt 1);
              PageMasterFacts.OpGet (mkCellAddr 20110202 "c") "k"] in
  PageMaster.readonly pm = true /\
  PageMaster.files (PageMasterContents.run ops pm) = PageMaster.files pm.
Proof.
  split; [reflexivity|].
  refine (proj2 (proj2 (proj2 (proj2
            (readonly_store_never_writes (CellMaster.__init__ "p" 1 true ∅)
               (mkCellAddr 20110101 "c") "k" (VInt 1) _ _))))).
  reflexivity.
Defined.

(** ** Properties of the table *)

(** X14: the guards of [set_cell_value].  On a read-only table the call
    raises the [PermissionError], and on a table that can be written but has
    no column of the name of the address it raises the [KeyError] "Column not
    found."; in both cases the table is left as it is.  Past the guards the
    date and key are recorded in the date index before the cell is written:
    they are recorded also when the cell store raises, and then no column is
    marked for refresh. *)
Theorem set_cell_value_guards (a : CellAddr) (k : CellKey) (v : Value) (t : Table.Table) :
  let r := Table.set_cell_value a k v t in
  (Table.readonly t = true ->
   r = (t, Raise (PermissionError "Cannot modify a readonly."))) /\
  (Table.readonly t = false ->
   ColumnManager.__contains__ (Table.cm t) (col a) = false ->
   r = (t, Raise (KeyError "Column not found."))) /\
  (Table.readonly t = false ->
   ColumnManager.__contains__ (Table.cm t) (col a) = true ->
   Table.ds r.1 = (DateSet.push_date (date a) k (Table.ds t)).1 /\
   Table.cells r.1 = (PageMaster.set_value a k v (Table.cells t)).1 /\
   (r.2 = Ok tt <-> (PageMaster.set_value a k v (Table.cells t)).2 = Ok tt) /\
   (r.2 <> Ok tt ->
    r.2 = (PageMaster.set_value a k v (Table.cells t)).2 /\
    Table.need_refresh r.1 = Table.need_refresh t /\ Table.cm r.1 = Table.cm t)).
Proof.
  intros r. unfold r. rewrite TableFacts.set_cell_value_eq.
  unfold TableFacts.set_cell_value_outcome, ColumnManager.__contains__.
  split_and!.
  - by intros ->.
  - intros -> Hc. apply bool_decide_eq_false in Hc.
    destruct (dict_get _ _) as [column|]; [|done]. exfalso. apply Hc. by eexists.
  - intros -> Hc. apply bool_decide_eq_true in Hc as [column Hc]. rewrite Hc.
    destruct (PageMaster.set_value a k v (Table.cells t)) as [pm1 [[]|e]]; simpl.
    + destruct (TableFacts.mark_all_same (cell_dependencies column a)
                  (Table.set_cm (ColumnManager.mark_save_needed (col a) (Table.cm t))
                     (Table.set_cells pm1
                        (Table.set_ds (DateSet.push_date (date a) k (Table.ds t)).1 t))))
        as [H1 H2 H3 H4 H5 H6].
      rewrite H3, H5. by split_and!.
    + split_and!; [done|done|done|]. intros _. by split_and!.
Qed.

(** X15: a write that returns has recorded its date and key.  When the
    date index of the table is consistent it is consistent afterwards, the
    date is in the ordered list of dates, and [all_keys_for_address] at any
    column of that date returns a set that holds the key and leaves the table
    as it is; no [key_init] has run, and the cells marked for refresh are
    those marked before and the cell of that date of every declared dependent
    of the written column. *)
Theorem set_cell_value_records (a : CellAddr) (k : CellKey) (v : Value)
    (t t' : Table.Table) :
  DateSetMore.consistent (Table.ds t) ->
  Table.set_cell_value a k v t = (t', Ok tt) ->
  DateSetMore.consistent (Table.ds t') /\
  date a ∈ DateSet.dates (Table.ds t') /\
  (forall c, exists keys,
     Table.all_keys_for_address (mkCellAddr (date a) c) t' = (t', Ok keys) /\ k ∈ keys) /\
  Table.key_init_calls t' = Table.key_init_calls t /\
  (exists column,
     dict_get (ColumnManager._columns (Table.cm t)) (col a) = Some column /\
     forall c, Table.dirty t' c =
       Table.dirty t c ∪
       (if decide (c ∈ dependencies column) then {[mkCellAddr (date a) c]} else ∅)).
Proof.
  intros Hcons Hset.
  destruct (TableMore.set_cell_value_Ok a k v t t' Hset) as (_ & _ & _ & Hds & _).
  destruct (DateSetMore.push_date_spec (date a) k (Table.ds t) Hcons)
    as (Hcons' & Hmem & Hkeys & _).
  rewrite <- Hds in Hcons', Hmem, Hkeys.
  split_and!; [done| | | |].
  - apply Hmem. by left.
  - intros c. eexists. split.
    + apply TableMore.all_keys_for_address_seen. simpl. exact Hkeys.
    + apply elem_of_union_l. by apply elem_of_singleton.
  - pose proof (TableFacts.set_cell_value_calls a k v t) as Hc. by rewrite Hset in Hc.
  - by apply (TableFacts.set_cell_value_dirty a k v).
Qed.

Lemma set_cell_value_records_witness :
  let t := two_flat_columns false in
  let r := Table.set_cell_value (mkCellAddr 20110101 "A") "key" (VInt 100) t in
  DateSetMore.consistent (Table.ds t) /\ r.2 = Ok tt /\
  DateSetMore.consistent (Table.ds r.1) /\
  DateSet.dates (Table.ds r.1) = [20110101].
Proof.
  intros t r.
  assert (DateSetMore.consistent (Table.ds t)) as Hc.
  { split; [apply DateSetMore.increasing_nil|]. intros d. simpl.
    rewrite lookup_empty. split; [by intros ?%elem_of_nil|by intros [? ?]]. }
  split_and!; [exact Hc|vm_compute; reflexivity| |vm_compute; reflexivity].
  refine (proj1 (set_cell_value_records (mkCellAddr 20110101 "A") "key" (VInt 100)
                   t r.1 Hc _)).
  apply TableMore.returned_eta. vm_compute. reflexivity.
Defined.

(** X16: a value written to a cell is read back.  After [set_cell_value]
    has returned for a value other than [None], on a table whose cell store
    has a capacity of at least 1, [get_cell_value] for the same address and
    key returns the value, whatever date it is asked for, without a call of
    [key_init] and without any change to the table. *)
Theorem set_cell_value_then_get_cell_value (a : CellAddr) (k : CellKey) (v : Value)
    (assert_available_on : Date) (t t' : Table.Table) :
  1 <= PageMaster.cache_size (Table.cells t) ->
  v <> VNone ->
  Table.set_cell_value a k v t = (t', Ok tt) ->
  Table.get_cell_value a k assert_available_on CHECK_DATE_AVAILABILITY t' = (t', Ok v) /\
  Table.get_cell_value_default a k t' = (t', Ok v).
Proof.
  intros HC Hv Hset.
  destruct (TableMore.set_cell_value_Ok a k v t t' Hset) as (_ & _ & Hcells & _).
  pose proof (PageMasterFacts.get_after_set _ _ a k v HC Hcells) as Hget.
  split; by apply TableMore.get_cell_value_stored.
Qed.

Lemma set_cell_value_then_get_cell_value_witness :
  let t := two_flat_columns false in
  let r := Table.set_cell_value (mkCellAddr 20110101 "A") "key" (VInt 100) t in
  1 <= PageMaster.cache_size (Table.cells t) /\ VInt 100 <> VNone /\ r.2 = Ok tt /\
  Table.get_cell_value_default (mkCellAddr 20110101 "A") "key" r.1 = (r.1, Ok (VInt 100)).
Proof.
  intros t r.
  assert (r.2 = Ok tt) as Hr by (vm_compute; reflexivity).
  split_and!; [vm_compute; discriminate|discriminate|exact Hr|].
  refine (proj2 (set_cell_value_then_get_cell_value (mkCellAddr 20110101 "A") "key"
                   (VInt 100) MAX_DATE t r.1 _ _ _));
    [vm_compute; discriminate|discriminate|].
  by apply TableMore.returned_eta.
Defined.

(** X17: [Table.add_column] marks a whole column for refresh.  On a
    read-only table it raises the [PermissionError] and changes nothing.
    Otherwise the column goes to the column manager; when that raises, the
    error is passed on and no cell is marked; when it returns, also for a
    name that was registered before, the cells marked are those marked before
    and the cell of the column at every date that the date index has a key
    for, while the date index and the cell store are as they were. *)
Theorem table_add_column_marks_dates (column : Column) (t : Table.Table) :
  let r := Table.add_column column t in
  let added := ColumnManager.add_column column (Table.cm t) in
  (Table.readonly t = true ->
   r = (t, Raise (PermissionError "Cannot modify a readonly."))) /\
  (Table.readonly t = false ->
   Table.cm r.1 = added.1 /\ Table.ds r.1 = Table.ds t /\
   Table.cells r.1 = Table.cells t /\
   (forall e, added.2 = Raise e ->
      r.2 = Raise e /\ Table.need_refresh r.1 = Table.need_refresh t) /\
   (forall n, added.2 = Ok n ->
      r.2 = Ok tt /\
      forall c, Table.dirty r.1 c =
        Table.dirty t c ∪
        (if decide (c = name column) then TableMore.column_cells (name column) t else ∅))).
Proof.
  intros r added. unfold r. rewrite TableMore.table_add_column_eq. split.
  - by intros ->.
  - intros ->. fold added. cbv zeta.
    destruct (added.2) as [n|e] eqn:Hadd.
    + set (deps := (fun d => mkCellAddr d (name column)) <$>
                     (map_to_list (DateSet.dates_keys (Table.ds t))).*1).
      destruct (TableFacts.mark_all_same deps (Table.set_cm added.1 t))
        as [H1 H2 H3 H4 H5 H6].
      simpl. rewrite H3, H4, H5. split_and!; [done|done|done|done|].
      intros n' _. split; [done|]. intros c.
      rewrite TableFacts.mark_all_dirty. unfold deps.
      by rewrite TableMore.marked_column_cells.
    + simpl. split_and!; [done|done|done| |done].
      intros e' [= <-]. by split.
Qed.

(** X18: [all_keys_for_address] reads a [defaultdict].  It returns the
    keys recorded for the date of the address, the empty set when there are
    none, and never raises.  For a date with recorded keys it leaves the table
    as it is; for any other date the read itself makes the date a key of
    [dates_keys], with no keys and without a place in the ordered list of
    dates, and a later [push_date] of that date, finding the key, leaves the
    list without the date. *)
Theorem all_keys_for_address_defaultdict (a : CellAddr) (k : CellKey) (t : Table.Table) :
  let r := Table.all_keys_for_address a t in
  r.2 = Ok (default ∅ (DateSet.dates_keys (Table.ds t) !! date a)) /\
  (is_Some (DateSet.dates_keys (Table.ds t) !! date a) -> r.1 = t) /\
  (DateSet.dates_keys (Table.ds t) !! date a = None ->
   DateSet.dates_keys (Table.ds r.1) !! date a = Some ∅ /\
   DateSet.dates (Table.ds r.1) = DateSet.dates (Table.ds t) /\
   DateSet.dates (DateSet.push_date (date a) k (Table.ds r.1)).1
     = DateSet.dates (Table.ds t)).
Proof.
  intros r. unfold r, Table.all_keys_for_address.
  unfold mbind, M_bind, bind, gets, modify. simpl.
  destruct (DateSet.dates_keys (Table.ds t) !! date a) as [keys|] eqn:Hk; simpl.
  - rewrite Hk. split_and!; [done|done|done].
  - rewrite lookup_insert_eq. split_and!; [done|by intros [? ?]|].
    intros _. split_and!; [done|done|].
    unfold DateSet.push_date. simpl. rewrite lookup_insert_eq.
    by rewrite bool_decide_eq_true_2 by (by eexists).
Qed.

(** ** Properties of the derived columns *)

(** X19: a snapshot saved is found again.  After [_save_snapshot] has
    returned, on a column whose snapshot store has a capacity of at least 1,
    [get_date_value] gives the snapshot for the date and leaves the store as
    it is; the date has been pushed to the checkpoint dates, which are in
    order and hold the date when they were consistent before; the table is
    untouched.  [set_date_value] has no read-only guard: on a read-only store
    the snapshot is kept in memory all the same, and no file is written. *)
Theorem _save_snapshot_then_get_date_value (date : Date)
    (snapshot : SnapshotMaster.Snapshot) (e e' : Waterfall.Env) :
  1 <= PageMaster.cache_size (Waterfall.snapshot_master (Waterfall.self e)) ->
  Waterfall._save_snapshot date snapshot e = (e', Ok tt) ->
  SnapshotMaster.get_date_value date (Waterfall.snapshot_master (Waterfall.self e'))
    = (Waterfall.snapshot_master (Waterfall.self e'), Ok (Some snapshot)) /\
  Waterfall.snapshot_dates (Waterfall.self e')
    = (DateSet.push_date date SNAPSHOT_KEY
         (Waterfall.snapshot_dates (Waterfall.self e))).1 /\
  Waterfall.table e' = Waterfall.table e /\
  (DateSetMore.consistent (Waterfall.snapshot_dates (Waterfall.self e)) ->
   DateSetMore.consistent (Waterfall.snapshot_dates (Waterfall.self e')) /\
   date ∈ DateSet.dates (Waterfall.snapshot_dates (Waterfall.self e'))) /\
  (PageMaster.readonly (Waterfall.snapshot_master (Waterfall.self e)) = true ->
   PageMaster.files (Waterfall.snapshot_master (Waterfall.self e'))
     = PageMaster.files (Waterfall.snapshot_master (Waterfall.self e))).
Proof.
  intros HC. rewrite WaterfallMore._save_snapshot_eq. cbv zeta.
  pose proof (WaterfallMore.set_date_value_readonly_files date snapshot
                (Waterfall.snapshot_master (Waterfall.self e))) as Hfiles.
  destruct (SnapshotMaster.set_date_value date snapshot
              (Waterfall.snapshot_master (Waterfall.self e))) as [pm1 r] eqn:Hset.
  simpl. intros [= <- ->]. simpl.
  split_and!; [|done|done| |done].
  - by apply (WaterfallMore.get_after_set_date_value _ _ _ _ HC Hset).
  - intros Hcons.
    destruct (DateSetMore.push_date_spec date SNAPSHOT_KEY _ Hcons) as (Hc & Hmem & _).
    split; [done|]. apply Hmem. by left.
Qed.

Lemma _save_snapshot_then_get_date_value_witness :
  let e := Scenarios.marked_at_checkpoint in
  let r := Waterfall._save_snapshot 20110701 {[VStr "X" := 9]} e in
  1 <= PageMaster.cache_size (Waterfall.snapshot_master (Waterfall.self e)) /\
  r.2 = Ok tt /\
  Scenarios.checkpoint_dates r.1 = [20110101; 20110401; 20110701] /\
  (SnapshotMaster.get_date_value 20110701
     (Waterfall.snapshot_master (Waterfall.self r.1))).2 = Ok (Some {[VStr "X" := 9]}).
Proof.
  intros e r.
  assert (r.2 = Ok tt) as Hr by (vm_compute; reflexivity).
  split_and!; [vm_compute; discriminate|exact Hr|vm_compute; reflexivity|].
  rewrite (proj1 (_save_snapshot_then_get_date_value 20110701 {[VStr "X" := 9]} e r.1
                    ltac:(vm_compute; discriminate)
                    (TableMore.returned_eta r Hr))).
  reflexivity.
Defined.

(** X20: [Waterfall.refresh] needs a marked cell.  On a column that is not
    read-only and has no cell marked for refresh it raises a [ValueError]
    (the minimum of no dates), having written no cell, date or snapshot; on
    a read-only column it returns at once and changes nothing. *)
Theorem refresh_nothing_marked (e : Waterfall.Env) :
  (Waterfall.readonly (Waterfall.self e) = true -> Waterfall.refresh e = (e, Ok tt)) /\
  (Waterfall.readonly (Waterfall.self e) = false ->
   Table.dirty (Waterfall.table e) (Waterfall.name (Waterfall.self e)) = ∅ ->
   (exists msg, (Waterfall.refresh e).2 = Raise (ValueError msg)) /\
   Waterfall.self (Waterfall.refresh e).1 = Waterfall.self e /\
   Table.cells (Waterfall.table (Waterfall.refresh e).1) = Table.cells (Waterfall.table e) /\
   Table.ds (Waterfall.table (Waterfall.refresh e).1) = Table.ds (Waterfall.table e) /\
   forall c, Table.dirty (Waterfall.table (Waterfall.refresh e).1) c
             = Table.dirty (Waterfall.table e) c).
Proof.
  split; [apply WaterfallMore.refresh_readonly|].
  intros Hro Hnone.
  set (t1 := match Table.need_refresh (Waterfall.table e)
                     !! Waterfall.name (Waterfall.self e) with
             | Some _ => Waterfall.table e
             | None =>
                 Table.set_need_refresh
                   (<[Waterfall.name (Waterfall.self e) := ∅]>
                      (Table.need_refresh (Waterfall.table e))) (Waterfall.table e)
             end).
  assert (forall c, Table.dirty t1 c = Table.dirty (Waterfall.table e) c) as Hd.
  { intros c. unfold t1, Table.dirty.
    destruct (Table.need_refresh (Waterfall.table e)
                !! Waterfall.name (Waterfall.self e)) eqn:E; [done|].
    simpl. destruct (decide (c = Waterfall.name (Waterfall.self e))) as [->|Hne].
    - by rewrite lookup_insert_eq, E.
    - by rewrite lookup_insert_ne. }
  assert (Waterfall.refresh_start e
          = (Waterfall.mkEnv t1 (Waterfall.self e),
             Raise (ValueError "min() arg is an empty sequence"))) as Hstart.
  { unfold Waterfall.refresh_start.
    unfold Waterfall.on_table, zoom, Table.need_refresh_get.
    unfold mbind, M_bind, bind, mret, M_ret, ret, raise, gets, modify. simpl.
    fold t1. by rewrite Hd, Hnone, elements_empty. }
  rewrite (WaterfallMore.refresh_start_raises e _ _ Hro Hstart). simpl.
  split_and!; [by eexists|done| | |done].
  - unfold t1. by destruct (Table.need_refresh _ !! _).
  - unfold t1. by destruct (Table.need_refresh _ !! _).
Qed.

(** X21: the constructor of [Waterfall] never returns.  For every table
    and all arguments it raises.  When every required column is registered
    it raises the [TypeError] of the call of [open], having made the new
    column a dependent of each required column; the column itself has not
    been added: the registered names, the refresh order, the cells, the date
    index and the marks for refresh are as before.  When a required column
    is not registered it raises the [KeyError] of the lookup of the first
    such column. *)
Theorem waterfall_init_raises (name : ColumnName) (required_columns : list ColumnName)
    (input_maps : list Waterfall.WaterfallMap) (output_key : ColumnName)
    (tail_length_years : Z) (t : Table.Table) :
  let r := Waterfall.__init__ name required_columns input_maps output_key
             tail_length_years t in
  (forall w, r.2 <> Ok w) /\
  (Forall (fun c => ColumnManager.__contains__ (Table.cm t) c = true) required_columns ->
   (exists msg, r.2 = Raise (TypeError msg)) /\
   (forall c, c ∈ required_columns ->
      WaterfallMore.has_dependent name (Table.cm r.1) c) /\
   (forall c, ColumnManager.__contains__ (Table.cm r.1) c
              = ColumnManager.__contains__ (Table.cm t) c) /\
   ColumnManager.refresh_order (Table.cm r.1) = ColumnManager.refresh_order (Table.cm t) /\
   Table.cells r.1 = Table.cells t /\ Table.ds r.1 = Table.ds t /\
   Table.need_refresh r.1 = Table.need_refresh t) /\
  (forall before c after,
     required_columns = before ++ c :: after ->
     Forall (fun c => ColumnManager.__contains__ (Table.cm t) c = true) before ->
     ColumnManager.__contains__ (Table.cm t) c = false ->
     r.2 = Raise (DictKeyError c)).
Proof.
  intros r.
  assert (forall cm c, ColumnManager.__contains__ cm c = true
                       <-> c ∈ (ColumnManager._columns cm).*1) as Hcontains.
  { intros cm c. unfold ColumnManager.__contains__. rewrite bool_decide_eq_true.
    destruct (dict_get (ColumnManager._columns cm) c) as [col|] eqn:Hc.
    - split; [intros _|by eexists].
      apply DictFacts.dict_get_Some_elem in Hc. apply list_elem_of_fmap. by exists (c, col).
    - split; [by intros [? ?]|]. intros Hin. by apply DictFacts.dict_get_None in Hc. }
  assert (forall cols t0,
            Forall (fun c => ColumnManager.__contains__ (Table.cm t0) c = true) cols ->
            exists t1,
              for_each cols
                (fun col => Table.on_cm (ColumnManager.add_dependency col name)) t0
                = (t1, Ok tt) /\
              WaterfallMore.registered_in name t0 t1 /\
              forall c, c ∈ cols -> WaterfallMore.has_dependent name (Table.cm t1) c)
    as Hloop.
  { intros cols t0 Hall. apply WaterfallMore.register_all.
    eapply Forall_impl; [exact Hall|]. intros c Hc. by apply Hcontains. }
  split_and!.
  - intros w. unfold r, Waterfall.__init__. unfold mbind, M_bind, bind.
    by destruct (for_each required_columns _ t) as [t1 [[]|e]].
  - intros Hreq. destruct (Hloop required_columns t Hreq) as (t1 & Hrun & Hri & Hdeps).
    assert (r = (t1, Raise (TypeError "open() got an unexpected keyword argument 'readonly'")))
      as ->.
    { unfold r, Waterfall.__init__. by rewrite (TableFacts.bind_Ok _ _ _ _ _ Hrun). }
    destruct Hri as [R1 R2 R3 R4 R5 R6 R7 R8 R9 R10]. simpl.
    split_and!; [by eexists|done| |done|done|done|done].
    intros c. destruct (ColumnManager.__contains__ (Table.cm t) c) eqn:E.
    + apply Hcontains. rewrite R7. by apply Hcontains.
    + destruct (ColumnManager.__contains__ (Table.cm t1) c) eqn:E1; [|done].
      apply Hcontains in E1. rewrite R7 in E1. apply Hcontains in E1. congruence.
  - intros before c after -> Hbefore Hmissing.
    destruct (Hloop before t Hbefore) as (t1 & Hrun & Hri & _).
    assert (dict_get (ColumnManager._columns (Table.cm t1)) c = None) as Hnone.
    { destruct (dict_get (ColumnManager._columns (Table.cm t1)) c) as [col|] eqn:Hc;
        [|done].
      assert (ColumnManager.__contains__ (Table.cm t) c = true) as Hin; [|congruence].
      apply Hcontains. rewrite <- (WaterfallMore.ri_keys _ _ _ Hri).
      apply DictFacts.dict_get_Some_elem in Hc. apply list_elem_of_fmap. by exists (c, col). }
    assert (forall xs ys (s : Table.Table) s1,
              for_each xs
                (fun col => Table.on_cm (ColumnManager.add_dependency col name)) s
                = (s1, Ok tt) ->
              for_each (xs ++ ys)
                (fun col => Table.on_cm (ColumnManager.add_dependency col name)) s
              = for_each ys
                  (fun col => Table.on_cm (ColumnManager.add_dependency col name)) s1)
      as Happ.
    { induction xs as [|x xs IH]; intros ys s s1 Hxs.
      - by injection Hxs as ->.
      - simpl app. rewrite TableFacts.for_each_cons in Hxs.
        rewrite TableFacts.for_each_cons.
        destruct (Table.on_cm (ColumnManager.add_dependency x name) s) as [s' [[]|e]];
          [by apply IH|done]. }
    unfold r, Waterfall.__init__. unfold mbind at 1, M_bind at 1, bind at 1.
    rewrite (Happ before (c :: after) t t1 Hrun), TableFacts.for_each_cons.
    unfold Table.on_cm, zoom.
    by rewrite (WaterfallMore.add_dependency_missing c name (Table.cm t1) Hnone).
Qed.

(** X22: the running totals of [Waterfall.refresh].  Adding the increment
    of a date to the working snapshot raises the total of every label by what
    the increment has for it, expiring it lowers the total by the same, and a
    date that is added and later expired leaves every total as it was. *)
Theorem snapshot_add_then_expire (snapshot increment : SnapshotMaster.Snapshot)
    (k : Value) :
  Waterfall.total (Waterfall.snapshot_add snapshot increment) k
    = Waterfall.total snapshot k + Waterfall.total increment k /\
  Waterfall.total (Waterfall.snapshot_sub snapshot increment) k
    = Waterfall.total snapshot k - Waterfall.total increment k /\
  Waterfall.total
    (Waterfall.snapshot_sub (Waterfall.snapshot_add snapshot increment) increment) k
    = Waterfall.total snapshot k.
Proof.
  split_and!.
  - apply WaterfallMore.total_snapshot_add.
  - apply WaterfallMore.total_snapshot_sub.
  - rewrite WaterfallMore.total_snapshot_sub, WaterfallMore.total_snapshot_add. lia.
Qed.




(** ** Cells do not share storage *)

(** X24: the cell store keeps distinct cells apart.  Two cell addresses
    are on one page exactly when they are of one month ([date // 100]) and
    one column, whatever the sign of the date and the text of the column
    name; and two cells that are on one page and have one key of the page
    dict are the same cell: the same date, column and key. *)
Theorem cells_have_their_own_slot (a a' : CellAddr) (k k' : CellKey) :
  (PageMaster._addr_to_page a = PageMaster._addr_to_page a' <->
   date a `div` 100 = date a' `div` 100 /\ col a = col a') /\
  (PageMaster._addr_to_page a = PageMaster._addr_to_page a' ->
   PageMaster._addr_key a k = PageMaster._addr_key a' k' ->
   a = a' /\ k = k').
Proof.
  split; [apply CellMasterFacts.same_page_iff|apply CellMasterFacts.slot_inj].
Qed.

(** X25: a write to one cell leaves the others alone.  After
    [set_cell_value] has returned, on a table whose cell store can be written
    and has a capacity of at least 1 and a sound cache, the store holds the
    value for the written cell and for every other date, column and key what
    it held before, also on the same page; a cell that held a value other
    than [None] is read by [get_cell_value] with that value still. *)
Theorem set_cell_value_keeps_other_cells (a : CellAddr) (k : CellKey) (v : Value)
    (t t' : Table.Table) :
  PageMasterContents.usable (Table.cells t) ->
  Table.set_cell_value a k v t = (t', Ok tt) ->
  PageMasterContents.usable (Table.cells t') /\
  (forall a' k', SimpleFormulaFacts.cell t' a' k' =
     if decide (a' = a /\ k' = k) then Some v else SimpleFormulaFacts.cell t a' k') /\
  (forall a' k' v' assert_available_on,
     (a', k') <> (a, k) -> SimpleFormulaFacts.cell t a' k' = Some v' -> v' <> VNone ->
     (Table.get_cell_value a' k' assert_available_on CHECK_DATE_AVAILABILITY t').2
       = Ok v').
Proof.
  intros Hu Hset.
  destruct (TableMore.set_cell_value_Ok a k v t t' Hset) as (_ & _ & Hcells & _).
  destruct (CellMasterFacts.set_value_cells _ _ a k v Hu Hcells) as [Hu' Hc].
  split_and!; [done|exact Hc|].
  intros a' k' v' aao Hne Hheld Hv. change CHECK_DATE_AVAILABILITY with false.
  destruct (SimpleFormulaFacts.get_cell_value_held a' k' aao v' t' Hu') as (t2 & -> & _);
    [|done|done].
  unfold SimpleFormulaFacts.cell in *. rewrite Hc.
  rewrite decide_False; [done|]. intros [-> ->]. done.
Qed.

(** Two keys of one cell address, and so of one page. *)
Lemma set_cell_value_keeps_other_cells_witness :
  let t := (Table.set_cell_value (mkCellAddr 20110101 "A") "key1" (VInt 1)
              (two_flat_columns false)).1 in
  let r := Table.set_cell_value (mkCellAddr 20110101 "A") "key2" (VInt 2) t in
  PageMasterContents.usable (Table.cells t) /\ r.2 = Ok tt /\
  (Table.get_cell_value_default (mkCellAddr 20110101 "A") "key1" r.1).2 = Ok (VInt 1).
Proof.
  intros t r.
  assert (PageMasterContents.usable (Table.cells t)) as Hu.
  { assert (Table.cells t =
            PageMasterContents.run
              [PageMasterFacts.OpSet (mkCellAddr 20110101 "A") "key1" (VInt 1)]
              (CellMaster.__init__ "test_prefix" 80 false ∅)) as ->
      by (vm_compute; reflexivity).
    apply PageMasterContents.run_usable. by apply PageMasterContents.usable_init. }
  assert (r.2 = Ok tt) as Hr by (vm_compute; reflexivity).
  split_and!; [exact Hu|exact Hr|].
  refine (proj2 (proj2 (set_cell_value_keeps_other_cells (mkCellAddr 20110101 "A") "key2"
                          (VInt 2) t r.1 Hu (TableMore.returned_eta r Hr)))
            (mkCellAddr 20110101 "A") "key1" (VInt 1) MAX_DATE _ _ _).
  - by intros [=].
  - vm_compute. reflexivity.
  - discriminate.
Defined.

(** X26: the snapshots of different dates are kept apart.  On a snapshot
    store that can be written, with a capacity of at least 1 and a sound
    cache, [set_date_value] for one date, whether it returns or raises,
    leaves the store usable and [get_date_value] of every other date with
    the result it had. *)
Theorem set_date_value_keeps_other_dates (date other : Date)
    (value : SnapshotMaster.Snapshot) (pm : PageMaster.PageMaster SnapshotMaster.Snapshot) :
  PageMasterContents.usable pm -> other <> date ->
  let r := SnapshotMaster.set_date_value date value pm in
  PageMasterContents.usable r.1 /\
  (SnapshotMaster.get_date_value other r.1).2
    = (SnapshotMaster.get_date_value other pm).2.
Proof.
  intros Hu Hne r.
  assert (r = PageMaster.set_value date SNAPSHOT_KEY value pm) as Hr.
  { unfold r, SnapshotMaster.set_date_value, PageMaster.set_value.
    unfold mbind, M_bind, bind, gets. simpl. by rewrite (proj1 Hu). }
  pose proof (PageMasterContents.step_usable
                (PageMasterFacts.OpSet date SNAPSHOT_KEY value) pm Hu) as Hu'.
  assert (PageMasterFacts.step (PageMasterFacts.OpSet date SNAPSHOT_KEY value) pm = r.1)
    as Hstep.
  { rewrite Hr. unfold PageMasterFacts.step, PageMasterFacts.run_op.
    unfold mbind, M_bind, bind.
    by destruct (PageMaster.set_value date SNAPSHOT_KEY value pm) as [pm1 [[]|e]]. }
  rewrite Hstep in Hu'. split; [done|].
  unfold SnapshotMaster.get_date_value.
  destruct Hu' as (Hro' & HC' & Hs').
  destruct (PageMasterContents.get_value_contents r.1 other SNAPSHOT_KEY Hro' HC' Hs')
    as (-> & _).
  destruct Hu as (Hro & HC & Hs).
  destruct (PageMasterContents.get_value_contents pm other SNAPSHOT_KEY Hro HC Hs)
    as (-> & _).
  f_equal. unfold PageMasterContents.content.
  assert (PageMaster._addr_to_page other <> PageMaster._addr_to_page date) as Hp.
  { simpl. intros H. by apply (inj pretty) in H. }
  pose proof (PageMasterContents.set_value_contents pm date SNAPSHOT_KEY value Hro HC Hs)
    as (_ & Hc).
  rewrite <- Hr in Hc.
  destruct (PageMasterContents.page_object pm (PageMaster._addr_to_page date))
    as [[d|]|].
  - destruct Hc as [_ ->]. by rewrite decide_False.
  - destruct Hc as [_ ->]. done.
  - destruct Hc as [_ ->]. done.
Qed.

Lemma set_date_value_keeps_other_dates_witness :
  let pm := PageMasterContents.run
              [PageMasterFacts.OpSet 20110101 SNAPSHOT_KEY ({[VStr "X" := 1]} : SnapshotMaster.Snapshot)]
              (SnapshotMaster.__init__ "c" false ∅) in
  let r := SnapshotMaster.set_date_value 20110401 {[VStr "X" := 2]} pm in
  PageMasterContents.usable pm /\ 20110101 <> 20110401 /\
  (SnapshotMaster.get_date_value 20110101 pm).2 = Ok (Some {[VStr "X" := 1]}) /\
  (SnapshotMaster.get_date_value 20110101 r.1).2
    = (SnapshotMaster.get_date_value 20110101 pm).2.
Proof.
  intros pm r.
  assert (PageMasterContents.usable pm) as Hu.
  { apply PageMasterContents.run_usable. by apply PageMasterContents.usable_init. }
  split_and!; [exact Hu|discriminate|vm_compute; reflexivity|].
  exact (proj2 (set_date_value_keeps_other_dates 20110401 20110101 {[VStr "X" := 2]} pm
                  Hu ltac:(discriminate))).
Defined.

(** ** derived_columns.py: the increment of a date *)

Module IncrementFacts.
Import Waterfall SnapshotMaster SimpleFormulaFacts PageMasterContents TableFacts.

Section Rows.
Variable date : Date.
Variable label : CellKey -> WaterfallMap -> Value.
Variable amount : CellKey -> WaterfallMap -> Z.

(** The table holds a label and an integer for the row and map. *)
Definition held (t : Table.Table) (row : CellKey * WaterfallMap) : Prop :=
  cell t (mkCellAddr date (key_column row.2)) row.1 = Some (label row.1 row.2) /\
  label row.1 row.2 <> VNone /\
  cell t (mkCellAddr date (value_column row.2)) row.1
    = Some (VInt (amount row.1 row.2)).

(** The sum of the amounts of the rows and maps with the label [l]. *)
Definition sum_for (l : Value) (rows : list (CellKey * WaterfallMap)) : Z :=
  foldr (fun row acc => if decide (label row.1 row.2 = l)
                        then amount row.1 row.2 + acc else acc) 0 rows.

(** The rows and maps in the order of the two loops. *)
Definition rows_of (keys : gset CellKey) (w : Waterfall)
    : list (CellKey * WaterfallMap) :=
  key ← elements keys; in_map ← input_maps w; [(key, in_map)].

Lemma on_table_get_held (e : Env) (a : CellAddr) (k : CellKey) (v : Value) :
  usable (Table.cells (table e)) -> cell (table e) a k = Some v -> v <> VNone ->
  exists t', on_table (Table.get_cell_value_default a k) e = (mkEnv t' (self e), Ok v) /\
             same_cells (table e) t'.
Proof.
  intros Hu Hc Hv.
  destruct (get_cell_value_held a k MAX_DATE v (table e) Hu Hc Hv) as (t' & Hget & Hsc).
  exists t'. split; [|done].
  unfold on_table, zoom, Table.get_cell_value_default.
  change CHECK_DATE_AVAILABILITY with false. by rewrite Hget.
Qed.

Lemma add_row_held (row : CellKey * WaterfallMap) (result : Snapshot) (e : Env) :
  usable (Table.cells (table e)) -> held (table e) row ->
  exists t',
    add_row date row.1 row.2 result e
      = (mkEnv t' (self e),
         Ok (<[label row.1 row.2 :=
                 total result (label row.1 row.2) + amount row.1 row.2]> result)) /\
    same_cells (table e) t'.
Proof.
  intros Hu (H1 & Hn & H2).
  destruct (on_table_get_held e _ _ _ Hu H1 Hn) as (t1 & Hget1 & Hsc1).
  assert (cell (table (mkEnv t1 (self e))) (mkCellAddr date (value_column row.2)) row.1
          = Some (VInt (amount row.1 row.2))) as H2'.
  { unfold cell. simpl. rewrite (sc_content _ _ Hsc1). exact H2. }
  destruct (on_table_get_held (mkEnv t1 (self e)) _ _ _ (sc_usable _ _ Hsc1) H2'
              ltac:(done)) as (t2 & Hget2 & Hsc2).
  exists t2. split; [|by eapply same_cells_trans].
  unfold add_row. rewrite (bind_Ok _ _ _ _ _ Hget1).
  rewrite decide_False by done. by rewrite (bind_Ok _ _ _ _ _ Hget2).
Qed.

Lemma total_insert (s : Snapshot) (k l : Value) (z : Z) :
  total (<[k := z]> s) l = if decide (k = l) then z else total s l.
Proof.
  unfold total. unfold Snapshot in *. destruct (decide (k = l)) as [->|Hne].
  - by rewrite lookup_insert_eq.
  - by rewrite lookup_insert_ne.
Qed.

Lemma add_rows_held (rows : list (CellKey * WaterfallMap)) (result : Snapshot)
    (e : Env) :
  usable (Table.cells (table e)) -> Forall (held (table e)) rows ->
  exists t' result',
    add_rows date rows result e = (mkEnv t' (self e), Ok result') /\
    same_cells (table e) t' /\
    forall l, total result' l = total result l + sum_for l rows.
Proof.
  revert result e. induction rows as [|row rows IH]; intros result e Hu Hheld.
  - exists (table e), result. split_and!.
    + by destruct e.
    + by apply same_cells_refl.
    + intros l. simpl. lia.
  - apply Forall_cons in Hheld as [Hrow Hrest].
    destruct (add_row_held row result e Hu Hrow) as (t1 & Hstep & Hsc1).
    destruct (IH (<[label row.1 row.2 :=
                      total result (label row.1 row.2) + amount row.1 row.2]> result)
                (mkEnv t1 (self e))) as (t2 & result' & Hrun & Hsc2 & Htot).
    { apply Hsc1. }
    { eapply Forall_impl; [exact Hrest|]. intros r (R1 & R2 & R3).
      unfold held, cell. simpl. rewrite !(sc_content _ _ Hsc1). by split_and!. }
    exists t2, result'. split_and!.
    + destruct row as [key in_map]. simpl in *.
      by rewrite (bind_Ok _ _ _ _ _ Hstep).
    + by eapply same_cells_trans.
    + intros l. rewrite Htot, total_insert. simpl.
      destruct (decide (label row.1 row.2 = l)) as [->|Hne]; lia.
Qed.

End Rows.

End IncrementFacts.

(** X27: what [_get_snapshot_increment] adds up.  When the cell store can
    be written, has a capacity of at least 1 and a sound cache, and the table
    holds, for every key recorded for the date and every input map, a label
    other than [None] in the key column and an integer in the value column,
    the call returns a snapshot in which every label has the sum of the
    integers of the rows and maps with that label (0 for a label of no row);
    the column, the cells, the marks for refresh and the calls of [key_init]
    are as before. *)
Theorem _get_snapshot_increment_sums (date : Date)
    (label : CellKey -> Waterfall.WaterfallMap -> Value)
    (amount : CellKey -> Waterfall.WaterfallMap -> Z) (e : Waterfall.Env) :
  let t := Waterfall.table e in
  let keys := default ∅ (DateSet.dates_keys (Table.ds t) !! date) in
  PageMasterContents.usable (Table.cells t) ->
  (forall key in_map, key ∈ keys -> in_map ∈ Waterfall.input_maps (Waterfall.self e) ->
     IncrementFacts.held date label amount t (key, in_map)) ->
  exists e' increment,
    Waterfall._get_snapshot_increment date e = (e', Ok increment) /\
    (forall l, Waterfall.total increment l
               = IncrementFacts.sum_for label amount l
                   (IncrementFacts.rows_of keys (Waterfall.self e))) /\
    Waterfall.self e' = Waterfall.self e /\
    (forall a k, SimpleFormulaFacts.cell (Waterfall.table e') a k
                 = SimpleFormulaFacts.cell t a k) /\
    Table.need_refresh (Waterfall.table e') = Table.need_refresh t /\
    Table.key_init_calls (Waterfall.table e') = Table.key_init_calls t.
Proof.
  intros t keys Hu Hheld.
  set (a := mkCellAddr date (Waterfall.name (Waterfall.self e))).
  set (t1 := (Table.all_keys_for_address a t).1).
  assert (Table.all_keys_for_address a t = (t1, Ok keys)) as Hkeys.
  { unfold t1, keys, Table.all_keys_for_address.
    unfold mbind, M_bind, bind, gets, modify. simpl.
    destruct (DateSet.dates_keys (Table.ds t) !! date) eqn:E; simpl.
    - by rewrite E.
    - by rewrite lookup_insert_eq. }
  assert (Table.cells t1 = Table.cells t /\
          Table.need_refresh t1 = Table.need_refresh t /\
          Table.key_init_calls t1 = Table.key_init_calls t) as (Hc1 & Hn1 & Hk1).
  { unfold t1, Table.all_keys_for_address.
    unfold mbind, M_bind, bind, gets, modify. simpl.
    by destruct (DateSet.dates_keys (Table.ds t) !! date). }
  destruct (IncrementFacts.add_rows_held date label amount
              (IncrementFacts.rows_of keys (Waterfall.self e)) ∅
              (Waterfall.mkEnv t1 (Waterfall.self e)))
    as (t2 & increment & Hrun & Hsc & Htot).
  { simpl. by rewrite Hc1. }
  { apply Forall_forall. intros [key in_map] Hin.
    unfold IncrementFacts.rows_of in Hin.
    apply list_elem_of_bind in Hin as (key' & Hin & Hkey).
    apply list_elem_of_bind in Hin as (in_map' & Hin & Hmap).
    apply list_elem_of_singleton in Hin as [= -> ->].
    apply elem_of_elements in Hkey.
    destruct (Hheld key' in_map' Hkey Hmap) as (R1 & R2 & R3).
    unfold IncrementFacts.held, SimpleFormulaFacts.cell in *. simpl in *.
    rewrite Hc1. by split_and!. }
  exists (Waterfall.mkEnv t2 (Waterfall.self e)), increment. split_and!.
  - unfold Waterfall._get_snapshot_increment.
    unfold mbind at 1, M_bind at 1, bind at 1, gets at 1.
    assert (Waterfall.on_table (Table.all_keys_for_address a) e
            = (Waterfall.mkEnv t1 (Waterfall.self e), Ok keys)) as Hon.
    { unfold Waterfall.on_table, zoom. fold t. by rewrite Hkeys. }
    rewrite (TableFacts.bind_Ok _ _ _ _ _ Hon). exact Hrun.
  - intros l. rewrite Htot. unfold Waterfall.total. unfold SnapshotMaster.Snapshot.
    rewrite lookup_empty. simpl. lia.
  - done.
  - intros a' k. unfold SimpleFormulaFacts.cell. simpl.
    rewrite (SimpleFormulaFacts.sc_content _ _ Hsc). simpl. by rewrite Hc1.
  - simpl. by rewrite (SimpleFormulaFacts.sc_need _ _ Hsc).
  - simpl. by rewrite (SimpleFormulaFacts.sc_calls _ _ Hsc).
Qed.

(** The example of the docstring: three rows with two maps give the
    totals 601, 32 and 540. *)
Lemma _get_snapshot_increment_sums_witness :
  let d := 20110101 in
  let setup : M Table.Table Waterfall.Waterfall :=
    Table.add_column (mkColumn "Player1" ∅ FlatColumn) ;;
    Table.add_column (mkColumn "Player2" ∅ FlatColumn) ;;
    Table.add_column (mkColumn "Points1" ∅ FlatColumn) ;;
    Table.add_column (mkColumn "Points2" ∅ FlatColumn) ;;
    Table.set_cell_value (mkCellAddr d "Player1") "r1" (VStr "X") ;;
    Table.set_cell_value (mkCellAddr d "Player2") "r1" (VStr "Y") ;;
    Table.set_cell_value (mkCellAddr d "Points1") "r1" (VInt 1) ;;
    Table.set_cell_value (mkCellAddr d "Points2") "r1" (VInt 2) ;;
    Table.set_cell_value (mkCellAddr d "Player1") "r2" (VStr "Y") ;;
    Table.set_cell_value (mkCellAddr d "Player2") "r2" (VStr "Z") ;;
    Table.set_cell_value (mkCellAddr d "Points1") "r2" (VInt 30) ;;
    Table.set_cell_value (mkCellAddr d "Points2") "r2" (VInt 40) ;;
    Table.set_cell_value (mkCellAddr d "Player1") "r3" (VStr "Z") ;;
    Table.set_cell_value (mkCellAddr d "Player2") "r3" (VStr "X") ;;
    Table.set_cell_value (mkCellAddr d "Points1") "r3" (VInt 500) ;;
    Table.set_cell_value (mkCellAddr d "Points2") "r3" (VInt 600) ;;
    Scenarios.waterfall_column "wf" ["Player1"; "Player2"; "Points1"; "Points2"]
      [Waterfall.mkWaterfallMap "Player1" "Points1";
       Waterfall.mkWaterfallMap "Player2" "Points2"] "Player1" 3
      Waterfall._date_to_snapshot_date ∅ in
  let e := ((w ← Waterfall.on_table setup ;
             modify (fun e => Waterfall.mkEnv (Waterfall.table e) w))
              (Waterfall.mkEnv Scenarios.empty_table
                 (Waterfall.mkWaterfall EmptyString [] [] EmptyString 0 false
                    (SnapshotMaster.__init__ EmptyString false ∅)
                    (DateSet.__init__ EmptyString) id))).1 in
  PageMasterContents.usable (Table.cells (Waterfall.table e)) /\
  exists increment,
    (Waterfall._get_snapshot_increment d e).2 = Ok increment /\
    Waterfall.total increment (VStr "X") = 601 /\
    Waterfall.total increment (VStr "Y") = 32 /\
    Waterfall.total increment (VStr "Z") = 540.
Proof.
  intros d setup e.
  set (label := fun (key : CellKey) (in_map : Waterfall.WaterfallMap) =>
         default VNone
           (SimpleFormulaFacts.cell (Waterfall.table e)
              (mkCellAddr d (Waterfall.key_column in_map)) key)).
  set (amount := fun (key : CellKey) (in_map : Waterfall.WaterfallMap) =>
         match SimpleFormulaFacts.cell (Waterfall.table e)
                 (mkCellAddr d (Waterfall.value_column in_map)) key with
         | Some (VInt z) => z
         | _ => 0
         end).
  assert (PageMasterContents.usable (Table.cells (Waterfall.table e))) as Hu.
  { assert (Table.cells (Waterfall.table e) =
            PageMasterContents.run
              [PageMasterFacts.OpSet (mkCellAddr d "Player1") "r1" (VStr "X");
               PageMasterFacts.OpSet (mkCellAddr d "Player2") "r1" (VStr "Y");
               PageMasterFacts.OpSet (mkCellAddr d "Points1") "r1" (VInt 1);
               PageMasterFacts.OpSet (mkCellAddr d "Points2") "r1" (VInt 2);
               PageMasterFacts.OpSet (mkCellAddr d "Player1") "r2" (VStr "Y");
               PageMasterFacts.OpSet (mkCellAddr d "Player2") "r2" (VStr "Z");
               PageMasterFacts.OpSet (mkCellAddr d "Points1") "r2" (VInt 30);
               PageMasterFacts.OpSet (mkCellAddr d "Points2") "r2" (VInt 40);
               PageMasterFacts.OpSet (mkCellAddr d "Player1") "r3" (VStr "Z");
               PageMasterFacts.OpSet (mkCellAddr d "Player2") "r3" (VStr "X");
               PageMasterFacts.OpSet (mkCellAddr d "Points1") "r3" (VInt 500);
               PageMasterFacts.OpSet (mkCellAddr d "Points2") "r3" (VInt 600)]
              (CellMaster.__init__ "test_prefix" 80 false ∅)) as ->
      by (vm_compute; reflexivity).
    apply PageMasterContents.run_usable. by apply PageMasterContents.usable_init. }
  split; [exact Hu|].
  assert (default ∅ (DateSet.dates_keys (Table.ds (Waterfall.table e)) !! d)
          = ({["r1"; "r2"; "r3"]} : gset CellKey)) as Hkeys by (vm_compute; reflexivity).
  assert (Waterfall.input_maps (Waterfall.self e)
          = [Waterfall.mkWaterfallMap "Player1" "Points1";
             Waterfall.mkWaterfallMap "Player2" "Points2"]) as Hmaps
    by (vm_compute; reflexivity).
  destruct (_get_snapshot_increment_sums d label amount e Hu)
    as (e' & increment & Hrun & Hsum & _).
  { intros key in_map Hk Hm. rewrite Hkeys in Hk. rewrite Hmaps in Hm.
    apply elem_of_union in Hk as [Hk|Hk%elem_of_singleton];
      [apply elem_of_union in Hk as [Hk%elem_of_singleton|Hk%elem_of_singleton]|];
      subst key;
      (apply elem_of_cons in Hm as [->|Hm];
         [|apply list_elem_of_singleton in Hm as ->]);
      (split_and!; [vm_compute; reflexivity|vm_compute; discriminate|
                    vm_compute; reflexivity]). }
  exists increment. rewrite Hrun. split; [done|].
  rewrite !Hsum. split_and!; vm_compute; reflexivity.
Defined.

(** ** Reading a cell twice *)

(** X28: a read that returns has found its value in the store.  When
    [get_cell_value] returns, on a table whose cell store has a capacity of
    at least 1, the value is not [None] and is the one the store had for the
    cell, no [key_init] has run, and the same read right after it returns
    the same value, again without a call of [key_init]. *)
Theorem get_cell_value_returns_stored (a : CellAddr) (k : CellKey)
    (assert_available_on : Date) (check_date_availability : bool)
    (t t1 : Table.Table) (v : Value) :
  1 <= PageMaster.cache_size (Table.cells t) ->
  Table.get_cell_value a k assert_available_on check_date_availability t = (t1, Ok v) ->
  v <> VNone /\
  (PageMaster.get_value a k (Table.cells t)).2 = Ok (Some v) /\
  Table.key_init_calls t1 = Table.key_init_calls t /\
  exists t2,
    Table.get_cell_value a k assert_available_on check_date_availability t1
      = (t2, Ok v) /\
    Table.key_init_calls t2 = Table.key_init_calls t1.
Proof. apply TableFacts.get_cell_value_again. Qed.

(** The cell of column "A" at date 1 with the value 100, read with the
    check enabled. *)
Lemma get_cell_value_returns_stored_witness :
  let t := (Table.set_cell_value (mkCellAddr 1 "A") "key" (VInt 100)
              (two_flat_columns false)).1 in
  let r := Table.get_cell_value (mkCellAddr 1 "A") "key" 1 true t in
  1 <= PageMaster.cache_size (Table.cells t) /\
  r.2 = Ok (VInt 100) /\
  exists t2,
    Table.get_cell_value (mkCellAddr 1 "A") "key" 1 true r.1 = (t2, Ok (VInt 100)) /\
    Table.key_init_calls t2 = Table.key_init_calls r.1.
Proof.
  intros t r.
  assert (r.2 = Ok (VInt 100)) as Hr by (vm_compute; reflexivity).
  split_and!; [vm_compute; discriminate|exact Hr|].
  refine (proj2 (proj2 (proj2 (get_cell_value_returns_stored (mkCellAddr 1 "A") "key"
                                 1 true t r.1 (VInt 100) _ _)))).
  - vm_compute. discriminate.
  - change (r = (r.1, Ok (VInt 100))). revert Hr. generalize r.
    intros [t1 rr] Hr. simpl in Hr. by rewrite Hr.
Defined.
